(** * Maek: a shallow embedding of the build engine

    The development follows the TypeScript sources:
    - [src/maek.ts]: the rule builders [RULE], [CPP], [LINK], the
      dependency loader [loadDeps], [assertNontargets], [hashFiles],
      the scheduler [updateTargets] and the driver [update];
    - [src/jobs.ts]: the job pool [job] and its [schedule] helper.

    Strings are byte strings.  Text handled by the engine (dependency
    files, target names) is taken to be ASCII, where the byte order of
    Rocq strings and the UTF-16 order used by JavaScript coincide. *)

From Stdlib Require Import String Ascii List ZArith Lia Bool Arith.
From Stdlib Require Import Sorting.Sorted Sorting.Permutation.
From stdpp Require Import gmap strings list fin_maps.

Open Scope string_scope.
Open Scope list_scope.
Open Scope nat_scope.

Set Warnings "-register-all".

(** ** The parts of the JavaScript runtime the engine relies on *)

Module JS.

Definition nl : ascii := "010"%char.
Definition backslash : ascii := "092"%char.
Definition dquote : ascii := "034"%char.

Definition str (c : ascii) : string := String c EmptyString.

(** [\s] restricted to ASCII: tab, line feed, vertical tab, form feed,
    carriage return and space. *)
Definition is_space (c : ascii) : bool :=
  let n := nat_of_ascii c in
  ((9 <=? n) && (n <=? 13)) || (n =? 32).

Definition starts_with_space (s : string) : bool :=
  match s with
  | String c _ => is_space c
  | EmptyString => false
  end.

Fixpoint trim_start (s : string) : string :=
  match s with
  | String c r => if is_space c then trim_start r else s
  | EmptyString => EmptyString
  end.

Fixpoint rev_string (acc s : string) : string :=
  match s with
  | String c r => rev_string (String c acc) r
  | EmptyString => acc
  end.

(** [String.prototype.trim] *)
Definition trim (s : string) : string :=
  rev_string EmptyString (trim_start (rev_string EmptyString (trim_start s))).

(** [s.split(sep)] for a one-character separator *)
Fixpoint split_on (sep : ascii) (cur : string) (s : string) : list string :=
  match s with
  | EmptyString => [rev_string EmptyString cur]
  | String c r =>
      if Ascii.eqb c sep
      then rev_string EmptyString cur :: split_on sep EmptyString r
      else split_on sep (String c cur) r
  end.

Definition split (sep : ascii) (s : string) : list string :=
  split_on sep EmptyString s.

(** [a.join(sep)] *)
Fixpoint join (sep : string) (l : list string) : string :=
  match l with
  | [] => EmptyString
  | [x] => x
  | x :: r => x +:+ sep +:+ join sep r
  end.

(** [Array.prototype.sort()] with the default comparison: strings in
    code-unit order.  The order is total and equal strings are
    identical, so every sorting algorithm returns the same array;
    insertion sort stands for the engine's. *)
Fixpoint insert_sorted (x : string) (l : list string) : list string :=
  match l with
  | [] => [x]
  | y :: r => if String.leb x y then x :: l else y :: insert_sorted x r
  end.

Fixpoint sort (l : list string) : list string :=
  match l with
  | [] => []
  | x :: r => insert_sorted x (sort r)
  end.

(** [hay.includes(needle)] *)
Fixpoint includes (needle hay : string) : bool :=
  String.prefix needle hay ||
  match hay with
  | String _ r => includes needle r
  | EmptyString => false
  end.

(** *** Plain objects used as dictionaries

    An object literal [{}] inherits from [Object.prototype].  The [in]
    operator and property reads see the inherited members; only
    [Object.keys] and assignment are restricted to own properties. *)
Definition object_prototype_keys : list string :=
  [ "constructor"; "__defineGetter__"; "__defineSetter__"; "hasOwnProperty";
    "__lookupGetter__"; "__lookupSetter__"; "isPrototypeOf";
    "propertyIsEnumerable"; "toString"; "valueOf"; "__proto__";
    "toLocaleString" ].

Definition inherited (k : string) : bool :=
  existsb (String.eqb k) object_prototype_keys.

(** Own properties in insertion order, as [Object.keys] lists them. *)
Definition obj (A : Type) : Type := list (string * A).

Fixpoint get {A} (o : obj A) (k : string) : option A :=
  match o with
  | [] => None
  | (k', v) :: r => if String.eqb k k' then Some v else get r k
  end.

(** [o[k] = v]: overwrite in place or append *)
Fixpoint set {A} (o : obj A) (k : string) (v : A) : obj A :=
  match o with
  | [] => [(k, v)]
  | (k', v') :: r =>
      if String.eqb k k' then (k, v) :: r else (k', v') :: set r k v
  end.

Definition keys {A} (o : obj A) : list string := map fst o.

Definition has_own {A} (o : obj A) (k : string) : bool :=
  match get o k with Some _ => true | None => false end.

(** [k in o] *)
Definition js_in {A} (k : string) (o : obj A) : bool :=
  has_own o k || inherited k.

(** What [o[k]] evaluates to. *)
Inductive member (A : Type) : Type :=
| Own (v : A)
| Inherited
| Undefined.
Arguments Own {A} v.
Arguments Inherited {A}.
Arguments Undefined {A}.

Definition index {A} (o : obj A) (k : string) : member A :=
  match get o k with
  | Some v => Own v
  | None => if inherited k then Inherited else Undefined
  end.

(** *** JSON values and [JSON.stringify] *)
Inductive json : Type :=
| JNull
| JBool (b : bool)
| JNum (z : Z)
| JStr (s : string)
| JArr (l : list json)
| JObj (l : list (string * json)).

Definition hex_digit (n : nat) : ascii :=
  match String.get n "0123456789abcdef" with
  | Some c => c
  | None => "0"%char
  end.

Definition escape_char (c : ascii) : string :=
  let n := nat_of_ascii c in
  if Ascii.eqb c dquote then String backslash (str dquote)
  else if Ascii.eqb c backslash then String backslash (str backslash)
  else if n =? 8 then String backslash "b"
  else if n =? 9 then String backslash "t"
  else if n =? 10 then String backslash "n"
  else if n =? 12 then String backslash "f"
  else if n =? 13 then String backslash "r"
  else if n <? 32 then
    String backslash ("u00" +:+ String (hex_digit (n / 16)) (str (hex_digit (n mod 16))))
  else str c.

Fixpoint escape (s : string) : string :=
  match s with
  | EmptyString => EmptyString
  | String c r => escape_char c +:+ escape r
  end.

Definition quote (s : string) : string :=
  str dquote +:+ escape s +:+ str dquote.

Fixpoint digits (fuel : nat) (n : N) (acc : string) : string :=
  match fuel with
  | O => acc
  | S fuel' =>
      let acc' := String (ascii_of_N (48 + N.modulo n 10)) acc in
      if N.ltb n 10 then acc' else digits fuel' (N.div n 10) acc'
  end.

Definition number_to_string (z : Z) : string :=
  let n := Z.abs_N z in
  let d := digits (S (N.to_nat (N.log2 n))) n EmptyString in
  if Z.ltb z 0 then "-" +:+ d else d.

Fixpoint JSON_stringify (v : json) : string :=
  match v with
  | JNull => "null"
  | JBool true => "true"
  | JBool false => "false"
  | JNum z => number_to_string z
  | JStr s => quote s
  | JArr l => "[" +:+ join "," (map JSON_stringify l) +:+ "]"
  | JObj l =>
      "{" +:+ join "," (map (fun kv => quote (fst kv) +:+ ":" +:+ JSON_stringify (snd kv)) l) +:+ "}"
  end.

End JS.

(** ** MD5 (RFC 1321) and base64 (RFC 4648), as Node's [crypto] computes
    [createHash('md5').update(data).digest('base64')] *)

Module Digest.
Open Scope Z_scope.

Definition w32 (x : Z) : Z := x mod 4294967296.

Definition rotl (x : Z) (s : Z) : Z :=
  w32 (Z.lor (Z.shiftl x s) (Z.shiftr x (32 - s))).

Definition lnot32 (x : Z) : Z := Z.lxor x 4294967295.

Definition K : list Z :=
  [ 0xd76aa478; 0xe8c7b756; 0x242070db; 0xc1bdceee;
    0xf57c0faf; 0x4787c62a; 0xa8304613; 0xfd469501;
    0x698098d8; 0x8b44f7af; 0xffff5bb1; 0x895cd7be;
    0x6b901122; 0xfd987193; 0xa679438e; 0x49b40821;
    0xf61e2562; 0xc040b340; 0x265e5a51; 0xe9b6c7aa;
    0xd62f105d; 0x02441453; 0xd8a1e681; 0xe7d3fbc8;
    0x21e1cde6; 0xc33707d6; 0xf4d50d87; 0x455a14ed;
    0xa9e3e905; 0xfcefa3f8; 0x676f02d9; 0x8d2a4c8a;
    0xfffa3942; 0x8771f681; 0x6d9d6122; 0xfde5380c;
    0xa4beea44; 0x4bdecfa9; 0xf6bb4b60; 0xbebfbc70;
    0x289b7ec6; 0xeaa127fa; 0xd4ef3085; 0x04881d05;
    0xd9d4d039; 0xe6db99e5; 0x1fa27cf8; 0xc4ac5665;
    0xf4292244; 0x432aff97; 0xab9423a7; 0xfc93a039;
    0x655b59c3; 0x8f0ccc92; 0xffeff47d; 0x85845dd1;
    0x6fa87e4f; 0xfe2ce6e0; 0xa3014314; 0x4e0811a1;
    0xf7537e82; 0xbd3af235; 0x2ad7d2bb; 0xeb86d391 ].

Definition shifts : list Z :=
  [ 7; 12; 17; 22; 7; 12; 17; 22; 7; 12; 17; 22; 7; 12; 17; 22;
    5; 9; 14; 20; 5; 9; 14; 20; 5; 9; 14; 20; 5; 9; 14; 20;
    4; 11; 16; 23; 4; 11; 16; 23; 4; 11; 16; 23; 4; 11; 16; 23;
    6; 10; 15; 21; 6; 10; 15; 21; 6; 10; 15; 21; 6; 10; 15; 21 ].

Definition bytes_of (s : string) : list Z :=
  map (fun c => Z.of_nat (nat_of_ascii c)) (list_ascii_of_string s).

(** [n] bytes of [x], least significant first *)
Fixpoint le_bytes (n : nat) (x : Z) : list Z :=
  match n with
  | O => []
  | S n' => (x mod 256) :: le_bytes n' (x / 256)
  end.

Definition pad (msg : list Z) : list Z :=
  let len := Z.of_nat (length msg) in
  let zeros := Z.to_nat ((55 - len) mod 64) in
  msg ++ [128] ++ repeat 0 zeros ++ le_bytes 8 (8 * len).

Fixpoint words (n : nat) (bs : list Z) : list Z :=
  match n with
  | O => []
  | S n' =>
      match bs with
      | b0 :: b1 :: b2 :: b3 :: r =>
          (b0 + 256 * b1 + 65536 * b2 + 16777216 * b3) :: words n' r
      | _ => []
      end
  end.

Definition round (M : list Z) (st : Z * Z * Z * Z) (i : nat) : Z * Z * Z * Z :=
  let '(a, b, c, d) := st in
  let f :=
    if (i <? 16)%nat then Z.lor (Z.land b c) (Z.land (lnot32 b) d)
    else if (i <? 32)%nat then Z.lor (Z.land d b) (Z.land (lnot32 d) c)
    else if (i <? 48)%nat then Z.lxor b (Z.lxor c d)
    else Z.lxor c (Z.lor b (lnot32 d)) in
  let g :=
    if (i <? 16)%nat then i
    else if (i <? 32)%nat then ((5 * i + 1) mod 16)%nat
    else if (i <? 48)%nat then ((3 * i + 5) mod 16)%nat
    else ((7 * i) mod 16)%nat in
  let f' := w32 (f + a + nth i K 0 + nth g M 0) in
  (d, w32 (b + rotl f' (nth i shifts 0)), b, c).

Definition block (h : Z * Z * Z * Z) (M : list Z) : Z * Z * Z * Z :=
  let '(a0, b0, c0, d0) := h in
  let '(a, b, c, d) := fold_left (round M) (seq 0 64) h in
  (w32 (a0 + a), w32 (b0 + b), w32 (c0 + c), w32 (d0 + d)).

Fixpoint blocks (n : nat) (bs : list Z) (h : Z * Z * Z * Z) : Z * Z * Z * Z :=
  match n with
  | O => h
  | S n' => blocks n' (skipn 64 bs) (block h (words 16 bs))
  end.

Definition md5 (s : string) : list Z :=
  let bs := pad (bytes_of s) in
  let '(a, b, c, d) :=
    blocks (length bs / 64) bs (0x67452301, 0xefcdab89, 0x98badcfe, 0x10325476) in
  le_bytes 4 a ++ le_bytes 4 b ++ le_bytes 4 c ++ le_bytes 4 d.

Definition b64_char (x : Z) : ascii :=
  match String.get (Z.to_nat x)
          "ABCDEFGHIJKLMNOPQRSTUVWXYZabcdefghijklmnopqrstuvwxyz0123456789+/" with
  | Some c => c
  | None => "="%char
  end.

Fixpoint base64 (fuel : nat) (bs : list Z) : string :=
  match fuel with
  | O => EmptyString
  | S fuel' =>
      match bs with
      | [] => EmptyString
      | [x] =>
          String (b64_char (x / 4)) (String (b64_char ((x mod 4) * 16)) "==")
      | [x; y] =>
          String (b64_char (x / 4))
            (String (b64_char ((x mod 4) * 16 + y / 16))
               (String (b64_char ((y mod 16) * 4)) "="))
      | x :: y :: z :: r =>
          String (b64_char (x / 4))
            (String (b64_char ((x mod 4) * 16 + y / 16))
               (String (b64_char ((y mod 16) * 4 + z / 64))
                  (String (b64_char (z mod 64)) (base64 fuel' r))))
      end
  end.

Definition md5_base64 (data : string) : string :=
  let d := md5 data in base64 (length d) d.

End Digest.


(** ** The job pool ([src/jobs.ts])

    The pool is the module state ([active], [pending]) together with the
    callbacks that [process.nextTick] and the awaited job promises hold.
    Jobs are named by their submission number. *)

Module Jobs.

(** [JOBS = os.cpus().length + 1] *)
Definition JOBS (cpus : nat) : nat := cpus + 1.

Record pool : Type := mkPool {
  active : nat;              (* let active *)
  pending : list nat;        (* let pending: the queue of submitted jobs *)
  ticks : nat;               (* [schedule] callbacks queued by process.nextTick *)
  running : list nat;        (* jobs whose jobFn was called and has not settled *)
  settled : list nat;        (* jobs that settled; their [schedule] call has not resumed *)
  started : list nat;        (* every job dispatched so far, oldest first *)
  submitted : nat            (* number of calls of [job] *)
}.

Definition init : pool :=
  {| active := 0; pending := []; ticks := 0; running := []; settled := [];
     started := []; submitted := 0 |}.

Inductive event : Type :=
| Submit            (* a call [job(jobFn)] *)
| Tick              (* the event loop runs one queued [schedule] *)
| Settle (j : nat)  (* the promise returned by job j's jobFn settles *)
| Resume (j : nat). (* [schedule] continues after [await next.jobFn()] *)

(** [job(jobFn)]: queue a call of [schedule] for the next tick and push the
    job; jobFn is not called here. *)
Definition job (p : pool) : pool :=
  {| active := active p;
     pending := pending p ++ [submitted p];
     ticks := S (ticks p);
     running := running p;
     settled := settled p;
     started := started p;
     submitted := S (submitted p) |}.

(** [schedule], up to its [await]: the guard, [active += 1],
    [pending.shift()] and the call [next.jobFn()]. *)
Definition schedule (cpus : nat) (p : pool) : pool :=
  match pending p with
  | next :: rest =>
      if active p <? JOBS cpus then
        {| active := S (active p);
           pending := rest;
           ticks := ticks p;
           running := running p ++ [next];
           settled := settled p;
           started := started p ++ [next];
           submitted := submitted p |}
      else p
  | [] => p
  end.

Definition mem (j : nat) (l : list nat) : bool := existsb (Nat.eqb j) l.

Fixpoint remove_first (j : nat) (l : list nat) : list nat :=
  match l with
  | [] => []
  | k :: r => if k =? j then r else k :: remove_first j r
  end.

(** [schedule] after its [await]: [active -= 1; process.nextTick(schedule)]. *)
Definition schedule_resume (j : nat) (p : pool) : pool :=
  {| active := Nat.pred (active p);
     pending := pending p;
     ticks := S (ticks p);
     running := running p;
     settled := remove_first j (settled p);
     started := started p;
     submitted := submitted p |}.

Definition step (cpus : nat) (p : pool) (e : event) : option pool :=
  match e with
  | Submit => Some (job p)
  | Tick =>
      match ticks p with
      | O => None
      | S n =>
          Some (schedule cpus
                  {| active := active p; pending := pending p; ticks := n;
                     running := running p; settled := settled p;
                     started := started p; submitted := submitted p |})
      end
  | Settle j =>
      if mem j (running p) then
        Some {| active := active p; pending := pending p; ticks := ticks p;
                running := remove_first j (running p);
                settled := settled p ++ [j];
                started := started p; submitted := submitted p |}
      else None
  | Resume j =>
      if mem j (settled p) then Some (schedule_resume j p) else None
  end.

Fixpoint exec (cpus : nat) (p : pool) (tr : list event) : option pool :=
  match tr with
  | [] => Some p
  | e :: tr' =>
      match step cpus p e with
      | Some p' => exec cpus p' tr'
      | None => None
      end
  end.

End Jobs.

(** ** The engine ([src/maek.ts]): configuration and the pure helpers *)

Module Maek.

Inductive platform : Type := windows | macos | linux.

Definition CPP_STD : string := "-std=c++2a".

Record Options : Type := mkOptions {
  objPrefix : string;
  objSuffix : string;
  exeSuffix : string;
  depends : list string;
  CPPFlags : list string;
  LINKLibs : list string
}.

(** [Partial<Options>] *)
Record PartialOptions : Type := mkPartial {
  objPrefix' : option string;
  objSuffix' : option string;
  exeSuffix' : option string;
  depends' : option (list string);
  CPPFlags' : option (list string);
  LINKLibs' : option (list string)
}.

Definition no_options : PartialOptions :=
  mkPartial None None None None None None.

Definition DEFAULT_OPTIONS (OS : platform) : Options :=
  {| objPrefix := "objs/";
     objSuffix := match OS with windows => ".obj" | _ => ".o" end;
     exeSuffix := match OS with windows => ".exe" | _ => EmptyString end;
     depends := [];
     CPPFlags := [];
     LINKLibs := [] |}.

Inductive error : Type :=
| BuildError (message : string)
| Error (message : string).

Inductive result (A : Type) : Type :=
| Returns (a : A)
| Throws (e : error).
Arguments Returns {A} a.
Arguments Throws {A} e.

(** The closures a rule builder stores in [task.run] and [task.keyFn],
    given by the variables they capture. *)
Inductive run_fn : Type :=
| run_RULE (targets prerequisites : list string) (recipe : list (list string))
| run_CPP (objFile depsFile : string) (depends objCommand depsCommand : list string)
| run_LINK (exeFile : string) (depends linkCommand : list string).

Inductive key_fn : Type :=
| key_RULE (targets prerequisites : list string) (recipe : list (list string))
| key_CPP (objFile depsFile : string) (depends objCommand depsCommand : list string)
| key_LINK (exeFile : string) (depends linkCommand : list string).

Record Task : Type := mkTask {
  run : run_fn;
  keyFn : option key_fn;
  label : string;
  src : option string;
  cachedKey : option JS.json;
  pending : option nat;      (* the promise, by its number *)
  failed : bool
}.

(** [this.tasks] maps targets to task objects; several targets may hold
    the same object, so the objects live in [heap] and the dictionary
    holds their addresses. *)
Record Maek : Type := mkMaek {
  options : Options;
  tasks : JS.obj nat;
  heap : list Task
}.

Definition new_Maek (OS : platform) : Maek :=
  {| options := DEFAULT_OPTIONS OS; tasks := []; heap := [] |}.

Definition or_else {A} (o : option A) (d : A) : A :=
  match o with Some a => a | None => d end.

(** [{ ...DEFAULT_OPTIONS, ...this.options, ...localOptions }] *)
Definition combineOptions (m : Maek) (localOptions : PartialOptions) : Options :=
  let o := options m in
  {| objPrefix := or_else (objPrefix' localOptions) (objPrefix o);
     objSuffix := or_else (objSuffix' localOptions) (objSuffix o);
     exeSuffix := or_else (exeSuffix' localOptions) (exeSuffix o);
     depends := or_else (depends' localOptions) (depends o);
     CPPFlags := or_else (CPPFlags' localOptions) (CPPFlags o);
     LINKLibs := or_else (LINKLibs' localOptions) (LINKLibs o) |}.

(** [target[0] === ':'] *)
Definition is_abstract (target : string) : bool :=
  match target with
  | String c _ => Ascii.eqb c ":"%char
  | EmptyString => false
  end.

(** [for (const target of targets) this.tasks[target] = task] *)
Definition install (m : Maek) (targets : list string) (task : Task) : Maek :=
  let address := length (heap m) in
  {| options := options m;
     tasks := fold_left (fun o target => JS.set o target address) targets (tasks m);
     heap := heap m ++ [task] |}.

Definition RULE (m : Maek) (targets prerequisites : list string)
    (recipe : list (list string)) : Maek :=
  let keyFn :=
    if negb (existsb is_abstract targets)
    then Some (key_RULE targets prerequisites recipe)
    else None in
  let task :=
    {| run := run_RULE targets prerequisites recipe;
       keyFn := keyFn;
       label := "RULE " +:+ match targets with t :: _ => t | [] => "undefined" end;
       src := None; cachedKey := None; pending := None; failed := false |} in
  install m targets task.

(** [CPP(cppFile, objFileBase, localOptions)] with [objFileBase] given. *)
Definition CPP (OS : platform) (m : Maek) (cppFile objFileBase : string)
    (localOptions : PartialOptions) : result (Maek * string) :=
  let options := combineOptions m localOptions in
  let objFile := objFileBase +:+ objSuffix options in
  let depsFile := objFileBase +:+ ".d" in
  let depends := cppFile :: depends options in
  let commands cc :=
    (cc ++ ["-E"; "-M"; "-MG"; "-MT"; "x "; "-MF"; depsFile; cppFile],
     cc ++ ["-c"; "-o"; objFile; cppFile]) in
  let build '(depsCommand, objCommand) :=
    let task :=
      {| run := run_CPP objFile depsFile depends objCommand depsCommand;
         keyFn := Some (key_CPP objFile depsFile depends objCommand depsCommand);
         label := "CPP " +:+ objFile;
         src := None; cachedKey := None; pending := None; failed := false |} in
    Returns (install m [objFile] task, objFile) in
  match OS with
  | linux => build (commands (["g++"; CPP_STD; "-Wall"; "-Werror"; "-g"] ++ CPPFlags options))
  | macos => build (commands (["clang++"; CPP_STD; "-Wall"; "-Werror"; "-g"] ++ CPPFlags options))
  | windows => Throws (Error "TODO: write CPP rule for windows.")
  end.

Definition LINK (OS : platform) (m : Maek) (objFiles : list string)
    (exeFileBase : string) (localOptions : PartialOptions) : result (Maek * string) :=
  let options := combineOptions m localOptions in
  let exeFile := exeFileBase +:+ exeSuffix options in
  let build link :=
    let linkCommand := link ++ ["-o"; exeFile] ++ objFiles ++ LINKLibs options in
    let depends := objFiles ++ depends options in
    let task :=
      {| run := run_LINK exeFile depends linkCommand;
         keyFn := Some (key_LINK exeFile depends linkCommand);
         label := "LINK " +:+ exeFile;
         src := None; cachedKey := None; pending := None; failed := false |} in
    Returns (install m [exeFile] task, exeFile) in
  match OS with
  | linux => build ["g++"; CPP_STD; "-Wall"; "-Werror"; "-g"]
  | macos => build ["g++"; CPP_STD; "-Wall"; "-Werror"; "-g"]
  | windows => Throws (Error "TODO: write LINK rule for windows.")
  end.

(** *** [loadDeps] (inside [CPP]) *)

(** [.replace(/\\?\n/g, ' ')] *)
Fixpoint replace_newlines (text : string) : string :=
  match text with
  | EmptyString => EmptyString
  | String c r =>
      if Ascii.eqb c JS.nl then String " " (replace_newlines r)
      else if Ascii.eqb c JS.backslash then
        match r with
        | String c' r' =>
            if Ascii.eqb c' JS.nl then String " " (replace_newlines r')
            else String c (replace_newlines r)
        | EmptyString => String c EmptyString
        end
      else String c (replace_newlines r)
  end.

(** [.replace(/([^\\])\s+/g, '$1\n')]: scanning from the left, a
    character other than a backslash that is followed by white space is
    kept and the whole run of white space after it becomes one line
    feed.  [in_run] holds while the run of a match is being consumed. *)
Fixpoint replace_spaces (in_run : bool) (text : string) : string :=
  match text with
  | EmptyString => EmptyString
  | String c r =>
      if in_run && JS.is_space c then replace_spaces true r
      else if negb (Ascii.eqb c JS.backslash) && JS.starts_with_space r
      then String c (String JS.nl (replace_spaces true r))
      else String c (replace_spaces false r)
  end.

Definition tokens_of (text : string) : list string :=
  JS.split JS.nl (replace_spaces false (JS.trim (replace_newlines text))).

(** [for (const d of depends) inDepends[d] = true] *)
Definition inDepends_of (depends : list string) : JS.obj bool :=
  fold_left (fun o d => JS.set o d true) depends [].

(** [file] is what [readFile(depsFile)] yields, [None] when it throws. *)
Definition loadDeps (depends : list string) (file : option string) : list string :=
  match file with
  | None => []
  | Some text =>
      let tokens := tokens_of text in
      let tokens := skipn 2 tokens in
      let tokens := JS.sort tokens in
      List.filter (fun target => negb (JS.js_in target (inDepends_of depends))) tokens
  end.

(** *** [assertNontargets] *)

Definition assertNontargets (m : Maek) (prerequisites : list string)
    (ruleName : string) : result unit :=
  let errorFiles := List.filter (fun target => JS.js_in target (tasks m)) prerequisites in
  match errorFiles with
  | [] => Returns tt
  | _ =>
      Throws (BuildError
        ("the following *generated* files are required but not mentioned as dependancies:"
         +:+ JS.str JS.nl +:+ "  "
         +:+ JS.join (JS.str JS.nl +:+ "  ") errorFiles))
  end.

(** The end of a [CPP] task's [run] and the middle of its [keyFn]:
    [const extraDepends = await loadDeps();
     this.assertNontargets(extraDepends, `${task.label}`)]. *)
Definition checked_extraDepends (m : Maek) (task : Task) (depends : list string)
    (file : option string) : result (list string) :=
  let extraDepends := loadDeps depends file in
  match assertNontargets m extraDepends (label task) with
  | Returns _ => Returns extraDepends
  | Throws e => Throws e
  end.

(** *** [hashFiles] *)

(** The file system as [fs.readFile] sees it: the readable paths and
    their content. *)
Record Hashes : Type := mkHashes {
  hashCache : gmap string string;
  hashCacheHits : nat
}.

(** What a hash entry can be: the string made by [hashFile], or the
    member of [Object.prototype] that [this.hashCache[file]] reads when
    [file] is one of its names. *)
Inductive entry : Type :=
| Hash (s : string)
| Builtin (name : string).

Definition digest_of (files : gmap string string) (file : string) : string :=
  match files !! file with
  | None => file +:+ ":x"
  | Some data => file +:+ ":" +:+ Digest.md5_base64 data
  end.

(** [hashFile] up to its first [await]: [Some] is a hit. *)
Definition cached (h : Hashes) (file : string) : option entry :=
  match hashCache h !! file with
  | Some s => Some (Hash s)
  | None => if JS.inherited file then Some (Builtin file) else None
  end.

Definition hashFile (h : Hashes) (files : gmap string string) (file : string) : entry :=
  match cached h file with
  | Some e => e
  | None => Hash (digest_of files file)
  end.

(** [Promise.all(files.map(hashFile))]: every [hashFile] looks into the
    cache as the call starts; the reads complete later and each miss
    then stores its digest. *)
Definition hashFiles (h : Hashes) (files : gmap string string)
    (targets : list string) : list entry * Hashes :=
  let wanted := List.filter (fun target => negb (is_abstract target)) targets in
  let hits := List.filter (fun file => match cached h file with Some _ => true | None => false end) wanted in
  let store c file :=
    match cached h file with
    | Some _ => c
    | None => <[file := digest_of files file]> c
    end in
  (map (hashFile h files) wanted,
   {| hashCache := fold_left store wanted (hashCache h);
      hashCacheHits := hashCacheHits h + length hits |}).

(** [delete this.hashCache[file]] *)
Definition invalidate (h : Hashes) (file : string) : Hashes :=
  {| hashCache := delete file (hashCache h); hashCacheHits := hashCacheHits h |}.

End Maek.

(** ** The scheduler: [updateTargets] and [update]

    JavaScript runs one piece of code at a time.  A call of an [async]
    function runs its body at once, on the caller's stack, up to the
    first [await]; there it leaves a continuation and hands its promise
    to the caller.  The continuation runs later, after the awaited
    promise has settled.  The state below holds the task objects, the
    promises, the continuations left at each [await] and the cache file;
    an event is one uninterrupted run of engine code.

    Commands, file reads and file probes belong to the environment: what
    they answer enters through the events.  The part of a task's [run]
    after its prerequisites are up to date (its commands) and the part of
    its [keyFn] after the same point (reading and hashing files) are
    therefore answered by the environment as a whole. *)

Module Sched.
Import Maek.

Inductive outcome : Type :=
| Fulfilled (value : option JS.json)   (* [None] is [undefined] *)
| Rejected (e : error).

(** The call that made a promise. *)
Inductive origin : Type :=
| of_task (t : nat)                       (* the async arrow of line 391 *)
| of_updateTargets (targets : list string)
| of_run (t : nat)
| of_keyFn (t : nat)
| of_access (target src : string)         (* [fsPromises.access(..).catch(..)] *)
| of_update.

Record promise : Type := mkPromise {
  made_by : origin;
  settled : option outcome
}.

(** The [await]s of the engine. *)
Inductive await_point : Type :=
| await_key (t : nat)          (* line 395: [const key = await task.keyFn()] *)
| await_run (t : nat)          (* line 402: [await task.run()] *)
| await_new_key (t : nat)      (* line 405: [task.cachedKey = await task.keyFn()] *)
| await_all (targets : list string)   (* line 432: [await Promise.all(pending)] *)
| await_prerequisites          (* [await this.updateTargets(..)] opening [run] and [keyFn] *)
| await_build.                 (* line 319, in [update] *)

Record continuation : Type := mkContinuation {
  point : await_point;
  awaited : list nat;
  own : nat                    (* the promise of the suspended call *)
}.

(** What the engine did, in order. *)
Inductive note : Type :=
| launched (t : nat)       (* the async arrow of line 391 was called *)
| called_run (t : nat)     (* [task.run()] *)
| called_keyFn (t : nat)   (* [task.keyFn()] *)
| skipped (t : nat)        (* line 398: cache hit *)
| stored_key (t : nat)     (* line 405: [task.cachedKey] assigned *)
| marked_failed (t : nat)  (* line 410: [task.failed = true] *)
| wrote_cache.             (* line 340 *)

Record state : Type := mkState {
  maek : Maek;
  promises : list promise;
  continuations : list continuation;
  external : list nat;                 (* promises the environment has yet to settle *)
  cache_file : option (JS.obj JS.json);  (* maek-cache.json, [None] when unreadable *)
  history : list note;
  halted : bool                        (* the run left what is modelled *)
}.

Definition init (m : Maek) (cache : option (JS.obj JS.json)) : state :=
  {| maek := m; promises := []; continuations := []; external := [];
     cache_file := cache; history := []; halted := false |}.

(** *** State updates *)

Definition with_maek (m : Maek) (st : state) : state :=
  mkState m (promises st) (continuations st) (external st) (cache_file st)
    (history st) (halted st).

Definition with_promises (ps : list promise) (st : state) : state :=
  mkState (maek st) ps (continuations st) (external st) (cache_file st)
    (history st) (halted st).

Definition with_continuations (ks : list continuation) (st : state) : state :=
  mkState (maek st) (promises st) ks (external st) (cache_file st)
    (history st) (halted st).

Definition with_external (xs : list nat) (st : state) : state :=
  mkState (maek st) (promises st) (continuations st) xs (cache_file st)
    (history st) (halted st).

Definition with_cache_file (c : option (JS.obj JS.json)) (st : state) : state :=
  mkState (maek st) (promises st) (continuations st) (external st) c
    (history st) (halted st).

Definition record (n : note) (st : state) : state :=
  mkState (maek st) (promises st) (continuations st) (external st) (cache_file st)
    (history st ++ [n]) (halted st).

Definition halt (st : state) : state :=
  mkState (maek st) (promises st) (continuations st) (external st) (cache_file st)
    (history st) true.

Definition set_src (s : string) (k : Task) : Task :=
  mkTask (run k) (keyFn k) (label k) (Some s) (cachedKey k) (pending k) (failed k).

Definition set_cachedKey (c : option JS.json) (k : Task) : Task :=
  mkTask (run k) (keyFn k) (label k) (src k) c (pending k) (failed k).

Definition set_pending (p : nat) (k : Task) : Task :=
  mkTask (run k) (keyFn k) (label k) (src k) (cachedKey k) (Some p) (failed k).

Definition set_failed (k : Task) : Task :=
  mkTask (run k) (keyFn k) (label k) (src k) (cachedKey k) (pending k) true.

Definition task_at (st : state) (t : nat) : option Task := heap (maek st) !! t.

Definition modify_task (t : nat) (f : Task -> Task) (st : state) : state :=
  with_maek (mkMaek (options (maek st)) (tasks (maek st)) (alter f t (heap (maek st)))) st.

Definition new_promise (o : origin) (st : state) : state * nat :=
  (with_promises (promises st ++ [mkPromise o None]) st, length (promises st)).

Definition outcome_of (st : state) (p : nat) : option outcome :=
  match promises st !! p with
  | Some pr => settled pr
  | None => None
  end.

(** A promise settles once; later attempts change nothing. *)
Definition settle (p : nat) (o : outcome) (st : state) : state :=
  match promises st !! p with
  | Some (mkPromise by_ None) =>
      with_promises (<[p := mkPromise by_ (Some o)]> (promises st)) st
  | _ => st
  end.

Definition suspend (k : continuation) (st : state) : state :=
  with_continuations (continuations st ++ [k]) st.

Definition expect (p : nat) (st : state) : state :=
  with_external (external st ++ [p]) st.

(** *** The synchronous part of each call *)

Definition run_requests (r : run_fn) : list string :=
  match r with
  | run_RULE _ prerequisites _ => prerequisites
  | run_CPP _ _ depends _ _ => depends
  | run_LINK _ depends _ => depends
  end.

Definition key_requests (k : key_fn) : list string :=
  match k with
  | key_RULE _ prerequisites _ => prerequisites
  | key_CPP _ _ depends _ _ => depends
  | key_LINK _ depends _ => depends
  end.

Definition abstract_message (target src : string) : string :=
  "Target '" +:+ target +:+ "' (requested by " +:+ src
  +:+ ") is abstract but doesn't have a task.".

Definition access_message (target src : string) : string :=
  "Target '" +:+ target +:+ "' (requested by " +:+ src
  +:+ ") doesn't exist and doesn't have a task to make it.".

(** The first loop of [updateTargets] (lines 384-429).  [start t st] is the
    call of the async arrow of line 391 for task [t]; it answers with the
    arrow's promise.  The loop ends early when a target is abstract and
    has no task ([inr]), and stops where the run leaves the model. *)
Fixpoint request (start : nat -> state -> state * nat) (src : string)
    (targets : list string) (pending_ : list nat) (st : state)
    : state * (list nat + error) :=
  match targets with
  | [] => (st, inl pending_)
  | target :: rest =>
      if halted st then (st, inl pending_)
      else
        match JS.index (tasks (maek st)) target with
        | JS.Own t =>
            match task_at st t with
            | Some task =>
                match pending task with
                | Some p => request start src rest (pending_ ++ [p]) st
                | None =>
                    let st1 := modify_task t (set_src src) st in
                    let '(st2, p) := start t st1 in
                    let st3 := modify_task t (set_pending p) st2 in
                    request start src rest (pending_ ++ [p]) st3
                end
            | None => (halt st, inl pending_)
            end
        | JS.Inherited =>
            (* [this.tasks[target]] is a member of Object.prototype *)
            (halt st, inl pending_)
        | JS.Undefined =>
            if is_abstract target
            then (st, inr (BuildError (abstract_message target src)))
            else
              let '(st1, a) := new_promise (of_access target src) st in
              request start src rest (pending_ ++ [a]) (expect a st1)
        end
  end.

(** [updateTargets(targets, src)] up to [await Promise.all(pending)]. *)
Definition updateTargets (start : nat -> state -> state * nat)
    (targets : list string) (src : string) (st : state) : state * nat :=
  let '(st1, u) := new_promise (of_updateTargets targets) st in
  match request start src targets [] st1 with
  | (st2, inl pending_) => (suspend (mkContinuation (await_all targets) pending_ u) st2, u)
  | (st2, inr e) => (settle u (Rejected e) st2, u)
  end.

(** [task.run()] up to its first [await]. *)
Definition call_run (start : nat -> state -> state * nat) (t : nat) (task : Task)
    (st : state) : state * nat :=
  let '(st1, r) := new_promise (of_run t) (record (called_run t) st) in
  let '(st2, u) := updateTargets start (run_requests (run task)) (label task) st1 in
  (suspend (mkContinuation await_prerequisites [u] r) st2, r).

(** [task.keyFn()] up to its first [await]. *)
Definition call_keyFn (start : nat -> state -> state * nat) (t : nat) (task : Task)
    (k : key_fn) (st : state) : state * nat :=
  let '(st1, r) := new_promise (of_keyFn t) (record (called_keyFn t) st) in
  let '(st2, u) := updateTargets start (key_requests k) (label task +:+ " (keyFn)") st1 in
  (suspend (mkContinuation await_prerequisites [u] r) st2, r).

(** The async arrow of line 391 up to its first [await].  [stack] is the
    number of nested calls the JavaScript stack still has room for; when
    there is none the engine stops with a RangeError, which is outside
    the model. *)
Fixpoint launch (stack : nat) (t : nat) (st : state) : state * nat :=
  match stack with
  | O => (halt st, 0)
  | S stack' =>
      match task_at st t with
      | None => (halt st, 0)
      | Some task =>
          let '(st1, p) := new_promise (of_task t) (record (launched t) st) in
          match cachedKey task, keyFn task with
          | Some _, Some k =>
              let '(st2, key) := call_keyFn (launch stack') t task k st1 in
              (suspend (mkContinuation (await_key t) [key] p) st2, p)
          | _, _ =>
              let '(st2, r) := call_run (launch stack') t task st1 in
              (suspend (mkContinuation (await_run t) [r] p) st2, p)
          end
      end
  end.

(** *** [update] *)

(** Lines 292-294: [delete this.tasks[target].cachedKey] for every target. *)
Definition clear_keys (st : state) : state :=
  fold_left (fun s target =>
               match JS.get (tasks (maek s)) target with
               | Some t => modify_task t (set_cachedKey None) s
               | None => s
               end)
            (JS.keys (tasks (maek st))) st.

(** Lines 300-307.  A cache entry named like a member of Object.prototype
    passes [target in this.tasks] and writes [cachedKey] onto that member;
    for [__proto__] that member is Object.prototype itself, which is
    outside the model. *)
Definition load_keys (cache : JS.obj JS.json) (st : state) : state :=
  fold_left (fun s entry =>
               match JS.index (tasks (maek s)) (fst entry) with
               | JS.Own t => modify_task t (set_cachedKey (Some (snd entry))) s
               | JS.Inherited =>
                   if String.eqb (fst entry) "__proto__" then halt s else s
               | JS.Undefined => s
               end)
            cache st.

(** Lines 331-338: the object that is written to the cache file. *)
Definition cache_of (m : Maek) : JS.obj JS.json :=
  fold_left (fun cache target =>
               match JS.get (tasks m) target with
               | Some t =>
                   match heap m !! t with
                   | Some task =>
                       match cachedKey task with
                       | Some key => JS.set cache target key
                       | None => cache
                       end
                   | None => cache
                   end
               | None => cache
               end)
            (JS.keys (tasks m)) [].

(** Lines 291-314: forget the keys, then take those of the cache file. *)
Definition reload (st : state) : state :=
  let st1 := clear_keys st in
  match cache_file st1 with
  | Some cache => load_keys cache st1
  | None => st1
  end.

(** [update(targets)] up to [await this.updateTargets(targets, 'user')]. *)
Definition update (stack : nat) (targets : list string) (st : state) : state :=
  let '(st0, me) := new_promise of_update st in
  let '(st1, u) := updateTargets (launch stack) targets "user" (reload st0) in
  suspend (mkContinuation await_build [u] me) st1.

(** *** Continuations *)

(** The [catch] of lines 407-414. *)
Definition caught (t : nat) (e : error) (me : nat) (st : state) : state :=
  match e with
  | BuildError _ =>
      settle me (Fulfilled None)
        (record (marked_failed t) (modify_task t set_failed st))
  | Error _ => settle me (Rejected e) st
  end.

(** Lines 435-441: the first requested target whose task has failed. *)
Definition lacking (m : Maek) (targets : list string) : option string :=
  List.find (fun target =>
               match JS.get (tasks m) target with
               | Some t =>
                   match heap m !! t with
                   | Some task => failed task
                   | None => false
                   end
               | None => false
               end) targets.

Definition is_fulfilled (st : state) (p : nat) : bool :=
  match outcome_of st p with
  | Some (Fulfilled _) => true
  | _ => false
  end.

(** [JSON.stringify(key) === JSON.stringify(task.cachedKey)] *)
Definition same_key (key : option JS.json) (task : Task) : bool :=
  match key, cachedKey task with
  | Some k, Some c => String.eqb (JS.JSON_stringify k) (JS.JSON_stringify c)
  | _, _ => false
  end.

(** The code after an [await], once what it waits for has settled.
    [Promise.all] is settled when all its promises are fulfilled or one
    of them is rejected; [choice] names a rejected one. *)
Definition resume (stack : nat) (k : continuation) (choice : nat) (st : state)
    : option state :=
  match point k with
  | await_all targets =>
      if forallb (is_fulfilled st) (awaited k) then
        match lacking (maek st) targets with
        | Some target =>
            Some (settle (own k) (Rejected (BuildError ("for lack of " +:+ target))) st)
        | None => Some (settle (own k) (Fulfilled None) st)
        end
      else
        match awaited k !! choice with
        | Some p =>
            match outcome_of st p with
            | Some (Rejected e) => Some (settle (own k) (Rejected e) st)
            | _ => None
            end
        | None => None
        end
  | _ =>
      match awaited k with
      | [p] =>
          match outcome_of st p, point k with
          | None, _ => None
          | Some (Rejected e), await_key t
          | Some (Rejected e), await_run t
          | Some (Rejected e), await_new_key t => Some (caught t e (own k) st)
          | Some (Fulfilled key), await_key t =>
              match task_at st t with
              | Some task =>
                  if same_key key task
                  then Some (settle (own k) (Fulfilled None) (record (skipped t) st))
                  else
                    let '(st1, r) := call_run (launch stack) t task st in
                    Some (suspend (mkContinuation (await_run t) [r] (own k)) st1)
              | None => None
              end
          | Some (Fulfilled _), await_run t =>
              match task_at st t with
              | Some task =>
                  match keyFn task with
                  | Some kf =>
                      let '(st1, key) := call_keyFn (launch stack) t task kf st in
                      Some (suspend (mkContinuation (await_new_key t) [key] (own k)) st1)
                  | None => Some (settle (own k) (Fulfilled None) st)
                  end
              | None => None
              end
          | Some (Fulfilled key), await_new_key t =>
              Some (settle (own k) (Fulfilled None)
                      (record (stored_key t) (modify_task t (set_cachedKey key) st)))
          | Some (Fulfilled _), await_prerequisites =>
              (* the rest of [run] or [keyFn] waits on the environment *)
              Some (expect (own k) st)
          | Some (Rejected e), await_prerequisites =>
              Some (settle (own k) (Rejected e) st)
          | Some (Fulfilled _), await_build
          | Some (Rejected (BuildError _)), await_build =>
              Some (settle (own k) (Fulfilled None)
                      (record wrote_cache
                         (with_cache_file (Some (cache_of (maek st))) st)))
          | Some (Rejected (Error m)), await_build =>
              Some (settle (own k) (Rejected (Error m)) st)
          | _, await_all _ => None
          end
      | _ => None
      end
  end.

(** *** Events *)

Inductive event : Type :=
| call_update (targets : list string)       (* the driver calls [maek.update(targets)] *)
| continue (k : nat) (choice : nat)         (* continuation number [k] runs *)
| access_done (p : nat) (ok : bool)         (* a probe [fsPromises.access] answers *)
| run_done (p : nat) (e : option error)     (* the commands of a [run] end *)
| key_done (p : nat) (r : JS.json + error). (* the reads and hashes of a [keyFn] end *)

Definition is_external (p : nat) (st : state) : bool :=
  existsb (Nat.eqb p) (external st).

Definition answered (p : nat) (o : outcome) (st : state) : state :=
  settle p o (with_external (List.filter (fun q => negb (q =? p)) (external st)) st).

Definition step (stack : nat) (st : state) (e : event) : option state :=
  if halted st then None
  else
    match e with
    | call_update targets => Some (update stack targets st)
    | continue k choice =>
        match continuations st !! k with
        | Some c => resume stack c choice (with_continuations (delete k (continuations st)) st)
        | None => None
        end
    | access_done p ok =>
        match is_external p st, promises st !! p with
        | true, Some (mkPromise (of_access target src_) None) =>
            Some (answered p
                    (if ok then Fulfilled None
                     else Rejected (BuildError (access_message target src_))) st)
        | _, _ => None
        end
    | run_done p e =>
        match is_external p st, promises st !! p with
        | true, Some (mkPromise (of_run _) None) =>
            Some (answered p
                    (match e with None => Fulfilled None | Some e => Rejected e end) st)
        | _, _ => None
        end
    | key_done p r =>
        match is_external p st, promises st !! p with
        | true, Some (mkPromise (of_keyFn _) None) =>
            Some (answered p
                    (match r with inl key => Fulfilled (Some key) | inr e => Rejected e end) st)
        | _, _ => None
        end
    end.

Fixpoint exec (stack : nat) (st : state) (tr : list event) : option state :=
  match tr with
  | [] => Some st
  | e :: tr' =>
      match step stack st e with
      | Some st' => exec stack st' tr'
      | None => None
      end
  end.

(** *** Observations *)

Definition count (P : note -> bool) (st : state) : nat :=
  length (List.filter P (history st)).

Definition is_launched (t : nat) (n : note) : bool :=
  match n with launched t' => t =? t' | _ => false end.

Definition is_called_run (t : nat) (n : note) : bool :=
  match n with called_run t' => t =? t' | _ => false end.

Definition is_called_keyFn (t : nat) (n : note) : bool :=
  match n with called_keyFn t' => t =? t' | _ => false end.

Definition is_stored_key (t : nat) (n : note) : bool :=
  match n with stored_key t' => t =? t' | _ => false end.

Definition is_marked_failed (t : nat) (n : note) : bool :=
  match n with marked_failed t' => t =? t' | _ => false end.

Definition is_skipped (t : nat) (n : note) : bool :=
  match n with skipped t' => t =? t' | _ => false end.

Definition launches (t : nat) (st : state) : nat := count (is_launched t) st.
Definition runs (t : nat) (st : state) : nat := count (is_called_run t) st.

(** The continuations waiting at some [await]. *)
Definition waiting (P : await_point -> bool) (st : state) : nat :=
  length (List.filter (fun c => P (point c)) (continuations st)).

Definition at_key (t : nat) (pt : await_point) : bool :=
  match pt with await_key t' => t =? t' | _ => false end.

Definition at_run (t : nat) (pt : await_point) : bool :=
  match pt with await_run t' => t =? t' | _ => false end.

Definition at_new_key (t : nat) (pt : await_point) : bool :=
  match pt with await_new_key t' => t =? t' | _ => false end.

End Sched.

(** ** Predicates used in the statements *)

(** What [hashFiles] answers for one path: the memoised entry when the
    hash cache holds one, else the digest of what the file holds now. *)
Inductive entry_for (h : Maek.Hashes) (files : gmap string string)
    : string -> Maek.entry -> Prop :=
| entry_memoised file s :
    Maek.hashCache h !! file = Some s ->
    entry_for h files file (Maek.Hash s)
| entry_digest file data :
    Maek.hashCache h !! file = None ->
    files !! file = Some data ->
    entry_for h files file (Maek.Hash (file +:+ ":" +:+ Digest.md5_base64 data))
| entry_unreadable file :
    Maek.hashCache h !! file = None ->
    files !! file = None ->
    entry_for h files file (Maek.Hash (file +:+ ":x")).

Definition concrete (targets : list string) : list string :=
  List.filter (fun target => negb (Maek.is_abstract target)) targets.

(** *** What the synchronous part of a call may change *)

Definition pending_of (st : Sched.state) (t : nat) : option nat :=
  match Sched.task_at st t with
  | Some task => Maek.pending task
  | None => None
  end.

(** Between two moments a task object keeps what its rule gave it, its
    key and its failure mark; [pending], once set, stays set. *)
Definition task_grows (k k' : Maek.Task) : Prop :=
  Maek.run k' = Maek.run k /\ Maek.keyFn k' = Maek.keyFn k
  /\ Maek.label k' = Maek.label k /\ Maek.cachedKey k' = Maek.cachedKey k
  /\ Maek.failed k' = Maek.failed k
  /\ (Maek.pending k <> None -> Maek.pending k' <> None).

Definition prelude (n : Sched.note) : Prop :=
  match n with
  | Sched.launched _ | Sched.called_run _ | Sched.called_keyFn _ => True
  | _ => False
  end.

Definition opening (c : Sched.continuation) : Prop :=
  match Sched.point c with
  | Sched.await_key _ | Sched.await_run _ | Sched.await_all _
  | Sched.await_prerequisites => True
  | _ => False
  end.

Record sync (st st' : Sched.state) : Prop := mkSync {
  sync_tasks : Maek.tasks (Sched.maek st') = Maek.tasks (Sched.maek st);
  sync_heap : Forall2 task_grows (Maek.heap (Sched.maek st)) (Maek.heap (Sched.maek st'));
  sync_history :
    exists h, Sched.history st' = Sched.history st ++ h /\ Forall prelude h;
  sync_continuations :
    exists cs, Sched.continuations st' = Sched.continuations st ++ cs /\ Forall opening cs;
  sync_promises : exists ps, Sched.promises st' = Sched.promises st ++ ps;
  sync_external : exists xs, Sched.external st' = Sched.external st ++ xs;
  sync_cache_file : Sched.cache_file st' = Sched.cache_file st;
  sync_halted : Sched.halted st = true -> Sched.halted st' = true
}.

(** *** Sample configurations *)

(** One cached rule without prerequisites and an entry for it in the
    cache file. *)
Definition single_rule : Maek.Maek :=
  Maek.RULE (Maek.new_Maek Maek.linux) ["out"] [] [["cc"; "-o"; "out"]].

Definition single_cache : option (JS.obj JS.json) :=
  Some [("out", JS.JArr [JS.JArr [JS.JStr "cc"; JS.JStr "-o"; JS.JStr "out"]; JS.JStr "out:x"])].

Definition after (stack : nat) (m : Maek.Maek) (cache : option (JS.obj JS.json))
    (tr : list Sched.event) : Sched.state :=
  match Sched.exec stack (Sched.init m cache) tr with
  | Some st => st
  | None => Sched.init m cache
  end.

(** *** What a continuation does, case by case *)

Definition task_point (pt : Sched.await_point) : option nat :=
  match pt with
  | Sched.await_key t | Sched.await_run t | Sched.await_new_key t => Some t
  | _ => None
  end.

Inductive resumed (stack : nat) (c : Sched.continuation) (st : Sched.state)
    : Sched.state -> Prop :=
| resumed_walk targets :
    Sched.point c = Sched.await_all targets ->
    forallb (Sched.is_fulfilled st) (Sched.awaited c) = true ->
    resumed stack c st
      (Sched.settle (Sched.own c)
         match Sched.lacking (Sched.maek st) targets with
         | Some target => Sched.Rejected (Maek.BuildError ("for lack of " +:+ target))
         | None => Sched.Fulfilled None
         end st)
| resumed_bail targets p e :
    Sched.point c = Sched.await_all targets ->
    forallb (Sched.is_fulfilled st) (Sched.awaited c) = false ->
    In p (Sched.awaited c) ->
    Sched.outcome_of st p = Some (Sched.Rejected e) ->
    resumed stack c st (Sched.settle (Sched.own c) (Sched.Rejected e) st)
| resumed_caught t p e :
    task_point (Sched.point c) = Some t ->
    Sched.awaited c = [p] ->
    Sched.outcome_of st p = Some (Sched.Rejected e) ->
    resumed stack c st (Sched.caught t e (Sched.own c) st)
| resumed_skip t p key task :
    Sched.point c = Sched.await_key t ->
    Sched.awaited c = [p] ->
    Sched.outcome_of st p = Some (Sched.Fulfilled key) ->
    Sched.task_at st t = Some task ->
    Sched.same_key key task = true ->
    resumed stack c st
      (Sched.settle (Sched.own c) (Sched.Fulfilled None) (Sched.record (Sched.skipped t) st))
| resumed_run t p key task :
    Sched.point c = Sched.await_key t ->
    Sched.awaited c = [p] ->
    Sched.outcome_of st p = Some (Sched.Fulfilled key) ->
    Sched.task_at st t = Some task ->
    Sched.same_key key task = false ->
    resumed stack c st
      (Sched.suspend
         (Sched.mkContinuation (Sched.await_run t)
            [snd (Sched.call_run (Sched.launch stack) t task st)] (Sched.own c))
         (fst (Sched.call_run (Sched.launch stack) t task st)))
| resumed_rekey t p v task kf :
    Sched.point c = Sched.await_run t ->
    Sched.awaited c = [p] ->
    Sched.outcome_of st p = Some (Sched.Fulfilled v) ->
    Sched.task_at st t = Some task ->
    Maek.keyFn task = Some kf ->
    resumed stack c st
      (Sched.suspend
         (Sched.mkContinuation (Sched.await_new_key t)
            [snd (Sched.call_keyFn (Sched.launch stack) t task kf st)] (Sched.own c))
         (fst (Sched.call_keyFn (Sched.launch stack) t task kf st)))
| resumed_done t p v task :
    Sched.point c = Sched.await_run t ->
    Sched.awaited c = [p] ->
    Sched.outcome_of st p = Some (Sched.Fulfilled v) ->
    Sched.task_at st t = Some task ->
    Maek.keyFn task = None ->
    resumed stack c st (Sched.settle (Sched.own c) (Sched.Fulfilled None) st)
| resumed_store t p key :
    Sched.point c = Sched.await_new_key t ->
    Sched.awaited c = [p] ->
    Sched.outcome_of st p = Some (Sched.Fulfilled key) ->
    resumed stack c st
      (Sched.settle (Sched.own c) (Sched.Fulfilled None)
         (Sched.record (Sched.stored_key t)
            (Sched.modify_task t (Sched.set_cachedKey key) st)))
| resumed_work p v :
    Sched.point c = Sched.await_prerequisites ->
    Sched.awaited c = [p] ->
    Sched.outcome_of st p = Some (Sched.Fulfilled v) ->
    resumed stack c st (Sched.expect (Sched.own c) st)
| resumed_pass p e :
    Sched.point c = Sched.await_prerequisites ->
    Sched.awaited c = [p] ->
    Sched.outcome_of st p = Some (Sched.Rejected e) ->
    resumed stack c st (Sched.settle (Sched.own c) (Sched.Rejected e) st)
| resumed_write p o :
    Sched.point c = Sched.await_build ->
    Sched.awaited c = [p] ->
    Sched.outcome_of st p = Some o ->
    (forall m, o <> Sched.Rejected (Maek.Error m)) ->
    resumed stack c st
      (Sched.settle (Sched.own c) (Sched.Fulfilled None)
         (Sched.record Sched.wrote_cache
            (Sched.with_cache_file (Some (Sched.cache_of (Sched.maek st))) st)))
| resumed_abort p m :
    Sched.point c = Sched.await_build ->
    Sched.awaited c = [p] ->
    Sched.outcome_of st p = Some (Sched.Rejected (Maek.Error m)) ->
    resumed stack c st (Sched.settle (Sched.own c) (Sched.Rejected (Maek.Error m)) st).

(** What the environment may answer to a promise it owes. *)
Inductive answer_for : Sched.origin -> Sched.outcome -> Prop :=
| answer_access target src_ :
    answer_for (Sched.of_access target src_) (Sched.Fulfilled None)
| answer_no_access target src_ :
    answer_for (Sched.of_access target src_)
      (Sched.Rejected (Maek.BuildError (Sched.access_message target src_)))
| answer_run t : answer_for (Sched.of_run t) (Sched.Fulfilled None)
| answer_run_error t e : answer_for (Sched.of_run t) (Sched.Rejected e)
| answer_key t key : answer_for (Sched.of_keyFn t) (Sched.Fulfilled (Some key))
| answer_key_error t e : answer_for (Sched.of_keyFn t) (Sched.Rejected e).

Inductive stepped (stack : nat) (st : Sched.state) : Sched.state -> Prop :=
| stepped_update targets :
    stepped stack st (Sched.update stack targets st)
| stepped_continue k c st' :
    Sched.continuations st !! k = Some c ->
    resumed stack c
      (Sched.with_continuations (delete k (Sched.continuations st)) st) st' ->
    stepped stack st st'
| stepped_answer p by_ o :
    Sched.is_external p st = true ->
    Sched.promises st !! p = Some (Sched.mkPromise by_ None) ->
    answer_for by_ o ->
    stepped stack st (Sched.answered p o st).

(** *** Task objects along a run *)

Definition task_evolves (k k' : Maek.Task) : Prop :=
  Maek.run k' = Maek.run k /\ Maek.keyFn k' = Maek.keyFn k
  /\ Maek.label k' = Maek.label k
  /\ (Maek.pending k <> None -> Maek.pending k' <> None).

Definition evolves (st st' : Sched.state) : Prop :=
  Maek.tasks (Sched.maek st') = Maek.tasks (Sched.maek st)
  /\ Forall2 task_evolves (Maek.heap (Sched.maek st)) (Maek.heap (Sched.maek st')).

(** *** Accounting for the started tasks

    A call of the async arrow of line 391 for task [t] is, at any later
    moment, either still before its first [await], or waiting at one of
    its three [await]s, or over.  [credit] counts the calls that are not
    accounted for by a waiting continuation or by a noted ending;
    [credit_run] counts those that did not call [run] and can no longer
    be found before the call. *)
Definition credit (t : nat) (st : Sched.state) : Z :=
  Z.of_nat (Sched.launches t st)
  - Z.of_nat (Sched.waiting (Sched.at_key t) st)
  - Z.of_nat (Sched.waiting (Sched.at_run t) st)
  - Z.of_nat (Sched.waiting (Sched.at_new_key t) st)
  - Z.of_nat (Sched.count (Sched.is_skipped t) st)
  - Z.of_nat (Sched.count (Sched.is_stored_key t) st)
  - Z.of_nat (Sched.count (Sched.is_marked_failed t) st).

Definition credit_run (t : nat) (st : Sched.state) : Z :=
  Z.of_nat (Sched.launches t st)
  - Z.of_nat (Sched.runs t st)
  - Z.of_nat (Sched.waiting (Sched.at_key t) st)
  - Z.of_nat (Sched.count (Sched.is_skipped t) st).

Definition keeps_credit (st st' : Sched.state) : Prop :=
  forall t, (credit t st <= credit t st')%Z /\ (credit_run t st <= credit_run t st')%Z.

Definition keeps_credit_but (t : nat) (st st' : Sched.state) : Prop :=
  forall t', (credit t' st <= credit t' st')%Z
    /\ (credit_run t' st <= credit_run t' st' + (if Nat.eqb t' t then 1 else 0))%Z.

Definition balanced (st : Sched.state) : Prop :=
  forall t, (0 <= credit t st)%Z /\ (0 <= credit_run t st)%Z.

Definition indicator (b : bool) : Z := if b then 1%Z else 0%Z.

(** What a note and a new continuation do to the credit of task [t]. *)
Definition note_credit (t : nat) (n : Sched.note) : Z :=
  (indicator (Sched.is_launched t n) - indicator (Sched.is_skipped t n)
   - indicator (Sched.is_stored_key t n) - indicator (Sched.is_marked_failed t n))%Z.

Definition note_credit_run (t : nat) (n : Sched.note) : Z :=
  (indicator (Sched.is_launched t n) - indicator (Sched.is_called_run t n)
   - indicator (Sched.is_skipped t n))%Z.

Definition point_credit (t : nat) (pt : Sched.await_point) : Z :=
  (indicator (Sched.at_key t pt) + indicator (Sched.at_run t pt)
   + indicator (Sched.at_new_key t pt))%Z.

Definition point_credit_run (t : nat) (pt : Sched.await_point) : Z :=
  indicator (Sched.at_key t pt).

(** *** Acyclic configurations *)

(** The targets a task asks [updateTargets] for, from [run] and from
    [keyFn]. *)
Definition requests_of (task : Maek.Task) : list string :=
  Sched.run_requests (Maek.run task)
  ++ match Maek.keyFn task with
     | Some k => Sched.key_requests k
     | None => []
     end.

(** [rank] orders the tasks so that every task asks only for targets of
    tasks of lower rank: the prerequisite graph has no cycle. *)
Definition ranked (m : Maek.Maek) (rank : nat -> nat) : Prop :=
  forall t task target t',
    Maek.heap m !! t = Some task ->
    In target (requests_of task) ->
    JS.get (Maek.tasks m) target = Some t' ->
    rank t' < rank t.

Definition top (rank : nat -> nat) (m : Maek.Maek) : nat :=
  S (list_max (map (fun kv => rank (snd kv)) (Maek.tasks m))).

(** A task is started at most once, and only a started task is pending. *)
Definition once (st : Sched.state) : Prop :=
  (forall t, Sched.launches t st <= 1)
  /\ (forall t, pending_of st t = None -> Sched.launches t st = 0).

Definition once_below (rank : nat -> nat) (r : nat) (st : Sched.state) : Prop :=
  (forall t, Sched.launches t st <= 1)
  /\ (forall t, rank t < r -> pending_of st t = None -> Sched.launches t st = 0).

Definition same_above (rank : nat -> nat) (r : nat) (st st' : Sched.state) : Prop :=
  forall t, r <= rank t ->
    Sched.launches t st' = Sched.launches t st /\ pending_of st' t = pending_of st t.

Definition stable (st st' : Sched.state) : Prop :=
  forall t p, pending_of st t = Some p -> pending_of st' t = Some p.

Definition starts_below (rank : nat -> nat) (r : nat) (st st' : Sched.state) : Prop :=
  once_below rank r st ->
  once_below rank r st' /\ same_above rank r st st' /\ stable st st'.

Definition same_marks (st st' : Sched.state) : Prop :=
  (forall t, Sched.launches t st' = Sched.launches t st)
  /\ (forall t, pending_of st' t = pending_of st t).

Definition targets_below (rank : nat -> nat) (r : nat) (m : Maek.Maek)
    (targets : list string) : Prop :=
  forall target t, In target targets -> JS.get (Maek.tasks m) target = Some t -> rank t < r.

(** Two task objects that differ at most in [cachedKey]. *)
Definition same_but_key (k k' : Maek.Task) : Prop :=
  Maek.run k' = Maek.run k /\ Maek.keyFn k' = Maek.keyFn k
  /\ Maek.label k' = Maek.label k /\ Maek.src k' = Maek.src k
  /\ Maek.pending k' = Maek.pending k /\ Maek.failed k' = Maek.failed k.

(** *** A pending task is left alone *)

(** Between [st] and [st'] nothing was noted about task [t]: it was not
    started and neither [run] nor [keyFn] was called. *)
Definition untouched (t : nat) (st st' : Sched.state) : Prop :=
  pending_of st' t <> None
  /\ Sched.launches t st' = Sched.launches t st
  /\ Sched.runs t st' = Sched.runs t st
  /\ Sched.count (Sched.is_called_keyFn t) st' = Sched.count (Sched.is_called_keyFn t) st.

Definition passes (t : nat) (st st' : Sched.state) : Prop :=
  pending_of st t <> None -> untouched t st st'.

(** Two rules that require each other. *)
Definition two_cycle : Maek.Maek :=
  Maek.RULE (Maek.RULE (Maek.new_Maek Maek.linux) ["a"] ["b"] [["touch"; "a"]])
    ["b"] ["a"] [["touch"; "b"]].

(** A rule that requires its own target. *)
Definition self_cycle : Maek.Maek :=
  Maek.RULE (Maek.new_Maek Maek.linux) ["a"] ["a"] [["touch"; "a"]].

(** A rule with a prerequisite made by another rule and one that is a
    plain file. *)
Definition two_rules : Maek.Maek :=
  Maek.RULE
    (Maek.RULE (Maek.new_Maek Maek.linux) ["out"] ["in"; "gen"] [["cp"; "in"; "out"]])
    ["gen"] [] [["mk"; "gen"]].

Definition two_rules_rank (t : nat) : nat :=
  match t with
  | O => 1
  | _ => 0
  end.

(** *** Keys *)

Definition cachedKey_of (st : Sched.state) (t : nat) : option JS.json :=
  match Sched.task_at st t with
  | Some task => Maek.cachedKey task
  | None => None
  end.

(** The key of task [t] once [update] has read the cache file (line 314). *)
Definition loaded_key (m : Maek.Maek) (cache : option (JS.obj JS.json)) (t : nat)
    : option JS.json :=
  cachedKey_of (Sched.reload (Sched.init m cache)) t.

Definition is_update (e : Sched.event) : bool :=
  match e with
  | Sched.call_update _ => true
  | _ => false
  end.

(** An event other than a call of [update]. *)
Inductive moved (stack : nat) (st : Sched.state) : Sched.state -> Prop :=
| moved_continue k c st' :
    Sched.continuations st !! k = Some c ->
    resumed stack c
      (Sched.with_continuations (delete k (Sched.continuations st)) st) st' ->
    moved stack st st'
| moved_answer p by_ o :
    Sched.is_external p st = true ->
    Sched.promises st !! p = Some (Sched.mkPromise by_ None) ->
    answer_for by_ o ->
    moved stack st (Sched.answered p o st).

(** Only a task with a key function waits for a new key. *)
Definition keyed_waits (st : Sched.state) : Prop :=
  forall c t, In c (Sched.continuations st) ->
    Sched.point c = Sched.await_new_key t ->
    exists task kf, Sched.task_at st t = Some task /\ Maek.keyFn task = Some kf.

(** As long as no key was stored for a task, it has the key that
    [update] loaded. *)
Definition keeps_loaded (key : nat -> option JS.json) (st : Sched.state) : Prop :=
  forall t, Sched.count (Sched.is_stored_key t) st = 0 -> cachedKey_of st t = key t.

(** A RULE that owns an abstract target and a file, and a cache file
    left by an earlier configuration in which the file had a rule of its
    own. *)
Definition phony_rule : Maek.Maek :=
  Maek.RULE (Maek.new_Maek Maek.linux) [":all"; "b"] [] [["make"; "b"]].

Definition phony_cache : option (JS.obj JS.json) :=
  Some [("b", JS.JArr [JS.JArr [JS.JStr "make"; JS.JStr "b"]; JS.JStr "b:x"])].

(** ** Further notions used by the properties *)

(** Queued jobs are never forgotten: a call of [schedule] is on its way
    that will look at the queue. *)
Definition attended (p : Jobs.pool) : Prop :=
  Jobs.pending p <> [] -> 0 < Jobs.ticks p \/ 0 < Jobs.active p.

(** *** [runCommand] ([src/jobs.ts]): the command as it is printed *)

(** The characters of the class tested at line 111: space, tab, line
    feed, and the punctuation that a shell interprets. *)
Definition special_characters : list ascii :=
  [ " "; "009"; "010"; "!"; JS.dquote; "'"; "$"; "&"; "("; ")"; "*"; ",";
    ";"; "<"; ">"; "?"; "["; JS.backslash; "]"; "^"; "`"; "{"; "|"; "}"; "~" ]%char.

Definition is_special (c : ascii) : bool :=
  existsb (Ascii.eqb c) special_characters.

Fixpoint has_special (token : string) : bool :=
  match token with
  | EmptyString => false
  | String c r => is_special c || has_special r
  end.

(** The test of lines 111-113. *)
Definition needs_quotes (token : string) : bool :=
  has_special token
  || match token with
     | String c _ => Ascii.eqb c "="%char || Ascii.eqb c "#"%char
     | EmptyString => false
     end.

(** Line 115: every single quote of the token is replaced by a closing
    quote, a backslash, a quote, and an opening quote. *)
Fixpoint escape_quotes (token : string) : string :=
  match token with
  | EmptyString => EmptyString
  | String c r =>
      if Ascii.eqb c "'"%char
      then String "'" (String JS.backslash (String "'" (String "'" (escape_quotes r))))
      else String c (escape_quotes r)
  end.

(** What one token adds to [prettyCommand] (lines 114-118). *)
Definition shown (token : string) : string :=
  if needs_quotes token then "'" +:+ escape_quotes token +:+ "'" else token.

(** One turn of the loop of lines 109-119. *)
Definition pretty_step (pretty token : string) : string :=
  let pretty := if String.eqb pretty EmptyString then pretty else pretty +:+ " " in
  pretty +:+ shown token.

(** The loop of lines 108-119. *)
Definition prettyCommand (command : list string) : string :=
  fold_left pretty_step command EmptyString.




(** *** [CPP] without [objFileBase] *)

Fixpoint has_dot (s : string) : bool :=
  match s with
  | EmptyString => false
  | String c r => Ascii.eqb c "."%char || has_dot r
  end.

(** [cppFile.replace(/\.[^.]*$/, '')]: the match starts at the last dot
    and runs to the end. *)
Fixpoint strip_extension (s : string) : string :=
  match s with
  | EmptyString => EmptyString
  | String c r =>
      if Ascii.eqb c "."%char && negb (has_dot r) then EmptyString
      else String c (strip_extension r)
  end.

(** A relative path in normal form: its segments are not empty and are
    neither [.] nor [..]. *)
Definition plain_path (p : string) : bool :=
  forallb (fun s => negb (String.eqb s EmptyString) && negb (String.eqb s ".")
                    && negb (String.eqb s ".."))
          (JS.split "/" p).

(** [path.relative('', p)] leads from the working directory to [p]; for a
    relative path in normal form that is [p] itself.  Other paths are not
    modelled. *)
Definition path_relative (p : string) : option string :=
  if plain_path p then Some p else None.

(** [CPP(cppFile, objFileBase?, localOptions)]; [None] where
    [path.relative] is not modelled. *)
Definition CPP_optional (OS : Maek.platform) (m : Maek.Maek) (cppFile : string)
    (objFileBase : option string) (localOptions : Maek.PartialOptions)
    : option (Maek.result (Maek.Maek * string)) :=
  let options := Maek.combineOptions m localOptions in
  match objFileBase with
  | Some base => Some (Maek.CPP OS m cppFile base localOptions)
  | None =>
      match path_relative (Maek.objPrefix options +:+ strip_extension cppFile) with
      | Some base => Some (Maek.CPP OS m cppFile base localOptions)
      | None => None
      end
  end.

(** *** The build description ([Maekfile.ts]) *)

(** Sequencing of builder calls: an exception ends the script. *)
Definition and_then {A B} (x : option (Maek.result A))
    (f : A -> option (Maek.result B)) : option (Maek.result B) :=
  match x with
  | Some (Maek.Returns a) => f a
  | Some (Maek.Throws e) => Some (Maek.Throws e)
  | None => None
  end.

(** Lines 3-32: the rules of the sample project. *)
Definition Maekfile_rules (OS : Maek.platform) : option (Maek.result Maek.Maek) :=
  let maek := Maek.new_Maek OS in
  and_then (CPP_optional OS maek "Player.cpp" None Maek.no_options) (fun '(maek, Player_obj) =>
  and_then (CPP_optional OS maek "Level.cpp" None Maek.no_options) (fun '(maek, Level_obj) =>
  and_then (CPP_optional OS maek "game.cpp" None Maek.no_options) (fun '(maek, game_obj) =>
  and_then (CPP_optional OS maek "test.cpp" None Maek.no_options) (fun '(maek, test_obj) =>
  and_then (Some (Maek.LINK OS maek [game_obj; Player_obj; Level_obj] "dist/game"
                    Maek.no_options)) (fun '(maek, game_exe) =>
  and_then (Some (Maek.LINK OS maek [test_obj; Player_obj; Level_obj] "test/game-test"
                    Maek.no_options)) (fun '(maek, test_exe) =>
  Some (Maek.Returns
          (Maek.RULE maek [":test"] [test_exe] [[test_exe; "--all-tests"]])))))))).

(** Lines 41-46: the targets to build, from [process.argv]. *)
Definition Maekfile_targets (argv : list string) : list string :=
  if 2 <? length argv then skipn 2 argv else [":dist"].

(** *** Registries *)

(** Every target leads to a task object. *)
Definition registered (m : Maek.Maek) : Prop :=
  forall target t, JS.get (Maek.tasks m) target = Some t -> t < length (Maek.heap m).

(** A configuration as the builders leave it: no task has been started,
    has a key or has failed. *)
Definition untouched_task (k : Maek.Task) : Prop :=
  Maek.cachedKey k = None /\ Maek.pending k = None /\ Maek.failed k = false.

(** No task so far asks for one of [targets]. *)
Definition unrequested (m : Maek.Maek) (targets : list string) : Prop :=
  forall t task target,
    Maek.heap m !! t = Some task -> In target (requests_of task) -> ~ In target targets.

(** The rank of a task added to a ranked configuration: above every
    task there is. *)
Definition rank_above (rank : nat -> nat) (n : nat) : nat :=
  S (list_max (map rank (seq 0 n))).

Definition extend_rank (rank : nat -> nat) (n : nat) (t : nat) : nat :=
  if t =? n then rank_above rank n else rank t.

(** The sample project: objects below programs below the test rule. *)
Definition Maekfile_rank (t : nat) : nat :=
  match t with
  | 0 | 1 | 2 | 3 => 0
  | 4 | 5 => 1
  | _ => 2
  end.

(** *** Observations on a run of the scheduler *)

Definition is_wrote_cache (n : Sched.note) : bool :=
  match n with Sched.wrote_cache => true | _ => false end.

Definition at_build (pt : Sched.await_point) : bool :=
  match pt with Sched.await_build => true | _ => false end.

(** The cache writes so far, and the calls of [update] that have yet to
    write. *)
Definition written (st : Sched.state) : nat := Sched.count is_wrote_cache st.
Definition building (st : Sched.state) : nat := Sched.waiting at_build st.

(** The calls of [update] among the events. *)
Definition updates (tr : list Sched.event) : nat :=
  length (List.filter is_update tr).

Definition failed_of (st : Sched.state) (t : nat) : bool :=
  match Sched.task_at st t with
  | Some task => Maek.failed task
  | None => false
  end.

(** Between two moments: the failure mark of a task either stays with
    nothing noted, or one failure is noted and the mark is set. *)
Definition marks_failures (st st' : Sched.state) : Prop :=
  forall t,
    (Sched.task_at st' t = None <-> Sched.task_at st t = None)
    /\ ((failed_of st' t = failed_of st t
         /\ Sched.count (Sched.is_marked_failed t) st'
            = Sched.count (Sched.is_marked_failed t) st)
        \/ (Sched.count (Sched.is_marked_failed t) st'
            = S (Sched.count (Sched.is_marked_failed t) st)
            /\ (Sched.task_at st t <> None -> failed_of st' t = true))).

(** The failure marks are those that were noted. *)
Definition failures_noted (st : Sched.state) : Prop :=
  forall t,
    (failed_of st t = true -> 0 < Sched.count (Sched.is_marked_failed t) st)
    /\ (0 < Sched.count (Sched.is_marked_failed t) st ->
        Sched.task_at st t <> None -> failed_of st t = true).

(** The entries are keys of tasks of [m], and those for task [t] all
    hold [key]. *)
Definition entries_agree (m : Maek.Maek) (t : nat) (key : JS.json)
    (l : JS.obj JS.json) : Prop :=
  forall k v, In (k, v) l ->
    exists t', JS.get (Maek.tasks m) k = Some t' /\ (t' = t -> v = key).

(** A requested target that [updateTargets] can deal with: it has a task
    or it is a file. *)
Definition requestable (m : Maek.Maek) (target : string) : Prop :=
  Maek.is_abstract target = true -> JS.get (Maek.tasks m) target <> None.

(** Between two moments, every start of task [t] came with a call of
    its [run]. *)
Definition runs_follow (t : nat) (st st' : Sched.state) : Prop :=
  Sched.launches t st' + Sched.runs t st <= Sched.runs t st' + Sched.launches t st.

(** A task that has no key is run as soon as it is started. *)
Definition starts_by_running (t : nat) (st st' : Sched.state) : Prop :=
  cachedKey_of st t = None -> runs_follow t st st'.

(** What holds between the events of an update of a configuration
    without cycle, for a task [t] whose key was not in the cache file. *)
Definition run_when_started (rank : nat -> nat) (key : nat -> option JS.json)
    (t : nat) (st : Sched.state) : Prop :=
  ranked (Sched.maek st) rank /\ once st /\ balanced st /\ keeps_loaded key st
  /\ Sched.launches t st <= Sched.runs t st.

(** *** Keys as the rules build them *)

(** A key is an array whose items are strings (the hashes) and arrays
    of strings (the commands). *)
Definition is_string (v : JS.json) : bool :=
  match v with JS.JStr _ => true | _ => false end.

Definition is_command (v : JS.json) : bool :=
  match v with JS.JArr l => forallb is_string l | _ => false end.

Definition is_key_part (v : JS.json) : bool := is_string v || is_command v.

Definition key_shaped (v : JS.json) : bool :=
  match v with JS.JArr l => forallb is_key_part l | _ => false end.

Definition all_ascii : list ascii := map ascii_of_nat (seq 0 256).

(** One of the two escapes starts the other. *)
Definition escapes_overlap (c c' : ascii) : bool :=
  String.prefix (JS.escape_char c) (JS.escape_char c')
  || String.prefix (JS.escape_char c') (JS.escape_char c).

(** The first character of a string, [default] for the empty string. *)
Definition first_char (default : ascii) (s : string) : ascii :=
  match s with
  | String c _ => c
  | EmptyString => default
  end.

(** What [JSON.stringify] writes after the opening bracket of an array,
    followed by [X]. *)
Fixpoint items (l : list JS.json) (X : string) : string :=
  match l with
  | [] => String "]" X
  | [a] => JS.JSON_stringify a +:+ String "]" X
  | a :: r => JS.JSON_stringify a +:+ String "," (items r X)
  end.

(** * Properties *)

(** ** The job pool *)

Section JobPool.
Import Jobs.
Variable cpus : nat.

Lemma remove_first_length j l :
  mem j l = true -> S (length (remove_first j l)) = length l.
Proof.
  induction l as [|k r IH]; simpl; [discriminate|].
  rewrite (Nat.eqb_sym j k).
  destruct (k =? j); simpl; [reflexivity|].
  intros H. rewrite IH by exact H. reflexivity.
Qed.

Lemma mem_nonempty j l : mem j l = true -> 0 < length l.
Proof. destruct l; simpl; [discriminate | lia]. Qed.

(** Every job counted in [active] is either running or has settled and
    waits for [schedule] to continue. *)
Lemma step_accounting p e p' :
  step cpus p e = Some p' ->
  length (running p) + length (settled p) = active p ->
  active p <= JOBS cpus ->
  length (running p') + length (settled p') = active p' /\ active p' <= JOBS cpus.
Proof.
  destruct e as [| |j|j]; simpl.
  - intros [= <-]; simpl. auto.
  - destruct (ticks p) as [|n]; [discriminate|].
    intros [= <-] Hacc Hle. unfold schedule; simpl.
    destruct (pending p) as [|next rest]; simpl; [auto|].
    destruct (Nat.ltb_spec (active p) (JOBS cpus)); simpl; [|auto].
    rewrite length_app; simpl. lia.
  - destruct (mem j (running p)) eqn:Hj; [|discriminate].
    intros [= <-] Hacc Hle; simpl.
    apply remove_first_length in Hj. rewrite length_app; simpl. lia.
  - destruct (mem j (settled p)) eqn:Hj; [|discriminate].
    intros [= <-] Hacc Hle; simpl.
    pose proof (mem_nonempty _ _ Hj).
    apply remove_first_length in Hj. lia.
Qed.

(** Jobs leave the queue in the order they entered it. *)
Lemma step_fifo p e p' :
  step cpus p e = Some p' ->
  started p ++ pending p = seq 0 (submitted p) ->
  started p' ++ pending p' = seq 0 (submitted p').
Proof.
  destruct e as [| |j|j]; simpl.
  - intros [= <-] H. unfold job; cbn [started pending submitted].
    rewrite seq_S, app_assoc, H. reflexivity.
  - destruct (ticks p) as [|n]; [discriminate|].
    intros [= <-] H. unfold schedule; simpl.
    destruct (pending p) as [|next rest] eqn:Hp; simpl; [exact H|].
    destruct (active p <? JOBS cpus); simpl.
    + rewrite <- app_assoc. exact H.
    + exact H.
  - destruct (mem j (running p)); [|discriminate]. intros [= <-] H; exact H.
  - destruct (mem j (settled p)); [|discriminate]. intros [= <-] H; exact H.
Qed.

Lemma pool_exec_invariant tr : forall p p',
  exec cpus p tr = Some p' ->
  length (running p) + length (settled p) = active p ->
  active p <= JOBS cpus ->
  started p ++ pending p = seq 0 (submitted p) ->
  (length (running p') + length (settled p') = active p' /\ active p' <= JOBS cpus)
  /\ started p' ++ pending p' = seq 0 (submitted p').
Proof.
  induction tr as [|e tr IH]; simpl; intros p p' Hexec Hacc Hle Hfifo.
  - injection Hexec as <-. auto.
  - destruct (step cpus p e) as [q|] eqn:Hstep; [|discriminate].
    destruct (step_accounting _ _ _ Hstep Hacc Hle) as [Hacc' Hle'].
    apply (IH q p' Hexec Hacc' Hle' (step_fifo _ _ _ Hstep Hfifo)).
Qed.

(** Only a tick of the event loop starts a job. *)
Lemma step_starts_on_tick p e p' :
  step cpus p e = Some p' -> started p' <> started p -> e = Tick.
Proof.
  destruct e as [| |j|j]; simpl; [|reflexivity| |].
  - intros [= <-]; simpl. congruence.
  - destruct (mem j (running p)); [|discriminate]. intros [= <-]; simpl. congruence.
  - destruct (mem j (settled p)); [|discriminate]. intros [= <-]; simpl. congruence.
Qed.

End JobPool.

(** C9.  In every state the pool can reach, at most
    [JOBS = cpus + 1] submitted functions are running; the jobs started so
    far followed by the queued ones are the submissions in order, so the
    queue is served first in, first out; a submission starts no job, and a
    job only ever starts on a later tick of the event loop. *)
Theorem job_pool_bounded_fifo_deferred (cpus : nat) (tr : list Jobs.event) (p : Jobs.pool) :
  Jobs.exec cpus Jobs.init tr = Some p ->
  length (Jobs.running p) <= cpus + 1
  /\ Jobs.started p ++ Jobs.pending p = seq 0 (Jobs.submitted p)
  /\ (Jobs.running (Jobs.job p) = Jobs.running p
      /\ Jobs.started (Jobs.job p) = Jobs.started p
      /\ Jobs.pending (Jobs.job p) = Jobs.pending p ++ [Jobs.submitted p])
  /\ (forall e p', Jobs.step cpus p e = Some p' ->
        Jobs.started p' <> Jobs.started p -> e = Jobs.Tick).
Proof.
  intros Hexec.
  destruct (pool_exec_invariant cpus tr Jobs.init p Hexec) as [[Hacc Hle] Hfifo];
    [reflexivity | unfold Jobs.JOBS; simpl; lia | reflexivity |].
  unfold Jobs.JOBS in Hle.
  repeat split; try assumption; try lia.
  intros e p'. apply step_starts_on_tick.
Qed.

(** With one processor the pool runs two jobs at a time: of three
    submissions the third waits until one of the first two has ended. *)
Lemma job_pool_bounded_fifo_deferred_witness :
  let tr := [Jobs.Submit; Jobs.Submit; Jobs.Submit; Jobs.Tick; Jobs.Tick; Jobs.Tick;
             Jobs.Settle 0; Jobs.Resume 0; Jobs.Tick] in
  exists p, Jobs.exec 1 Jobs.init tr = Some p
    /\ Jobs.running p = [1; 2]
    /\ length (Jobs.running p) <= 1 + 1
    /\ Jobs.started p ++ Jobs.pending p = seq 0 (Jobs.submitted p).
Proof.
  eexists. split; [reflexivity|]. split; [reflexivity|].
  pose proof (job_pool_bounded_fifo_deferred 1
    [Jobs.Submit; Jobs.Submit; Jobs.Submit; Jobs.Tick; Jobs.Tick; Jobs.Tick;
     Jobs.Settle 0; Jobs.Resume 0; Jobs.Tick] _ eq_refl) as (H1 & H2 & _).
  split; [exact H1 | exact H2].
Defined.

(** ** [loadDeps] *)

Section LoadDeps.
Import Maek.

Lemma loadDeps_unreadable depends : loadDeps depends None = [].
Proof. reflexivity. Qed.

Lemma get_set_same {A} (o : JS.obj A) k v : JS.get (JS.set o k v) k = Some v.
Proof.
  induction o as [|[k' v'] r IH]; simpl.
  - rewrite String.eqb_refl. reflexivity.
  - destruct (String.eqb k k') eqn:E; simpl; rewrite ?String.eqb_refl, ?E; auto.
Qed.

Lemma get_set_other {A} (o : JS.obj A) k k' v :
  k <> k' -> JS.get (JS.set o k v) k' = JS.get o k'.
Proof.
  intros Hne. induction o as [|[k0 v0] r IH]; simpl.
  - destruct (String.eqb_spec k' k); [congruence | reflexivity].
  - destruct (String.eqb_spec k k0) as [->|Hk]; simpl.
    + destruct (String.eqb_spec k' k0); [congruence | reflexivity].
    + destruct (String.eqb_spec k' k0); [reflexivity | exact IH].
Qed.

Lemma has_own_inDepends depends : forall k (o : JS.obj bool),
  JS.has_own (fold_left (fun o d => JS.set o d true) depends o) k
  = existsb (String.eqb k) depends || JS.has_own o k.
Proof.
  induction depends as [|d r IH]; intros k o; simpl; [reflexivity|].
  rewrite IH. unfold JS.has_own.
  destruct (String.eqb_spec k d) as [->|Hne]; simpl.
  - rewrite get_set_same. apply orb_true_r.
  - rewrite get_set_other by congruence. reflexivity.
Qed.

Lemma insert_sorted_In x y l : In y (JS.insert_sorted x l) <-> y = x \/ In y l.
Proof.
  induction l as [|z r IH]; simpl; [intuition congruence|].
  destruct (String.leb x z); simpl; [intuition congruence|].
  rewrite IH. intuition congruence.
Qed.

Lemma sort_In y l : In y (JS.sort l) <-> In y l.
Proof.
  induction l as [|x r IH]; simpl; [tauto|].
  rewrite insert_sorted_In, IH. intuition congruence.
Qed.

Lemma insert_sorted_perm x l : Permutation (x :: l) (JS.insert_sorted x l).
Proof.
  induction l as [|z r IH]; simpl; [reflexivity|].
  destruct (String.leb x z); [reflexivity|].
  rewrite perm_swap. constructor. exact IH.
Qed.

Lemma sort_perm l : Permutation l (JS.sort l).
Proof.
  induction l as [|x r IH]; simpl; [constructor|].
  rewrite <- insert_sorted_perm. constructor. exact IH.
Qed.

Lemma insert_sorted_sorted x l :
  Sorted (fun a b => String.leb a b = true) l ->
  Sorted (fun a b => String.leb a b = true) (JS.insert_sorted x l).
Proof.
  induction 1 as [|z r Hs IH Hhd]; simpl; [repeat constructor|].
  destruct (String.leb x z) eqn:E.
  - repeat constructor; assumption.
  - constructor; [exact IH|].
    assert (String.leb z x = true) as Hzx
      by (destruct (String.leb_total x z); congruence).
    destruct Hhd as [|w r' Hzw]; simpl; [repeat constructor; exact Hzx|].
    destruct (String.leb x w); constructor; assumption.
Qed.

Lemma sort_sorted l : Sorted (fun a b => String.leb a b = true) (JS.sort l).
Proof.
  induction l as [|x r IH]; simpl; [constructor|].
  apply insert_sorted_sorted, IH.
Qed.

Lemma skipn_In {A} n (l : list A) x : In x (skipn n l) -> In x l.
Proof.
  revert l; induction n as [|n IH]; intros [|y r]; simpl; auto.
Qed.

(** Away from the names of [Object.prototype], [loadDeps] returns exactly
    the sorted tokens that are not explicit dependencies. *)
Lemma loadDeps_without_inherited_names depends text :
  Forall (fun token => JS.inherited token = false) (tokens_of text) ->
  loadDeps depends (Some text)
  = List.filter (fun token => negb (existsb (String.eqb token) depends))
      (JS.sort (skipn 2 (tokens_of text))).
Proof.
  intros Hnames. unfold loadDeps.
  apply List.filter_ext_in. intros token Hin.
  apply sort_In, skipn_In in Hin.
  rewrite Forall_forall in Hnames. specialize (Hnames token).
  unfold JS.js_in, inDepends_of.
  rewrite has_own_inDepends, Hnames by (apply list_elem_of_In; exact Hin).
  simpl. rewrite !orb_false_r. reflexivity.
Qed.

End LoadDeps.

(** C6.  [loadDeps] leaves out a token that names a member of
    [Object.prototype], although the token is not an explicit dependency:
    the filter asks [target in inDepends], and [in] also answers for
    inherited members.  Here the dependency file of main.cpp lists the
    headers [constructor] and [util.h]; the sorted tokens after the
    sentinel are constructor, main.cpp, util.h, and only util.h is
    returned. *)
Theorem loadDeps_loses_inherited_name :
  let text := "x : main.cpp util.h constructor" +:+ JS.str JS.nl in
  JS.sort (skipn 2 (Maek.tokens_of text)) = ["constructor"; "main.cpp"; "util.h"]
  /\ ~ In "constructor" ["main.cpp"]
  /\ Maek.loadDeps ["main.cpp"] (Some text) = ["util.h"].
Proof.
  split; [reflexivity|]. split; [|reflexivity].
  simpl. intros [H|[]]. discriminate H.
Qed.

(** ** [assertNontargets] *)

Lemma assertNontargets_ignores_ruleName m prerequisites ruleName ruleName' :
  Maek.assertNontargets m prerequisites ruleName
  = Maek.assertNontargets m prerequisites ruleName'.
Proof. reflexivity. Qed.

Lemma includes_unfold needle hay :
  JS.includes needle hay
  = String.prefix needle hay
    || match hay with String _ r => JS.includes needle r | EmptyString => false end.
Proof. destruct hay; reflexivity. Qed.

Lemma prefix_append a b : String.prefix a (a +:+ b) = true.
Proof.
  induction a as [|c a IH]; simpl; [destruct b; reflexivity|].
  destruct (ascii_dec c c); [exact IH | congruence].
Qed.

Lemma includes_append_l a b : JS.includes a (a +:+ b) = true.
Proof. rewrite includes_unfold, prefix_append. reflexivity. Qed.

Lemma includes_append_r a b c :
  JS.includes a c = true -> JS.includes a (b +:+ c) = true.
Proof.
  intros H. induction b as [|x b IH]; [exact H|].
  rewrite includes_unfold. simpl. rewrite IH. apply orb_true_r.
Qed.

Lemma append_empty_r s : s +:+ EmptyString = s.
Proof.
  induction s as [|c s IH]; [reflexivity|].
  change (String c (s +:+ EmptyString) = String c s). rewrite IH. reflexivity.
Qed.

Lemma join_includes sep file : forall files,
  In file files -> JS.includes file (JS.join sep files) = true.
Proof.
  induction files as [|x r IH]; simpl; [tauto|].
  intros [->|Hin].
  - destruct r; [|apply includes_append_l].
    rewrite <- (append_empty_r file) at 2. apply includes_append_l.
  - destruct r as [|y r']; [destruct Hin|].
    apply includes_append_r, includes_append_r, IH, Hin.
Qed.

(** A dynamic dependency that is a registered target makes
    [assertNontargets] throw a BuildError that lists every such path. *)
Lemma assertNontargets_lists_targets m prerequisites ruleName target :
  In target prerequisites ->
  JS.has_own (Maek.tasks m) target = true ->
  exists message,
    Maek.assertNontargets m prerequisites ruleName = Maek.Throws (Maek.BuildError message)
    /\ forall file, In file prerequisites -> JS.has_own (Maek.tasks m) file = true ->
         JS.includes file message = true.
Proof.
  intros Hin Hown. unfold Maek.assertNontargets.
  set (errorFiles := List.filter _ prerequisites).
  assert (Hmem : forall file, In file prerequisites ->
            JS.has_own (Maek.tasks m) file = true -> In file errorFiles).
  { intros file H1 H2. apply List.filter_In. split; [exact H1|].
    unfold JS.js_in. rewrite H2. reflexivity. }
  destruct errorFiles as [|f fs] eqn:E.
  - destruct (Hmem target Hin Hown).
  - eexists. split; [reflexivity|].
    intros file H1 H2. specialize (Hmem file H1 H2).
    do 3 apply includes_append_r. apply join_includes. exact Hmem.
Qed.

(** C7.  The BuildError raised for a generated dependency lists the
    offending paths but does not name the rule: [assertNontargets] takes
    [ruleName] and never uses it.  Here gen.h is the target of a RULE and
    shows up among the dependencies that the compiler reports for
    main.cpp; the task [CPP objs/main.o] fails with a message that
    contains gen.h and not the task's label. *)
Theorem generated_dependency_message_lacks_rule_name :
  let m0 := Maek.RULE (Maek.new_Maek Maek.linux) ["gen.h"] [] [["make-header"]] in
  let text := "x : main.cpp util.h gen.h" +:+ JS.str JS.nl in
  exists m objFile task message,
    Maek.CPP Maek.linux m0 "main.cpp" "objs/main" Maek.no_options = Maek.Returns (m, objFile)
    /\ JS.get (Maek.tasks m) objFile = Some 1
    /\ Maek.heap m !! 1 = Some task
    /\ Maek.label task = "CPP objs/main.o"
    /\ Maek.checked_extraDepends m task ["main.cpp"] (Some text)
       = Maek.Throws (Maek.BuildError message)
    /\ JS.includes "gen.h" message = true
    /\ JS.includes (Maek.label task) message = false
    /\ JS.includes "CPP" message = false.
Proof.
  do 4 eexists. repeat split; vm_compute; reflexivity.
Qed.

(** ** [hashFiles] *)

Section HashFiles.
Import Maek.
Variable h : Hashes.
Variable files : gmap string string.

Let store (c : gmap string string) (file : string) : gmap string string :=
  match cached h file with
  | Some _ => c
  | None => <[file := digest_of files file]> c
  end.

Lemma hashFile_entry file :
  JS.inherited file = false -> entry_for h files file (hashFile h files file).
Proof.
  intros Hname. unfold hashFile, cached.
  destruct (hashCache h !! file) as [s|] eqn:Hc.
  - apply entry_memoised, Hc.
  - rewrite Hname. unfold digest_of.
    destruct (files !! file) as [data|] eqn:Hf.
    + apply entry_digest; assumption.
    + apply entry_unreadable; assumption.
Qed.

Lemma store_keeps_hits wanted file : forall c,
  cached h file <> None -> fold_left store wanted c !! file = c !! file.
Proof.
  induction wanted as [|w r IH]; intros c Hhit; simpl; [reflexivity|].
  rewrite IH by exact Hhit. unfold store.
  destruct (cached h w) eqn:Hw; [reflexivity|].
  apply lookup_insert_ne. congruence.
Qed.

Lemma store_keeps_digest wanted file : forall c,
  c !! file = Some (digest_of files file) ->
  fold_left store wanted c !! file = Some (digest_of files file).
Proof.
  induction wanted as [|w r IH]; intros c Hc; simpl; [exact Hc|].
  apply IH. unfold store. destruct (cached h w); [exact Hc|].
  destruct (decide (w = file)) as [->|Hne].
  - apply lookup_insert_eq.
  - rewrite lookup_insert_ne by exact Hne. exact Hc.
Qed.

Lemma store_adds_misses wanted file : forall c,
  In file wanted -> cached h file = None ->
  fold_left store wanted c !! file = Some (digest_of files file).
Proof.
  induction wanted as [|w r IH]; intros c Hin Hmiss; simpl; [destruct Hin|].
  destruct Hin as [->|Hin]; [|apply IH; assumption].
  apply store_keeps_digest. unfold store. rewrite Hmiss. apply lookup_insert_eq.
Qed.

Lemma hashFiles_order targets :
  Forall (fun target => JS.inherited target = false) targets ->
  Forall2 (entry_for h files) (concrete targets) (fst (hashFiles h files targets)).
Proof.
  intros Hnames. unfold hashFiles, concrete. simpl.
  induction targets as [|t r IH]; simpl; [constructor|].
  inversion Hnames as [|? ? Ht Hr]; subst.
  destruct (is_abstract t); simpl; [apply IH, Hr|].
  constructor; [apply hashFile_entry, Ht | apply IH, Hr].
Qed.

Lemma hashFiles_stores targets file :
  JS.inherited file = false ->
  In file (concrete targets) ->
  exists s, entry_for h files file (Hash s)
    /\ hashCache (snd (hashFiles h files targets)) !! file = Some s.
Proof.
  intros Hname Hin. unfold hashFiles. simpl.
  fold (concrete targets). change (fold_left _ (concrete targets) (hashCache h))
    with (fold_left store (concrete targets) (hashCache h)).
  pose proof (hashFile_entry file Hname) as Hentry.
  unfold hashFile in Hentry.
  destruct (cached h file) as [e|] eqn:Hc.
  - unfold cached in Hc. destruct (hashCache h !! file) as [s|] eqn:Hs.
    + injection Hc as <-. exists s. split; [exact Hentry|].
      rewrite store_keeps_hits; [exact Hs|].
      unfold cached. rewrite Hs. discriminate.
    + rewrite Hname in Hc. discriminate Hc.
  - eexists. split; [exact Hentry|]. apply store_adds_misses; assumption.
Qed.

End HashFiles.

(** C8, as the code has it.  For targets that are not names of
    [Object.prototype] members, [hashFiles] answers with one entry for
    each target that is not abstract, in the order given.  The entry of
    a path the hash cache already holds is the memoised string, whatever
    the file holds now; otherwise it is the path, a colon and the base64
    MD5 digest of the file's content, or the path and [:x] when the file
    cannot be read.  Afterwards the hash cache holds each entry under its
    path. *)
Theorem hashFiles_answers_from_hash_cache
    (h : Maek.Hashes) (files : gmap string string) (targets : list string) :
  Forall (fun target => JS.inherited target = false) targets ->
  Forall2 (entry_for h files) (concrete targets) (fst (Maek.hashFiles h files targets))
  /\ forall file, In file (concrete targets) ->
       exists s, entry_for h files file (Maek.Hash s)
         /\ Maek.hashCache (snd (Maek.hashFiles h files targets)) !! file = Some s.
Proof.
  intros Hnames. split; [apply hashFiles_order, Hnames|].
  intros file Hin. apply hashFiles_stores; [|exact Hin].
  rewrite Forall_forall in Hnames. apply Hnames.
  apply list_elem_of_In. unfold concrete in Hin.
  apply List.filter_In in Hin. apply Hin.
Qed.

Lemma hashFiles_answers_from_hash_cache_witness :
  let h := Maek.mkHashes (<["b.h" := "b.h:memo"]> ∅) 0 in
  let files : gmap string string := <["a.h" := "abc"]> (<["b.h" := "changed"]> ∅) in
  let targets := [":all"; "a.h"; "b.h"; "gone.h"] in
  fst (Maek.hashFiles h files targets)
  = [Maek.Hash "a.h:kAFQmDzST7DWlj99KOF/cg=="; Maek.Hash "b.h:memo"; Maek.Hash "gone.h:x"]
  /\ Forall2 (entry_for h files) (concrete targets) (fst (Maek.hashFiles h files targets)).
Proof.
  split; [vm_compute; reflexivity|].
  apply (hashFiles_answers_from_hash_cache _ _ [":all"; "a.h"; "b.h"; "gone.h"]).
  repeat constructor.
Defined.

(** C8 as stated fails on a memoised path: gen.h is hashed, its content
    changes (nothing invalidates the entry), and the second call still
    answers with the digest of the old content. *)
Lemma hashFiles_entry_can_be_stale :
  let before : gmap string string := <["gen.h" := "old"]> ∅ in
  let after : gmap string string := <["gen.h" := "new"]> ∅ in
  let h := snd (Maek.hashFiles (Maek.mkHashes ∅ 0) before ["gen.h"]) in
  fst (Maek.hashFiles h after ["gen.h"])
  = [Maek.Hash ("gen.h:" +:+ Digest.md5_base64 "old")]
  /\ fst (Maek.hashFiles h after ["gen.h"])
     <> [Maek.Hash ("gen.h:" +:+ Digest.md5_base64 "new")].
Proof.
  split; [vm_compute; reflexivity|].
  vm_compute. intros H. discriminate H.
Qed.

(** A path named like a member of [Object.prototype] is never hashed:
    [file in this.hashCache] holds from the start and the member itself
    is returned. *)
Example hashFiles_inherited_name :
  fst (Maek.hashFiles (Maek.mkHashes ∅ 0) ∅ ["toString"]) = [Maek.Builtin "toString"].
Proof. reflexivity. Qed.

(** ** The synchronous part of the scheduler's calls *)

Section Sync.
Import Maek Sched.

Lemma task_grows_refl k : task_grows k k.
Proof. unfold task_grows. tauto. Qed.

Lemma task_grows_trans a b c : task_grows a b -> task_grows b c -> task_grows a c.
Proof. unfold task_grows. intuition congruence. Qed.

Lemma heap_grows_refl (l : list Task) : Forall2 task_grows l l.
Proof. induction l; constructor; auto using task_grows_refl. Qed.

Lemma heap_grows_trans (a b c : list Task) :
  Forall2 task_grows a b -> Forall2 task_grows b c -> Forall2 task_grows a c.
Proof.
  intros H. revert c. induction H as [|x y l l' Hxy _ IH]; intros c Hc;
    inversion Hc; subst; constructor; eauto using task_grows_trans.
Qed.

Lemma heap_grows_alter (f : Task -> Task) t (l : list Task) :
  (forall k, task_grows k (f k)) -> Forall2 task_grows l (alter f t l).
Proof.
  intros Hf. revert t. induction l as [|k l IH]; intros [|t]; cbn;
    try constructor; auto using task_grows_refl, heap_grows_refl.
Qed.

Lemma sync_refl st : sync st st.
Proof.
  split; auto using heap_grows_refl.
  - exists []. rewrite app_nil_r. auto.
  - exists []. rewrite app_nil_r. auto.
  - exists []. rewrite app_nil_r. auto.
  - exists []. rewrite app_nil_r. auto.
Qed.

Lemma sync_trans a b c : sync a b -> sync b c -> sync a c.
Proof.
  intros [T1 H1 (h1 & N1 & F1) (c1 & C1 & G1) (p1 & P1) (x1 & X1) K1 D1]
         [T2 H2 (h2 & N2 & F2) (c2 & C2 & G2) (p2 & P2) (x2 & X2) K2 D2].
  split.
  - congruence.
  - eauto using heap_grows_trans.
  - exists (h1 ++ h2). rewrite N2, N1, app_assoc. split; [reflexivity|].
    apply Forall_app; auto.
  - exists (c1 ++ c2). rewrite C2, C1, app_assoc. split; [reflexivity|].
    apply Forall_app; auto.
  - exists (p1 ++ p2). rewrite P2, P1, app_assoc. reflexivity.
  - exists (x1 ++ x2). rewrite X2, X1, app_assoc. reflexivity.
  - congruence.
  - auto.
Qed.

Ltac same_lists :=
  repeat match goal with
  | |- exists l, ?x = ?x ++ l /\ _ => exists []; rewrite app_nil_r; split; [reflexivity|constructor]
  | |- exists l, ?x = ?x ++ l => exists []; rewrite app_nil_r; reflexivity
  | |- exists l, ?x ++ ?y = ?x ++ l /\ _ => exists y; split; [reflexivity|]
  | |- exists l, ?x ++ ?y = ?x ++ l => exists y; reflexivity
  end.

Lemma sync_record n st : prelude n -> sync st (record n st).
Proof.
  intros Hn. split; simpl; auto using heap_grows_refl; same_lists.
  repeat constructor. exact Hn.
Qed.

Lemma sync_new_promise o st : sync st (fst (new_promise o st)).
Proof. split; simpl; auto using heap_grows_refl; same_lists. Qed.

Lemma sync_suspend c st : opening c -> sync st (suspend c st).
Proof.
  intros Hc. split; simpl; auto using heap_grows_refl; same_lists.
  repeat constructor. exact Hc.
Qed.

Lemma sync_expect p st : sync st (expect p st).
Proof. split; simpl; auto using heap_grows_refl; same_lists. Qed.

Lemma sync_halt st : sync st (halt st).
Proof. split; simpl; auto using heap_grows_refl; same_lists. Qed.

Lemma sync_set_src t s st : sync st (modify_task t (set_src s) st).
Proof.
  split; simpl; auto; same_lists.
  apply heap_grows_alter. intros k. unfold task_grows; simpl. tauto.
Qed.

Lemma sync_set_pending t p st : sync st (modify_task t (set_pending p) st).
Proof.
  split; simpl; auto; same_lists.
  apply heap_grows_alter. intros k. unfold task_grows; simpl.
  repeat split; auto; discriminate.
Qed.

(** Settling the promise that the call itself has just made. *)
Lemma sync_settle_new o out st st' :
  sync (fst (new_promise o st)) st' ->
  sync st (settle (length (promises st)) out st').
Proof.
  intros [T H (h & N & F) (c & C & G) (ps & P) (x & X) K D]. simpl in *.
  unfold settle. rewrite P.
  rewrite <- app_assoc. simpl.
  rewrite list_lookup_middle by reflexivity.
  split; simpl; rewrite ?P, <- ?app_assoc; simpl; eauto.
  rewrite insert_app_r_alt, Nat.sub_diag by lia. simpl. eauto.
Qed.

Section WithStart.
Variable start : nat -> state -> state * nat.
Hypothesis start_sync : forall t st, sync st (fst (start t st)).

Lemma request_sync src targets : forall pending_ st,
  sync st (fst (request start src targets pending_ st)).
Proof.
  induction targets as [|target rest IH]; intros pending_ st; simpl.
  - apply sync_refl.
  - destruct (halted st); [apply sync_refl|].
    destruct (JS.index (tasks (maek st)) target) as [t| |].
    + destruct (task_at st t) as [task|]; [|apply sync_halt].
      destruct (pending task) as [p|]; [apply IH|].
      pose proof (start_sync t (modify_task t (set_src src) st)) as Hs.
      destruct (start t (modify_task t (set_src src) st)) as [st2 p]. simpl in Hs.
      eapply sync_trans; [|apply IH].
      eapply sync_trans; [apply sync_set_src|].
      eapply sync_trans; [exact Hs | apply sync_set_pending].
    + apply sync_halt.
    + destruct (is_abstract target); [apply sync_refl|].
      simpl. eapply sync_trans; [|apply IH].
      eapply sync_trans; [apply (sync_new_promise (of_access target src))|].
      apply sync_expect.
Qed.

Lemma updateTargets_sync targets src st :
  sync st (fst (updateTargets start targets src st)).
Proof.
  unfold updateTargets. simpl.
  pose proof (request_sync src targets []
                (fst (new_promise (of_updateTargets targets) st))) as Hr.
  simpl in Hr.
  destruct (request start src targets [] _) as [st2 [pending_|e]]; simpl in *.
  - eapply sync_trans; [apply (sync_new_promise (of_updateTargets targets))|].
    eapply sync_trans; [exact Hr|]. apply sync_suspend. exact I.
  - apply (sync_settle_new (of_updateTargets targets)). exact Hr.
Qed.

Lemma call_run_sync t task st : sync st (fst (call_run start t task st)).
Proof.
  unfold call_run. simpl.
  pose proof (updateTargets_sync (run_requests (run task)) (label task)
    (fst (new_promise (of_run t) (record (called_run t) st)))) as Hu.
  simpl in Hu.
  destruct (updateTargets start _ _ _) as [st2 u]. simpl in *.
  eapply sync_trans; [apply (sync_record (called_run t)); exact I|].
  eapply sync_trans; [apply (sync_new_promise (of_run t))|].
  eapply sync_trans; [exact Hu|]. apply sync_suspend. exact I.
Qed.

Lemma call_keyFn_sync t task k st : sync st (fst (call_keyFn start t task k st)).
Proof.
  unfold call_keyFn. simpl.
  pose proof (updateTargets_sync (key_requests k) (label task +:+ " (keyFn)")
    (fst (new_promise (of_keyFn t) (record (called_keyFn t) st)))) as Hu.
  simpl in Hu.
  destruct (updateTargets start _ _ _) as [st2 u]. simpl in *.
  eapply sync_trans; [apply (sync_record (called_keyFn t)); exact I|].
  eapply sync_trans; [apply (sync_new_promise (of_keyFn t))|].
  eapply sync_trans; [exact Hu|]. apply sync_suspend. exact I.
Qed.

End WithStart.

Lemma launch_sync stack : forall t st, sync st (fst (launch stack t st)).
Proof.
  induction stack as [|stack IH]; intros t st; simpl; [apply sync_halt|].
  destruct (task_at st t) as [task|]; [|apply sync_halt].
  destruct (cachedKey task) as [c|], (keyFn task) as [k|].
  1: {
    pose proof (call_keyFn_sync (launch stack) IH t task k
      (fst (new_promise (of_task t) (record (launched t) st)))) as Hc.
    simpl in Hc. destruct (call_keyFn _ _ _ _ _) as [st2 key]. simpl in *.
    eapply sync_trans; [apply (sync_record (launched t)); exact I|].
    eapply sync_trans; [apply (sync_new_promise (of_task t))|].
    eapply sync_trans; [exact Hc|]. apply sync_suspend. exact I. }
  all: pose proof (call_run_sync (launch stack) IH t task
      (fst (new_promise (of_task t) (record (launched t) st)))) as Hc;
    simpl in Hc; destruct (call_run _ _ _ _) as [st2 r]; simpl in *;
    (eapply sync_trans; [apply (sync_record (launched t)); exact I|]);
    (eapply sync_trans; [apply (sync_new_promise (of_task t))|]);
    (eapply sync_trans; [exact Hc|]); apply sync_suspend; exact I.
Qed.

End Sync.

(** ** Settling promises *)

Section Settle.
Import Maek Sched.

Lemma settle_maek p o st : maek (settle p o st) = maek st.
Proof. unfold settle. destruct (promises st !! p) as [[? []]|]; reflexivity. Qed.

Lemma settle_history p o st : history (settle p o st) = history st.
Proof. unfold settle. destruct (promises st !! p) as [[? []]|]; reflexivity. Qed.

Lemma settle_continuations p o st : continuations (settle p o st) = continuations st.
Proof. unfold settle. destruct (promises st !! p) as [[? []]|]; reflexivity. Qed.

Lemma settle_external p o st : external (settle p o st) = external st.
Proof. unfold settle. destruct (promises st !! p) as [[? []]|]; reflexivity. Qed.

Lemma settle_cache_file p o st : cache_file (settle p o st) = cache_file st.
Proof. unfold settle. destruct (promises st !! p) as [[? []]|]; reflexivity. Qed.

Lemma settle_halted p o st : halted (settle p o st) = halted st.
Proof. unfold settle. destruct (promises st !! p) as [[? []]|]; reflexivity. Qed.

Lemma settle_length p o st : length (promises (settle p o st)) = length (promises st).
Proof.
  unfold settle. destruct (promises st !! p) as [[? []]|]; try reflexivity.
  simpl. apply length_insert.
Qed.

Lemma settle_made_by p o st q :
  (made_by <$> promises (settle p o st) !! q) = (made_by <$> promises st !! q).
Proof.
  unfold settle. destruct (promises st !! p) as [[by_ []]|] eqn:E; try reflexivity.
  simpl. destruct (decide (p = q)) as [->|Hne].
  - rewrite list_lookup_insert_eq by (eapply lookup_lt_Some; exact E).
    rewrite E. reflexivity.
  - rewrite list_lookup_insert_ne by exact Hne. reflexivity.
Qed.

(** A settled promise keeps its outcome. *)
Lemma settle_keeps p o st q out :
  outcome_of st q = Some out -> outcome_of (settle p o st) q = Some out.
Proof.
  unfold outcome_of, settle. intros H.
  destruct (promises st !! p) as [[by_ []]|] eqn:E; try exact H.
  simpl. destruct (decide (p = q)) as [->|Hne].
  - rewrite E in H. discriminate H.
  - rewrite list_lookup_insert_ne by exact Hne. exact H.
Qed.

Lemma settle_other p o st q : p <> q -> outcome_of (settle p o st) q = outcome_of st q.
Proof.
  unfold outcome_of, settle. intros Hne.
  destruct (promises st !! p) as [[by_ []]|] eqn:E; try reflexivity.
  simpl. rewrite list_lookup_insert_ne by exact Hne. reflexivity.
Qed.

(** An unsettled promise takes the outcome it is given. *)
Lemma settle_unsettled p o st :
  p < length (promises st) -> outcome_of st p = None ->
  outcome_of (settle p o st) p = Some o.
Proof.
  unfold outcome_of, settle. intros Hlt H.
  destruct (promises st !! p) as [[by_ [out|]]|] eqn:E.
  - discriminate H.
  - simpl. rewrite list_lookup_insert_eq by exact Hlt. reflexivity.
  - apply lookup_ge_None in E. lia.
Qed.

End Settle.

(** ** The cache check of a started task *)

Section CacheCheck.
Import Maek Sched.

(** [task.keyFn()] notes the call, makes the promise of the key, and
    leaves nothing but what its prerequisites start. *)
Lemma call_keyFn_shape start t task k st :
  (forall t st, sync st (fst (start t st))) ->
  exists rest cs ps,
    let '(st', key) := call_keyFn start t task k st in
    history st' = history st ++ called_keyFn t :: rest
    /\ continuations st' = continuations st ++ cs
    /\ promises st' = promises st ++ mkPromise (of_keyFn t) None :: ps
    /\ key = length (promises st)
    /\ sync st st'.
Proof.
  intros Hstart. unfold call_keyFn. simpl.
  pose proof (updateTargets_sync start Hstart (key_requests k) (label task +:+ " (keyFn)")
    (fst (new_promise (of_keyFn t) (record (called_keyFn t) st)))) as Hu.
  pose proof (call_keyFn_sync start Hstart t task k st) as Hall.
  unfold call_keyFn in Hall. simpl in *.
  destruct (updateTargets start _ _ _) as [st2 u]. simpl in *.
  destruct Hu as [_ _ (h & Hh & _) (cs & Hc & _) (ps & Hp) _ _ _]. simpl in *.
  exists h, (cs ++ [mkContinuation await_prerequisites [u] (length (promises st))]), ps.
  rewrite Hh, Hc, Hp, <- !app_assoc. simpl.
  do 4 (split; [reflexivity|]). exact Hall.
Qed.

Lemma call_run_shape start t task st :
  (forall t st, sync st (fst (start t st))) ->
  exists rest cs ps,
    let '(st', r) := call_run start t task st in
    history st' = history st ++ called_run t :: rest
    /\ continuations st' = continuations st ++ cs
    /\ promises st' = promises st ++ mkPromise (of_run t) None :: ps
    /\ r = length (promises st)
    /\ sync st st'.
Proof.
  intros Hstart. unfold call_run. simpl.
  pose proof (updateTargets_sync start Hstart (run_requests (run task)) (label task)
    (fst (new_promise (of_run t) (record (called_run t) st)))) as Hu.
  pose proof (call_run_sync start Hstart t task st) as Hall.
  unfold call_run in Hall. simpl in *.
  destruct (updateTargets start _ _ _) as [st2 u]. simpl in *.
  destruct Hu as [_ _ (h & Hh & _) (cs & Hc & _) (ps & Hp) _ _ _]. simpl in *.
  exists h, (cs ++ [mkContinuation await_prerequisites [u] (length (promises st))]), ps.
  rewrite Hh, Hc, Hp, <- !app_assoc. simpl.
  do 4 (split; [reflexivity|]). exact Hall.
Qed.

Variable stack : nat.

(** Starting a task that has a key and a key function. *)
Lemma launch_checks_key t st task c kf :
  task_at st t = Some task -> cachedKey task = Some c -> keyFn task = Some kf ->
  exists rest cs ps,
    history (fst (launch (S stack) t st))
    = history st ++ launched t :: called_keyFn t :: rest
    /\ continuations (fst (launch (S stack) t st))
       = continuations st ++ cs
         ++ [mkContinuation (await_key t) [S (length (promises st))] (length (promises st))]
    /\ promises (fst (launch (S stack) t st))
       = promises st ++ mkPromise (of_task t) None :: mkPromise (of_keyFn t) None :: ps
    /\ snd (launch (S stack) t st) = length (promises st).
Proof.
  intros Ht Hc Hk. simpl. rewrite Ht, Hc, Hk.
  destruct (call_keyFn_shape (launch stack) t task kf
              (with_promises (promises st ++ [mkPromise (of_task t) None])
                 (record (launched t) st)) (launch_sync stack))
    as (rest & cs & ps & H).
  destruct (call_keyFn _ _ _ _ _) as [st' key]. simpl in *.
  destruct H as (Hh & Hcs & Hps & -> & _).
  exists rest, cs, ps. rewrite Hh, Hcs, Hps, <- !app_assoc, length_app. simpl.
  rewrite Nat.add_1_r. auto.
Qed.

Lemma resume_hit t st task c key me choice v :
  task_at st t = Some task -> cachedKey task = Some c ->
  outcome_of st key = Some (Fulfilled (Some v)) ->
  JS.JSON_stringify v = JS.JSON_stringify c ->
  resume stack (mkContinuation (await_key t) [key] me) choice st
  = Some (settle me (Fulfilled None) (record (skipped t) st)).
Proof.
  intros Ht Hc Ho Heq. unfold resume. simpl. rewrite Ho, Ht.
  unfold same_key. rewrite Hc, Heq, String.eqb_refl. reflexivity.
Qed.

Lemma resume_miss t st task c key me choice v :
  task_at st t = Some task -> cachedKey task = Some c ->
  outcome_of st key = Some (Fulfilled (Some v)) ->
  JS.JSON_stringify v <> JS.JSON_stringify c ->
  exists st' rest cs ps,
    resume stack (mkContinuation (await_key t) [key] me) choice st = Some st'
    /\ history st' = history st ++ called_run t :: rest
    /\ continuations st'
       = continuations st ++ cs ++ [mkContinuation (await_run t) [length (promises st)] me]
    /\ promises st' = promises st ++ mkPromise (of_run t) None :: ps.
Proof.
  intros Ht Hc Ho Hne. unfold resume. simpl. rewrite Ho, Ht.
  unfold same_key. rewrite Hc.
  destruct (String.eqb_spec (JS.JSON_stringify v) (JS.JSON_stringify c)) as [E|_];
    [contradiction|].
  destruct (call_run_shape (launch stack) t task st (launch_sync stack))
    as (rest & cs & ps & H).
  destruct (call_run _ _ _ _) as [st' r]. destruct H as (Hh & Hcs & Hps & -> & _).
  exists (suspend (mkContinuation (await_run t) [length (promises st)] me) st'), rest, cs, ps.
  simpl. rewrite Hh, Hcs, Hps, <- !app_assoc. auto.
Qed.

Lemma resume_after_run t st task kf r me choice v :
  task_at st t = Some task -> keyFn task = Some kf ->
  outcome_of st r = Some (Fulfilled v) ->
  exists st' rest cs ps,
    resume stack (mkContinuation (await_run t) [r] me) choice st = Some st'
    /\ history st' = history st ++ called_keyFn t :: rest
    /\ continuations st'
       = continuations st ++ cs ++ [mkContinuation (await_new_key t) [length (promises st)] me]
    /\ promises st' = promises st ++ mkPromise (of_keyFn t) None :: ps.
Proof.
  intros Ht Hk Ho. unfold resume. simpl. rewrite Ho, Ht, Hk.
  destruct (call_keyFn_shape (launch stack) t task kf st (launch_sync stack))
    as (rest & cs & ps & H).
  destruct (call_keyFn _ _ _ _ _) as [st' key]. destruct H as (Hh & Hcs & Hps & -> & _).
  exists (suspend (mkContinuation (await_new_key t) [length (promises st)] me) st'), rest, cs, ps.
  simpl. rewrite Hh, Hcs, Hps, <- !app_assoc. auto.
Qed.

Lemma resume_stores_key t st task key me choice v :
  task_at st t = Some task ->
  outcome_of st key = Some (Fulfilled v) ->
  exists st',
    resume stack (mkContinuation (await_new_key t) [key] me) choice st = Some st'
    /\ task_at st' t = Some (set_cachedKey v task)
    /\ history st' = history st ++ [stored_key t]
    /\ (me < length (promises st) -> outcome_of st me = None ->
        outcome_of st' me = Some (Fulfilled None)).
Proof.
  intros Ht Ho. unfold resume. simpl. rewrite Ho.
  eexists. split; [reflexivity|]. split; [|split].
  - unfold task_at. rewrite settle_maek. simpl.
    rewrite list_lookup_alter_eq. unfold task_at in Ht. rewrite Ht. reflexivity.
  - rewrite settle_history. reflexivity.
  - intros Hlt Hnone. apply settle_unsettled; assumption.
Qed.

End CacheCheck.

(** C1.  Let task [t] have a cached key [c] and a key function.  Starting
    it calls the key function first and waits for the key.  When the key
    [v] arrives: if [JSON.stringify v] equals [JSON.stringify c] the task
    ends there, with no call of [run]; otherwise [run] is called and
    awaited.  When [run] has succeeded the key function is called again,
    and the key it yields is stored as the task's [cachedKey]. *)
Theorem cache_hit_skips_and_miss_runs_then_stores
    (stack t : nat) (c : JS.json) (kf : Maek.key_fn) :
  (forall st task,
     Sched.task_at st t = Some task ->
     Maek.cachedKey task = Some c -> Maek.keyFn task = Some kf ->
     exists rest cs ps,
       Sched.history (fst (Sched.launch (S stack) t st))
       = Sched.history st ++ Sched.launched t :: Sched.called_keyFn t :: rest
       /\ Sched.continuations (fst (Sched.launch (S stack) t st))
          = Sched.continuations st ++ cs
            ++ [Sched.mkContinuation (Sched.await_key t)
                  [S (length (Sched.promises st))] (length (Sched.promises st))]
       /\ Sched.promises (fst (Sched.launch (S stack) t st))
          = Sched.promises st ++ Sched.mkPromise (Sched.of_task t) None
              :: Sched.mkPromise (Sched.of_keyFn t) None :: ps
       /\ snd (Sched.launch (S stack) t st) = length (Sched.promises st))
  /\ (forall st task key me choice v,
       Sched.task_at st t = Some task -> Maek.cachedKey task = Some c ->
       Sched.outcome_of st key = Some (Sched.Fulfilled (Some v)) ->
       JS.JSON_stringify v = JS.JSON_stringify c ->
       Sched.resume stack (Sched.mkContinuation (Sched.await_key t) [key] me) choice st
       = Some (Sched.settle me (Sched.Fulfilled None) (Sched.record (Sched.skipped t) st))
       /\ Sched.runs t (Sched.settle me (Sched.Fulfilled None)
                          (Sched.record (Sched.skipped t) st))
          = Sched.runs t st)
  /\ (forall st task key me choice v,
       Sched.task_at st t = Some task -> Maek.cachedKey task = Some c ->
       Sched.outcome_of st key = Some (Sched.Fulfilled (Some v)) ->
       JS.JSON_stringify v <> JS.JSON_stringify c ->
       exists st' rest cs ps,
         Sched.resume stack (Sched.mkContinuation (Sched.await_key t) [key] me) choice st
         = Some st'
         /\ Sched.history st' = Sched.history st ++ Sched.called_run t :: rest
         /\ Sched.continuations st'
            = Sched.continuations st ++ cs
              ++ [Sched.mkContinuation (Sched.await_run t) [length (Sched.promises st)] me]
         /\ Sched.promises st'
            = Sched.promises st ++ Sched.mkPromise (Sched.of_run t) None :: ps)
  /\ (forall st task r me choice v,
       Sched.task_at st t = Some task -> Maek.keyFn task = Some kf ->
       Sched.outcome_of st r = Some (Sched.Fulfilled v) ->
       exists st' rest cs ps,
         Sched.resume stack (Sched.mkContinuation (Sched.await_run t) [r] me) choice st
         = Some st'
         /\ Sched.history st' = Sched.history st ++ Sched.called_keyFn t :: rest
         /\ Sched.continuations st'
            = Sched.continuations st ++ cs
              ++ [Sched.mkContinuation (Sched.await_new_key t)
                    [length (Sched.promises st)] me]
         /\ Sched.promises st'
            = Sched.promises st ++ Sched.mkPromise (Sched.of_keyFn t) None :: ps)
  /\ (forall st task key me choice v,
       Sched.task_at st t = Some task ->
       Sched.outcome_of st key = Some (Sched.Fulfilled v) ->
       exists st',
         Sched.resume stack (Sched.mkContinuation (Sched.await_new_key t) [key] me) choice st
         = Some st'
         /\ Sched.task_at st' t = Some (Sched.set_cachedKey v task)
         /\ Sched.history st' = Sched.history st ++ [Sched.stored_key t]
         /\ (me < length (Sched.promises st) -> Sched.outcome_of st me = None ->
             Sched.outcome_of st' me = Some (Sched.Fulfilled None))).
Proof.
  split; [|split; [|split; [|split]]].
  - intros st task. apply launch_checks_key.
  - intros st task key me choice v Ht Hc Ho Heq.
    split; [eapply resume_hit; eassumption|].
    unfold Sched.runs, Sched.count. rewrite settle_history. simpl.
    rewrite List.filter_app, length_app. simpl. lia.
  - intros st task key me choice v. apply resume_miss.
  - intros st task r me choice v. apply resume_after_run.
  - intros st task key me choice v. apply resume_stores_key.
Qed.

(** The rule [out] with a cache entry: when the key function yields the
    cached key the task is skipped, and the whole update runs no
    command. *)
Lemma cache_hit_skips_and_miss_runs_then_stores_witness :
  let key := JS.JArr [JS.JArr [JS.JStr "cc"; JS.JStr "-o"; JS.JStr "out"]; JS.JStr "out:x"] in
  let st := after 8 single_rule single_cache
              [Sched.call_update ["out"]; Sched.continue 0 0; Sched.continue 0 0;
               Sched.key_done 3 (inl key)] in
  Sched.continuations st !! 0 = Some (Sched.mkContinuation (Sched.await_key 0) [3] 2)
  /\ Sched.resume 8 (Sched.mkContinuation (Sched.await_key 0) [3] 2) 0 st
     = Some (Sched.settle 2 (Sched.Fulfilled None) (Sched.record (Sched.skipped 0) st))
  /\ Sched.runs 0 (Sched.settle 2 (Sched.Fulfilled None) (Sched.record (Sched.skipped 0) st)) = 0
  /\ (exists st',
        Sched.exec 8 st [Sched.continue 0 0; Sched.continue 0 0; Sched.continue 0 0] = Some st'
        /\ Sched.history st'
           = [Sched.launched 0; Sched.called_keyFn 0; Sched.skipped 0; Sched.wrote_cache]).
Proof.
  intros key st.
  destruct (cache_hit_skips_and_miss_runs_then_stores 8 0 key
              (Maek.key_RULE ["out"] [] [["cc"; "-o"; "out"]])) as (_ & Hhit & _).
  split; [reflexivity|].
  destruct (Hhit st
              (Maek.mkTask (Maek.run_RULE ["out"] [] [["cc"; "-o"; "out"]])
                 (Some (Maek.key_RULE ["out"] [] [["cc"; "-o"; "out"]]))
                 "RULE out" (Some "user") (Some key) (Some 2) false)
              3 2 0 key eq_refl eq_refl eq_refl eq_refl) as [Hres Hruns].
  split; [exact Hres|]. split; [rewrite Hruns; reflexivity|].
  eexists. split; vm_compute; reflexivity.
Defined.

(** The same rule when the key has changed: [run] is called, and after
    it the new key is stored and written to the cache file. *)
Example cache_miss_runs_and_stores :
  let new := JS.JArr [JS.JArr [JS.JStr "cc"; JS.JStr "-o"; JS.JStr "out"]; JS.JStr "out:abc"] in
  let st := after 8 single_rule single_cache
              [Sched.call_update ["out"]; Sched.continue 0 0; Sched.continue 0 0;
               Sched.key_done 3 (inl (JS.JArr [JS.JStr "other"]));
               Sched.continue 0 0; Sched.continue 2 0; Sched.continue 2 0;
               Sched.run_done 5 None; Sched.continue 2 0; Sched.continue 2 0;
               Sched.continue 2 0; Sched.key_done 7 (inl new); Sched.continue 2 0;
               Sched.continue 0 0; Sched.continue 0 0] in
  Sched.history st
  = [Sched.launched 0; Sched.called_keyFn 0; Sched.called_run 0; Sched.called_keyFn 0;
     Sched.stored_key 0; Sched.wrote_cache]
  /\ Sched.cache_file st = Some [("out", new)].
Proof. split; vm_compute; reflexivity. Qed.

(** ** Events, case by case *)

Section Steps.
Import Maek Sched.
Variable stack : nat.

Lemma resume_resumed c choice st st' :
  resume stack c choice st = Some st' -> resumed stack c st st'.
Proof.
  destruct c as [pt aw me]. set (c := mkContinuation pt aw me).
  unfold resume. simpl.
  destruct pt as [t|t|t|targets| |].
  4: {
    destruct (forallb (is_fulfilled st) aw) eqn:Hall.
    - pose proof (resumed_walk stack c st targets eq_refl Hall) as Hw.
      simpl in Hw. destruct (lacking (maek st) targets); intros [= <-]; exact Hw.
    - destruct (aw !! choice) as [p|] eqn:Hp; [|discriminate].
      destruct (outcome_of st p) as [[v|e]|] eqn:Ho; try discriminate.
      intros [= <-]. apply (resumed_bail stack c st targets p e); auto.
      simpl. apply list_elem_of_In. eapply list_elem_of_lookup_2. exact Hp. }
  all: destruct aw as [|p [|]]; try discriminate;
       destruct (outcome_of st p) as [[v|e]|] eqn:Ho; try discriminate.
  - destruct (task_at st t) as [task|] eqn:Ht; [|discriminate].
    destruct (same_key v task) eqn:Hk.
    + intros [= <-]. apply (resumed_skip stack c st t p v task); auto.
    + destruct (call_run (launch stack) t task st) as [st1 r] eqn:E.
      intros [= <-].
      pose proof (resumed_run stack c st t p v task eq_refl eq_refl Ho Ht Hk) as Hr.
      rewrite E in Hr. exact Hr.
  - destruct e as [msg|msg]; intros [= <-];
      [apply (resumed_caught stack c st t p (BuildError msg))
      |apply (resumed_caught stack c st t p (Error msg))]; auto.
  - destruct (task_at st t) as [task|] eqn:Ht; [|discriminate].
    destruct (keyFn task) as [kf|] eqn:Hk.
    + destruct (call_keyFn (launch stack) t task kf st) as [st1 r] eqn:E.
      intros [= <-].
      pose proof (resumed_rekey stack c st t p v task kf eq_refl eq_refl Ho Ht Hk) as Hr.
      rewrite E in Hr. exact Hr.
    + intros [= <-]. apply (resumed_done stack c st t p v task); auto.
  - destruct e as [msg|msg]; intros [= <-];
      [apply (resumed_caught stack c st t p (BuildError msg))
      |apply (resumed_caught stack c st t p (Error msg))]; auto.
  - intros [= <-]. apply (resumed_store stack c st t p v); auto.
  - destruct e as [msg|msg]; intros [= <-];
      [apply (resumed_caught stack c st t p (BuildError msg))
      |apply (resumed_caught stack c st t p (Error msg))]; auto.
  - intros [= <-]. apply (resumed_work stack c st p v); auto.
  - destruct e as [msg|msg]; intros [= <-];
      [apply (resumed_pass stack c st p (BuildError msg))
      |apply (resumed_pass stack c st p (Error msg))]; auto.
  - intros [= <-]. apply (resumed_write stack c st p (Fulfilled v)); auto; discriminate.
  - destruct e as [msg|msg]; intros [= <-].
    + apply (resumed_write stack c st p (Rejected (BuildError msg))); auto; discriminate.
    + apply (resumed_abort stack c st p msg); auto.
Qed.

Lemma step_stepped st e st' :
  step stack st e = Some st' -> halted st = false /\ stepped stack st st'.
Proof.
  unfold step. destruct (halted st); [discriminate|]. intros H. split; [reflexivity|].
  destruct e as [targets|k choice|p ok|p e|p r].
  - injection H as <-. constructor.
  - destruct (continuations st !! k) as [c|] eqn:Hk; [|discriminate].
    eapply stepped_continue; [exact Hk|]. eapply resume_resumed; exact H.
  - destruct (is_external p st) eqn:Hx; [|discriminate].
    destruct (promises st !! p) as [[[] []]|] eqn:Hp; try discriminate.
    injection H as <-. eapply stepped_answer; eauto.
    destruct ok; constructor.
  - destruct (is_external p st) eqn:Hx; [|discriminate].
    destruct (promises st !! p) as [[[] []]|] eqn:Hp; try discriminate.
    injection H as <-. eapply stepped_answer; eauto.
    destruct e; constructor.
  - destruct (is_external p st) eqn:Hx; [|discriminate].
    destruct (promises st !! p) as [[[] []]|] eqn:Hp; try discriminate.
    injection H as <-. eapply stepped_answer; eauto.
    destruct r; constructor.
Qed.

(** An invariant of the events holds after every run of events. *)
Lemma exec_invariant (I : state -> Prop) :
  (forall st st', halted st = false -> stepped stack st st' -> I st -> I st') ->
  forall tr st st', exec stack st tr = Some st' -> I st -> I st'.
Proof.
  intros Hstep. induction tr as [|e tr IH]; simpl; intros st st' Hexec HI.
  - injection Hexec as <-. exact HI.
  - destruct (step stack st e) as [st1|] eqn:E; [|discriminate].
    apply step_stepped in E as [Hh Hs]. eauto.
Qed.

End Steps.

(** ** Accounting *)

Section Credit.
Import Maek Sched.

Lemma count_record P n st :
  count P (record n st) = count P st + (if P n then 1 else 0).
Proof.
  unfold count. simpl. rewrite List.filter_app, length_app. simpl.
  destruct (P n); reflexivity.
Qed.

Lemma waiting_suspend P c st :
  waiting P (suspend c st) = waiting P st + (if P (point c) then 1 else 0).
Proof.
  unfold waiting. simpl. rewrite List.filter_app, length_app. simpl.
  destruct (P (point c)); reflexivity.
Qed.

Lemma filter_delete {A} (P : A -> bool) (l : list A) k c :
  l !! k = Some c ->
  length (List.filter P l)
  = length (List.filter P (delete k l)) + (if P c then 1 else 0).
Proof.
  revert k. induction l as [|x l IH]; intros [|k] H; try discriminate.
  - injection H as ->. cbn. destruct (P c); simpl; lia.
  - cbn in H. specialize (IH k H).
    change (delete (S k) (x :: l)) with (x :: delete k l). simpl.
    destruct (P x); simpl; lia.
Qed.

Lemma waiting_delete P k c st :
  continuations st !! k = Some c ->
  waiting P st
  = waiting P (with_continuations (delete k (continuations st)) st)
    + (if P (point c) then 1 else 0).
Proof.
  intros H. unfold waiting. simpl.
  apply (filter_delete (fun c => P (point c)) _ _ _ H).
Qed.

Lemma credit_same t st st' :
  history st' = history st -> continuations st' = continuations st ->
  credit t st' = credit t st /\ credit_run t st' = credit_run t st.
Proof.
  intros Hh Hc.
  unfold credit, credit_run, launches, runs, count, waiting. rewrite Hh, Hc. auto.
Qed.

Lemma credit_record t n st :
  credit t (record n st) = (credit t st + note_credit t n)%Z
  /\ credit_run t (record n st) = (credit_run t st + note_credit_run t n)%Z.
Proof.
  unfold credit, credit_run, launches, runs, note_credit, note_credit_run, indicator.
  rewrite !count_record. unfold waiting. simpl.
  destruct (is_launched t n), (is_skipped t n), (is_stored_key t n),
    (is_marked_failed t n), (is_called_run t n); split; lia.
Qed.

Lemma credit_suspend t c st :
  credit t (suspend c st) = (credit t st - point_credit t (point c))%Z
  /\ credit_run t (suspend c st) = (credit_run t st - point_credit_run t (point c))%Z.
Proof.
  unfold credit, credit_run, launches, runs, point_credit, point_credit_run, indicator.
  rewrite !waiting_suspend. unfold count. simpl.
  destruct (at_key t (point c)), (at_run t (point c)), (at_new_key t (point c));
    split; lia.
Qed.

Lemma credit_delete t k c st :
  continuations st !! k = Some c ->
  credit t (with_continuations (delete k (continuations st)) st)
  = (credit t st + point_credit t (point c))%Z
  /\ credit_run t (with_continuations (delete k (continuations st)) st)
     = (credit_run t st + point_credit_run t (point c))%Z.
Proof.
  intros H.
  unfold credit, credit_run, launches, runs, point_credit, point_credit_run, indicator.
  rewrite (waiting_delete (at_key t) k c st H), (waiting_delete (at_run t) k c st H),
    (waiting_delete (at_new_key t) k c st H).
  unfold count. simpl.
  destruct (at_key t (point c)), (at_run t (point c)), (at_new_key t (point c));
    split; lia.
Qed.

Lemma keeps_credit_refl st : keeps_credit st st.
Proof. intros t. lia. Qed.

Lemma keeps_credit_trans a b c :
  keeps_credit a b -> keeps_credit b c -> keeps_credit a c.
Proof. intros H1 H2 t. specialize (H1 t). specialize (H2 t). lia. Qed.

Lemma keeps_credit_same st st' :
  history st' = history st -> continuations st' = continuations st ->
  keeps_credit st st'.
Proof.
  intros Hh Hc t. destruct (credit_same t st st' Hh Hc) as [-> ->]. lia.
Qed.

Lemma keeps_credit_settle p o st : keeps_credit st (settle p o st).
Proof. apply keeps_credit_same; [apply settle_history | apply settle_continuations]. Qed.

Section WithStart.
Variable start : nat -> state -> state * nat.
Hypothesis start_credit : forall t st, keeps_credit st (fst (start t st)).

Lemma request_credit src targets : forall pending_ st,
  keeps_credit st (fst (request start src targets pending_ st)).
Proof.
  induction targets as [|target rest IH]; intros pending_ st; simpl.
  - apply keeps_credit_refl.
  - destruct (halted st); [apply keeps_credit_refl|].
    destruct (JS.index (tasks (maek st)) target) as [t| |].
    + destruct (task_at st t) as [task|];
        [|apply keeps_credit_same; reflexivity].
      destruct (pending task) as [p|]; [apply IH|].
      pose proof (start_credit t (modify_task t (set_src src) st)) as Hs.
      destruct (start t (modify_task t (set_src src) st)) as [st2 p]. simpl in Hs.
      eapply keeps_credit_trans; [|apply IH].
      eapply keeps_credit_trans; [|apply keeps_credit_same; reflexivity].
      eapply keeps_credit_trans; [|exact Hs].
      apply keeps_credit_same; reflexivity.
    + apply keeps_credit_same; reflexivity.
    + destruct (is_abstract target); [apply keeps_credit_refl|].
      simpl. eapply keeps_credit_trans; [|apply IH].
      apply keeps_credit_same; reflexivity.
Qed.

Lemma updateTargets_credit targets src st :
  keeps_credit st (fst (updateTargets start targets src st)).
Proof.
  unfold updateTargets. simpl.
  pose proof (request_credit src targets []
                (fst (new_promise (of_updateTargets targets) st))) as Hr.
  simpl in Hr.
  destruct (request start src targets [] _) as [st2 [pending_|e]]; simpl in *.
  - intros t. specialize (Hr t).
    destruct (credit_suspend t (mkContinuation (await_all targets) pending_
                (length (promises st))) st2) as [-> ->].
    destruct (credit_same t st (with_promises
                (promises st ++ [mkPromise (of_updateTargets targets) None]) st)
                eq_refl eq_refl) as [E1 E2].
    rewrite E1, E2 in Hr. simpl. unfold point_credit, point_credit_run, indicator.
    simpl. lia.
  - eapply keeps_credit_trans; [|apply keeps_credit_settle].
    eapply keeps_credit_trans; [|exact Hr].
    apply keeps_credit_same; reflexivity.
Qed.

Lemma call_keyFn_credit t task k st :
  keeps_credit st (fst (call_keyFn start t task k st)).
Proof.
  unfold call_keyFn. simpl.
  pose proof (updateTargets_credit (key_requests k) (label task +:+ " (keyFn)")
    (fst (new_promise (of_keyFn t) (record (called_keyFn t) st)))) as Hu.
  simpl in Hu. destruct (updateTargets start _ _ _) as [st2 u]. simpl in *.
  intros t'. specialize (Hu t').
  destruct (credit_suspend t' (mkContinuation await_prerequisites [u]
              (length (promises st))) st2) as [-> ->].
  destruct (credit_same t' (record (called_keyFn t) st)
              (with_promises (promises st ++ [mkPromise (of_keyFn t) None])
                 (record (called_keyFn t) st)) eq_refl eq_refl) as [E1 E2].
  rewrite E1, E2 in Hu.
  destruct (credit_record t' (called_keyFn t) st) as [F1 F2]. rewrite F1, F2 in Hu.
  unfold note_credit, note_credit_run, point_credit, point_credit_run, indicator in *.
  simpl in *. lia.
Qed.

Lemma call_run_credit t task st :
  keeps_credit_but t st (fst (call_run start t task st)).
Proof.
  unfold call_run. simpl.
  pose proof (updateTargets_credit (run_requests (run task)) (label task)
    (fst (new_promise (of_run t) (record (called_run t) st)))) as Hu.
  simpl in Hu. destruct (updateTargets start _ _ _) as [st2 u]. simpl in *.
  intros t'. specialize (Hu t').
  destruct (credit_suspend t' (mkContinuation await_prerequisites [u]
              (length (promises st))) st2) as [-> ->].
  destruct (credit_same t' (record (called_run t) st)
              (with_promises (promises st ++ [mkPromise (of_run t) None])
                 (record (called_run t) st)) eq_refl eq_refl) as [E1 E2].
  rewrite E1, E2 in Hu.
  destruct (credit_record t' (called_run t) st) as [F1 F2]. rewrite F1, F2 in Hu.
  unfold note_credit, note_credit_run, point_credit, point_credit_run, indicator in *.
  simpl in *. destruct (t' =? t); lia.
Qed.

End WithStart.

Lemma launch_credit stack : forall t st, keeps_credit st (fst (launch stack t st)).
Proof.
  induction stack as [|stack IH]; intros t st; simpl;
    [apply keeps_credit_same; reflexivity|].
  destruct (task_at st t) as [task|]; [|apply keeps_credit_same; reflexivity].
  set (st1 := with_promises (promises st ++ [mkPromise (of_task t) None])
                (record (launched t) st)).
  assert (Hst1 : forall t', credit t' st1 = (credit t' st + indicator (Nat.eqb t' t))%Z
                   /\ credit_run t' st1 = (credit_run t' st + indicator (Nat.eqb t' t))%Z).
  { intros t'.
    destruct (credit_same t' (record (launched t) st) st1 eq_refl eq_refl) as [-> ->].
    destruct (credit_record t' (launched t) st) as [-> ->].
    unfold note_credit, note_credit_run, indicator. simpl. destruct (t' =? t); lia. }
  destruct (cachedKey task) as [c|], (keyFn task) as [k|].
  1: {
    pose proof (call_keyFn_credit (launch stack) IH t task k st1) as Hc.
    destruct (call_keyFn _ _ _ _ _) as [st2 key]. simpl in *.
    intros t'. specialize (Hc t'). destruct (Hst1 t') as [E1 E2]. rewrite E1, E2 in Hc.
    destruct (credit_suspend t' (mkContinuation (await_key t) [key]
                (length (promises st))) st2) as [-> ->].
    unfold point_credit, point_credit_run, indicator in *. simpl.
    destruct (t' =? t); lia. }
  all: pose proof (call_run_credit (launch stack) IH t task st1) as Hc;
    destruct (call_run _ _ _ _) as [st2 r]; simpl in *;
    intros t'; specialize (Hc t'); destruct (Hst1 t') as [E1 E2]; rewrite E1, E2 in Hc;
    destruct (credit_suspend t' (mkContinuation (await_run t) [r]
                (length (promises st))) st2) as [-> ->];
    unfold point_credit, point_credit_run, indicator in *; simpl;
    destruct (t' =? t); lia.
Qed.

End Credit.

Section StepCredit.
Import Maek Sched.
Variable stack : nat.

Ltac credit_of_settle t :=
  match goal with
  | |- context [credit t (settle ?p ?o ?x)] =>
      let E1 := fresh in let E2 := fresh in
      destruct (credit_same t x (settle p o x) (settle_history p o x)
                  (settle_continuations p o x)) as [E1 E2];
      rewrite E1, E2; clear E1 E2
  end.

Ltac credit_of_record t :=
  match goal with
  | |- context [credit t (record ?n ?x)] =>
      let E1 := fresh in let E2 := fresh in
      destruct (credit_record t n x) as [E1 E2]; rewrite E1, E2; clear E1 E2
  end.

Ltac credit_of_suspend t :=
  match goal with
  | |- context [credit t (suspend ?c ?x)] =>
      let E1 := fresh in let E2 := fresh in
      destruct (credit_suspend t c x) as [E1 E2]; rewrite E1, E2; clear E1 E2
  end.

Ltac credit_of_other t :=
  match goal with
  | |- context [credit t (?f ?x)] =>
      let E1 := fresh in let E2 := fresh in
      destruct (credit_same t x (f x) eq_refl eq_refl) as [E1 E2];
      rewrite E1, E2; clear E1 E2
  end.

Ltac credit_steps t :=
  repeat first [credit_of_settle t | credit_of_record t | credit_of_suspend t
               | credit_of_other t].

Ltac credit_arith :=
  unfold note_credit, note_credit_run, point_credit, point_credit_run, indicator in *;
  simpl in *;
  repeat match goal with
  | |- context [?a =? ?b] => destruct (a =? b)
  | H : context [?a =? ?b] |- _ => destruct (a =? b)
  end; lia.

Lemma resumed_credit k c st st' :
  continuations st !! k = Some c ->
  resumed stack c (with_continuations (delete k (continuations st)) st) st' ->
  keeps_credit st st'.
Proof.
  intros Hk Hres t'.
  destruct (credit_delete t' k c st Hk) as [D1 D2].
  set (st0 := with_continuations (delete k (continuations st)) st) in *.
  destruct Hres as [targets Hpt _|targets p e Hpt _ _ _|t p e Hpt _ _
                   |t p key task Hpt _ _ _ _|t p key task Hpt _ _ _ _
                   |t p v task kf Hpt _ _ _ _|t p v task Hpt _ _ _ _
                   |t p key Hpt _ _|p v Hpt _ _|p e Hpt _ _|p o Hpt _ _ _|p m Hpt _ _].
  - credit_steps t'. rewrite Hpt in *. credit_arith.
  - credit_steps t'. rewrite Hpt in *. credit_arith.
  - destruct e; unfold caught; credit_steps t';
      destruct (point c); try discriminate; injection Hpt as ->; credit_arith.
  - credit_steps t'. rewrite Hpt in *. credit_arith.
  - pose proof (call_run_credit (launch stack) (launch_credit stack) t task st0 t') as Hc.
    destruct (call_run (launch stack) t task st0) as [st1 r]. simpl in *.
    credit_steps t'. rewrite Hpt in *. credit_arith.
  - pose proof (call_keyFn_credit (launch stack) (launch_credit stack) t task kf st0 t') as Hc.
    destruct (call_keyFn (launch stack) t task kf st0) as [st1 r]. simpl in *.
    credit_steps t'. rewrite Hpt in *. credit_arith.
  - credit_steps t'. rewrite Hpt in *. credit_arith.
  - credit_steps t'. rewrite Hpt in *. credit_arith.
  - credit_steps t'. rewrite Hpt in *. credit_arith.
  - credit_steps t'. rewrite Hpt in *. credit_arith.
  - credit_steps t'. rewrite Hpt in *. credit_arith.
  - credit_steps t'. rewrite Hpt in *. credit_arith.
Qed.

Lemma reload_history st : history (reload st) = history st.
Proof.
  assert (Hc : forall l s, history (fold_left (fun s target =>
             match JS.get (tasks (maek s)) target with
             | Some t => modify_task t (set_cachedKey None) s
             | None => s
             end) l s) = history s).
  { induction l as [|x l IH]; intros s; simpl; [reflexivity|].
    rewrite IH. destruct (JS.get _ x); reflexivity. }
  assert (Hl : forall l s, history (load_keys l s) = history s).
  { unfold load_keys. induction l as [|x l IH]; intros s; simpl; [reflexivity|].
    rewrite IH. destruct (JS.index _ (fst x)); try reflexivity.
    destruct (String.eqb _ _); reflexivity. }
  unfold reload, clear_keys.
  destruct (cache_file _); rewrite ?Hl, Hc; reflexivity.
Qed.

Lemma reload_continuations st : continuations (reload st) = continuations st.
Proof.
  assert (Hc : forall l s, continuations (fold_left (fun s target =>
             match JS.get (tasks (maek s)) target with
             | Some t => modify_task t (set_cachedKey None) s
             | None => s
             end) l s) = continuations s).
  { induction l as [|x l IH]; intros s; simpl; [reflexivity|].
    rewrite IH. destruct (JS.get _ x); reflexivity. }
  assert (Hl : forall l s, continuations (load_keys l s) = continuations s).
  { unfold load_keys. induction l as [|x l IH]; intros s; simpl; [reflexivity|].
    rewrite IH. destruct (JS.index _ (fst x)); try reflexivity.
    destruct (String.eqb _ _); reflexivity. }
  unfold reload, clear_keys.
  destruct (cache_file _); rewrite ?Hl, Hc; reflexivity.
Qed.

Lemma update_credit targets st : keeps_credit st (update stack targets st).
Proof.
  unfold update. simpl.
  set (st0 := with_promises (promises st ++ [mkPromise of_update None]) st).
  pose proof (updateTargets_credit (launch stack) (launch_credit stack)
                targets "user" (reload st0)) as Hu.
  destruct (updateTargets (launch stack) targets "user" (reload st0)) as [st1 u].
  simpl in Hu. intros t. specialize (Hu t).
  destruct (credit_same t st (reload st0)) as [E1 E2];
    [rewrite reload_history; reflexivity | rewrite reload_continuations; reflexivity|].
  rewrite E1, E2 in Hu. credit_steps t. credit_arith.
Qed.

Lemma stepped_credit st st' : stepped stack st st' -> keeps_credit st st'.
Proof.
  intros [targets|k c st1 Hk Hres|p by_ o _ _ _].
  - apply update_credit.
  - eapply resumed_credit; eassumption.
  - unfold answered. eapply keeps_credit_trans; [|apply keeps_credit_settle].
    apply keeps_credit_same; reflexivity.
Qed.

(** Every started call of a task's async arrow is accounted for: it
    waits at one of its [await]s, or it ended, and it called [run] at
    most once. *)
Lemma exec_balanced tr : forall st st',
  exec stack st tr = Some st' -> balanced st -> balanced st'.
Proof.
  intros st st' Hexec. revert Hexec.
  apply (exec_invariant stack balanced).
  clear. intros st st' _ Hs Hb t.
  destruct (stepped_credit st st' Hs t), (Hb t). lia.
Qed.

Lemma init_balanced m cache : balanced (init m cache).
Proof.
  intros t. unfold credit, credit_run, launches, runs, count, waiting. simpl. lia.
Qed.

End StepCredit.

(** ** Without cycles a task is started once *)

Section Once.
Import Maek Sched.
Variable rank : nat -> nat.

Lemma starts_below_refl r st : starts_below rank r st st.
Proof. intros H. split; [exact H|]. split; [intros t _; auto | intros t p; auto]. Qed.

Lemma starts_below_trans r a b c :
  starts_below rank r a b -> starts_below rank r b c -> starts_below rank r a c.
Proof.
  intros H1 H2 Ha. destruct (H1 Ha) as (Hb & S1 & T1). destruct (H2 Hb) as (Hc & S2 & T2).
  split; [exact Hc|]. split.
  - intros t Ht. destruct (S1 t Ht), (S2 t Ht). split; congruence.
  - intros t p Hp. auto.
Qed.

Lemma same_marks_starts_below r st st' : same_marks st st' -> starts_below rank r st st'.
Proof.
  intros [HL HP] [H1 H2]. split; [split|split].
  - intros t. rewrite HL. apply H1.
  - intros t Hr Hn. rewrite HL. apply H2; [exact Hr|]. rewrite <- HP. exact Hn.
  - intros t _. auto.
  - intros t p Hp. rewrite HP. exact Hp.
Qed.

Lemma same_marks_once st st' : same_marks st st' -> once st -> once st'.
Proof.
  intros [HL HP] [H1 H2]. split.
  - intros t. rewrite HL. apply H1.
  - intros t Hn. rewrite HL. apply H2. rewrite <- HP. exact Hn.
Qed.

Lemma pending_of_modify t f st t' :
  (forall k, pending (f k) = pending k) ->
  pending_of (modify_task t f st) t' = pending_of st t'.
Proof.
  intros Hf. unfold pending_of, task_at. simpl.
  destruct (decide (t = t')) as [->|Hne].
  - rewrite list_lookup_alter_eq. destruct (heap (maek st) !! t'); simpl; auto.
  - rewrite list_lookup_alter_ne by exact Hne. reflexivity.
Qed.

Lemma pending_of_set_pending t p st t' :
  pending_of (modify_task t (set_pending p) st) t'
  = if decide (t = t')
    then match task_at st t with Some _ => Some p | None => None end
    else pending_of st t'.
Proof.
  unfold pending_of, task_at. simpl.
  destruct (decide (t = t')) as [->|Hne].
  - rewrite list_lookup_alter_eq. destruct (heap (maek st) !! t'); reflexivity.
  - rewrite list_lookup_alter_ne by exact Hne. reflexivity.
Qed.

Lemma same_marks_modify t f st :
  (forall k, pending (f k) = pending k) -> same_marks st (modify_task t f st).
Proof.
  intros Hf. split; [reflexivity|]. intros t'. apply pending_of_modify, Hf.
Qed.

Lemma same_marks_plain st st' :
  history st' = history st -> maek st' = maek st -> same_marks st st'.
Proof.
  intros Hh Hm. split; intros t.
  - unfold launches, count. rewrite Hh. reflexivity.
  - unfold pending_of, task_at. rewrite Hm. reflexivity.
Qed.

Lemma same_marks_trans a b c : same_marks a b -> same_marks b c -> same_marks a c.
Proof. intros [L1 P1] [L2 P2]. split; intros t; congruence. Qed.

Lemma same_marks_settle p o st : same_marks st (settle p o st).
Proof. apply same_marks_plain; [apply settle_history | apply settle_maek]. Qed.

Lemma same_marks_record n st :
  (forall t, is_launched t n = false) -> same_marks st (record n st).
Proof.
  intros Hn. split; [|reflexivity]. intros t.
  unfold launches. rewrite count_record, Hn. lia.
Qed.

(** Setting [pending] on a task that had none. *)
Lemma set_pending_starts_below r t p st :
  rank t < r -> pending_of st t = None ->
  starts_below rank r st (modify_task t (set_pending p) st).
Proof.
  intros Hr Hn [H1 H2]. split; [split|split].
  - exact H1.
  - intros t' Hr' Hn'. apply H2; [exact Hr'|].
    rewrite pending_of_set_pending in Hn'.
    destruct (decide (t = t')) as [->|]; [exact Hn | exact Hn'].
  - intros t' Hr'. split; [reflexivity|].
    rewrite pending_of_set_pending.
    destruct (decide (t = t')) as [->|]; [lia | reflexivity].
  - intros t' q Hq. rewrite pending_of_set_pending.
    destruct (decide (t = t')) as [->|]; [congruence | exact Hq].
Qed.

Section WithStart.
Variable start : nat -> state -> state * nat.
Variable r : nat.
Hypothesis start_sync : forall t st, sync st (fst (start t st)).
Hypothesis start_once : forall t st,
  ranked (maek st) rank -> rank t < r -> pending_of st t = None ->
  starts_below rank r st (modify_task t (set_pending (snd (start t st))) (fst (start t st))).

Lemma ranked_sync st st' : sync st st' -> ranked (maek st) rank -> ranked (maek st') rank.
Proof.
  intros [Ht Hh _ _ _ _ _ _] Hr t task' target t' Hlook Hin Hget.
  rewrite Ht in Hget.
  destruct (Forall2_lookup_r _ _ _ _ _ Hh Hlook) as (task & Hl & Hg).
  destruct Hg as (Hrun & Hkey & _).
  apply (Hr t task target t' Hl); [|exact Hget].
  unfold requests_of in *. rewrite <- Hrun, <- Hkey. exact Hin.
Qed.

Lemma request_once src targets : forall pending_ st,
  ranked (maek st) rank ->
  targets_below rank r (maek st) targets ->
  starts_below rank r st (fst (request start src targets pending_ st)).
Proof.
  induction targets as [|target rest IH]; intros pending_ st Hrk Hbelow; simpl.
  - apply starts_below_refl.
  - destruct (halted st); [apply starts_below_refl|].
    assert (Hrest : targets_below rank r (maek st) rest)
      by (intros x t Hx; apply Hbelow; right; exact Hx).
    unfold JS.index.
    destruct (JS.get (tasks (maek st)) target) as [t|] eqn:Hget.
    + destruct (task_at st t) as [task|] eqn:Htask;
        [|apply same_marks_starts_below, same_marks_plain; reflexivity].
      destruct (pending task) as [p|] eqn:Hp; [apply IH; assumption|].
      set (st1 := modify_task t (set_src src) st).
      assert (Hs1 : sync st st1) by apply sync_set_src.
      pose proof (start_sync t st1) as Hs2.
      pose proof (start_once t st1 (ranked_sync _ _ Hs1 Hrk)) as Ho.
      destruct (start t st1) as [st2 p]. simpl in *.
      assert (Hs3 : sync st (modify_task t (set_pending p) st2)).
      { eapply sync_trans; [exact Hs1|]. eapply sync_trans; [exact Hs2|].
        apply sync_set_pending. }
      eapply starts_below_trans; [|apply IH].
      * eapply starts_below_trans;
          [apply same_marks_starts_below, (same_marks_modify t (set_src src)); reflexivity|].
        apply Ho.
        -- apply (Hbelow target t); [left; reflexivity | exact Hget].
        -- unfold st1. rewrite pending_of_modify by reflexivity.
           unfold pending_of. rewrite Htask. exact Hp.
      * eapply ranked_sync; eassumption.
      * intros x t' Hx Hg. apply (Hrest x t' Hx).
        rewrite <- (sync_tasks _ _ Hs3). exact Hg.
    + destruct (JS.inherited target);
        [apply same_marks_starts_below, same_marks_plain; reflexivity|].
      destruct (is_abstract target); [apply starts_below_refl|].
      simpl. eapply starts_below_trans; [|apply IH].
      * apply same_marks_starts_below, same_marks_plain; reflexivity.
      * exact Hrk.
      * exact Hrest.
Qed.

Lemma updateTargets_once targets src st :
  ranked (maek st) rank ->
  targets_below rank r (maek st) targets ->
  starts_below rank r st (fst (updateTargets start targets src st)).
Proof.
  intros Hrk Hbelow. unfold updateTargets. simpl.
  pose proof (request_once src targets []
                (fst (new_promise (of_updateTargets targets) st)) Hrk Hbelow) as Hr.
  simpl in Hr.
  destruct (request start src targets [] _) as [st2 [pending_|e]]; simpl in *.
  - eapply starts_below_trans;
      [apply same_marks_starts_below, same_marks_plain; reflexivity|].
    eapply starts_below_trans; [exact Hr|].
    apply same_marks_starts_below, same_marks_plain; reflexivity.
  - eapply starts_below_trans;
      [apply same_marks_starts_below, same_marks_plain; reflexivity|].
    eapply starts_below_trans; [exact Hr|].
    apply same_marks_starts_below, same_marks_settle.
Qed.

Lemma call_run_once t task st :
  ranked (maek st) rank ->
  targets_below rank r (maek st) (run_requests (run task)) ->
  starts_below rank r st (fst (call_run start t task st)).
Proof.
  intros Hrk Hbelow. unfold call_run. simpl.
  pose proof (updateTargets_once (run_requests (run task)) (label task)
    (fst (new_promise (of_run t) (record (called_run t) st))) Hrk Hbelow) as Hu.
  simpl in Hu. destruct (updateTargets start _ _ _) as [st2 u]. simpl in *.
  eapply starts_below_trans;
    [apply same_marks_starts_below, (same_marks_record (called_run t)); reflexivity|].
  eapply starts_below_trans;
    [apply same_marks_starts_below, same_marks_plain; reflexivity|].
  eapply starts_below_trans; [exact Hu|].
  apply same_marks_starts_below, same_marks_plain; reflexivity.
Qed.

Lemma call_keyFn_once t task k st :
  ranked (maek st) rank ->
  targets_below rank r (maek st) (key_requests k) ->
  starts_below rank r st (fst (call_keyFn start t task k st)).
Proof.
  intros Hrk Hbelow. unfold call_keyFn. simpl.
  pose proof (updateTargets_once (key_requests k) (label task +:+ " (keyFn)")
    (fst (new_promise (of_keyFn t) (record (called_keyFn t) st))) Hrk Hbelow) as Hu.
  simpl in Hu. destruct (updateTargets start _ _ _) as [st2 u]. simpl in *.
  eapply starts_below_trans;
    [apply same_marks_starts_below, (same_marks_record (called_keyFn t)); reflexivity|].
  eapply starts_below_trans;
    [apply same_marks_starts_below, same_marks_plain; reflexivity|].
  eapply starts_below_trans; [exact Hu|].
  apply same_marks_starts_below, same_marks_plain; reflexivity.
Qed.

End WithStart.

Lemma sync_task_at st st' t task :
  sync st st' -> task_at st t = Some task -> exists task', task_at st' t = Some task'.
Proof.
  intros Hs Ht. destruct (Forall2_lookup_l _ _ _ _ _ (sync_heap _ _ Hs) Ht) as (k & Hk & _).
  exists k. exact Hk.
Qed.

(** The heart of the matter: while task [t] starts, everything it asks
    for has a lower rank, so nothing it starts is [t] or a task that was
    being started when [t] was asked for. *)
Lemma started_once r t p st st1 st2 st3 :
  rank t < r ->
  pending_of st t = None ->
  (forall t', launches t' st1 = launches t' st + (if t' =? t then 1 else 0)) ->
  (forall t', pending_of st1 t' = pending_of st t') ->
  starts_below rank (rank t) st1 st2 ->
  (forall t', launches t' st3 = launches t' st2) ->
  (forall t', pending_of st3 t' = if decide (t = t') then Some p else pending_of st2 t') ->
  starts_below rank r st st3.
Proof.
  intros Hr Hn HL HP Hnested ML MP' [H1 H2].
  assert (L0 : launches t st = 0) by (apply H2; assumption).
  destruct Hnested as ((B1 & B2) & Sa & St).
  { split.
    - intros t'. rewrite HL. destruct (Nat.eqb_spec t' t) as [->|]; [lia|].
      specialize (H1 t'). lia.
    - intros t' Hlt Hnone. rewrite HL.
      destruct (Nat.eqb_spec t' t) as [->|]; [lia|].
      rewrite H2; [lia | lia | rewrite <- HP; exact Hnone]. }
  split; [split|split].
  - intros t'. rewrite ML. apply B1.
  - intros t' Hlt Hnone. rewrite ML. rewrite MP' in Hnone.
    destruct (decide (t = t')) as [->|Hne]; [discriminate|].
    destruct (Nat.lt_ge_cases (rank t') (rank t)) as [Hlow|Hhigh].
    + apply B2; assumption.
    + destruct (Sa t' Hhigh) as [E1 E2]. rewrite E1, HL.
      destruct (Nat.eqb_spec t' t) as [->|]; [congruence|].
      rewrite H2; [lia | exact Hlt | rewrite <- HP, <- E2; exact Hnone].
  - intros t' Hhigh. assert (t <> t') by (intros ->; lia).
    destruct (Sa t') as [E1 E2]; [lia|].
    rewrite ML, MP', E1, E2, HL, HP.
    destruct (decide (t = t')); [contradiction|].
    destruct (Nat.eqb_spec t' t); [congruence|]. split; [lia | reflexivity].
  - intros t' q Hq. rewrite MP'.
    destruct (decide (t = t')) as [->|Hne]; [congruence|].
    apply St. rewrite HP. exact Hq.
Qed.

Lemma launch_once stack : forall r t st,
  ranked (maek st) rank -> rank t < r -> pending_of st t = None ->
  starts_below rank r st
    (modify_task t (set_pending (snd (launch stack t st))) (fst (launch stack t st))).
Proof.
  induction stack as [|stack IH]; intros r t st Hrk Hr Hn.
  - simpl. eapply starts_below_trans;
      [apply same_marks_starts_below, (same_marks_plain st (halt st)); reflexivity|].
    apply set_pending_starts_below; [exact Hr | exact Hn].
  - simpl. destruct (task_at st t) as [task|] eqn:Htask.
    2: { simpl. eapply starts_below_trans;
           [apply same_marks_starts_below, (same_marks_plain st (halt st)); reflexivity|].
         apply set_pending_starts_below; [exact Hr | exact Hn]. }
    set (st1 := with_promises (promises st ++ [mkPromise (of_task t) None])
                  (record (launched t) st)).
    assert (HL : forall t', launches t' st1 = launches t' st + (if t' =? t then 1 else 0)).
    { intros t'. unfold launches. change (count (is_launched t') st1)
        with (count (is_launched t') (record (launched t) st)).
      rewrite count_record. reflexivity. }
    assert (HP : forall t', pending_of st1 t' = pending_of st t') by reflexivity.
    assert (Hrk1 : ranked (maek st1) rank) by exact Hrk.
    assert (Hreq : targets_below rank (rank t) (maek st1) (requests_of task)).
    { intros target t' Hin Hget. apply (Hrk t task target t' Htask Hin Hget). }
    assert (Hs1 : sync st st1).
    { eapply sync_trans; [apply (sync_record (launched t)); exact I|].
      apply (sync_new_promise (of_task t)). }
    destruct (cachedKey task) as [c|], (keyFn task) as [k|] eqn:Hk.
    1: {
      pose proof (call_keyFn_once (launch stack) (rank t) (launch_sync stack)
                    (fun t' st' H => IH (rank t) t' st' H) t task k st1 Hrk1) as Hc.
      pose proof (call_keyFn_sync (launch stack) (launch_sync stack) t task k st1) as Hs2.
      destruct (call_keyFn (launch stack) t task k st1) as [st2 key]. simpl in *.
      eapply (started_once r t (length (promises st)) st st1 st2); eauto.
      - apply Hc. intros target t' Hin. apply Hreq. unfold requests_of.
        rewrite Hk. apply in_or_app. right. exact Hin.
      - intros t'. rewrite pending_of_set_pending.
        destruct (sync_task_at st st2 t task) as [task' Ht'];
          [eapply sync_trans; eassumption | exact Htask|].
        unfold task_at in *. simpl. rewrite Ht'. reflexivity. }
    all: pose proof (call_run_once (launch stack) (rank t) (launch_sync stack)
                    (fun t' st' H => IH (rank t) t' st' H) t task st1 Hrk1) as Hc;
      pose proof (call_run_sync (launch stack) (launch_sync stack) t task st1) as Hs2;
      destruct (call_run (launch stack) t task st1) as [st2 rp]; simpl in *;
      (eapply (started_once r t (length (promises st)) st st1 st2); eauto;
       [ apply Hc; intros target t' Hin; apply Hreq; unfold requests_of;
         apply in_or_app; left; exact Hin
       | intros t'; rewrite pending_of_set_pending;
         destruct (sync_task_at st st2 t task) as [task' Ht'];
           [eapply sync_trans; eassumption | exact Htask|];
         unfold task_at in *; simpl; rewrite Ht'; reflexivity ]).
Qed.

End Once.

(** ** The configuration does not change along a run *)

Section Evolves.
Import Maek Sched.

Lemma task_evolves_refl k : task_evolves k k.
Proof. unfold task_evolves. tauto. Qed.

Lemma evolves_refl st : evolves st st.
Proof.
  split; [reflexivity|].
  induction (heap (maek st)); constructor; auto using task_evolves_refl.
Qed.

Lemma evolves_trans a b c : evolves a b -> evolves b c -> evolves a c.
Proof.
  intros [T1 H1] [T2 H2]. split; [congruence|].
  revert H2. generalize (heap (maek c)). induction H1 as [|x y l l' Hxy _ IH];
    intros l2 H2; inversion H2; subst; constructor; auto.
  unfold task_evolves in *. intuition congruence.
Qed.

Lemma evolves_plain st st' : maek st' = maek st -> evolves st st'.
Proof. intros H. unfold evolves. rewrite H. apply evolves_refl. Qed.

Lemma Forall2_alter_refl {A} (R : A -> A -> Prop) (f : A -> A) t (l : list A) :
  (forall k, R k k) -> (forall k, R k (f k)) -> Forall2 R l (alter f t l).
Proof.
  intros Hr Hf. revert t. induction l as [|k l IH]; intros [|t]; cbn;
    try constructor; auto.
  clear -Hr. induction l; constructor; auto.
Qed.

Lemma evolves_modify t f st :
  (forall k, task_evolves k (f k)) -> evolves st (modify_task t f st).
Proof.
  intros Hf. split; [reflexivity|]. simpl.
  apply Forall2_alter_refl; [apply task_evolves_refl | exact Hf].
Qed.

Lemma sync_evolves st st' : sync st st' -> evolves st st'.
Proof.
  intros [T H _ _ _ _ _ _]. split; [exact T|].
  induction H as [|x y l l' Hxy _ IH]; constructor; auto.
  unfold task_grows, task_evolves in *. tauto.
Qed.

Lemma evolves_settle p o st : evolves st (settle p o st).
Proof. apply evolves_plain, settle_maek. Qed.

Lemma set_cachedKey_evolves c k : task_evolves k (set_cachedKey c k).
Proof. unfold task_evolves. simpl. tauto. Qed.

Lemma set_failed_evolves k : task_evolves k (set_failed k).
Proof. unfold task_evolves. simpl. tauto. Qed.

Lemma clear_keys_evolves st : evolves st (clear_keys st).
Proof.
  unfold clear_keys. generalize (JS.keys (tasks (maek st))). intros l. revert st.
  induction l as [|x l IH]; intros st; simpl; [apply evolves_refl|].
  eapply evolves_trans; [|apply IH].
  destruct (JS.get _ x); [|apply evolves_refl].
  apply evolves_modify, set_cachedKey_evolves.
Qed.

Lemma load_keys_evolves cache : forall st, evolves st (load_keys cache st).
Proof.
  unfold load_keys. induction cache as [|x l IH]; intros st; simpl; [apply evolves_refl|].
  eapply evolves_trans; [|apply IH].
  destruct (JS.index _ (fst x)); [|destruct (String.eqb _ _)|]; try apply evolves_refl.
  - apply evolves_modify, set_cachedKey_evolves.
  - apply evolves_plain. reflexivity.
Qed.

Lemma reload_evolves st : evolves st (reload st).
Proof.
  unfold reload. destruct (cache_file (clear_keys st)).
  - eapply evolves_trans; [apply clear_keys_evolves | apply load_keys_evolves].
  - apply clear_keys_evolves.
Qed.

Variable stack : nat.

Lemma update_evolves targets st : evolves st (update stack targets st).
Proof.
  unfold update. simpl.
  set (st0 := with_promises (promises st ++ [mkPromise of_update None]) st).
  pose proof (updateTargets_sync (launch stack) (launch_sync stack)
                targets "user" (reload st0)) as Hu.
  destruct (updateTargets (launch stack) targets "user" (reload st0)) as [st1 u].
  simpl in Hu.
  eapply evolves_trans; [apply (evolves_plain st st0); reflexivity|].
  eapply evolves_trans; [apply reload_evolves|].
  eapply evolves_trans; [apply sync_evolves; exact Hu|].
  apply evolves_plain. reflexivity.
Qed.

Lemma resumed_evolves c st st' : resumed stack c st st' -> evolves st st'.
Proof.
  intros [targets _ _|targets p e _ _ _ _|t p e _ _ _
         |t p key task _ _ _ _ _|t p key task _ _ _ _ _
         |t p v task kf _ _ _ _ _|t p v task _ _ _ _ _
         |t p key _ _ _|p v _ _ _|p e _ _ _|p o _ _ _ _|p m _ _ _];
    try apply evolves_settle; try (apply evolves_plain; reflexivity).
  - destruct e; unfold caught; [|apply evolves_settle].
    eapply evolves_trans; [|apply evolves_settle].
    eapply evolves_trans; [apply evolves_modify, set_failed_evolves|].
    apply evolves_plain. reflexivity.
  - eapply evolves_trans; [|apply evolves_settle]. apply evolves_plain. reflexivity.
  - apply (evolves_trans _ (fst (call_run (launch stack) t task st)));
      [|apply evolves_plain; reflexivity].
    apply sync_evolves, call_run_sync, launch_sync.
  - apply (evolves_trans _ (fst (call_keyFn (launch stack) t task kf st)));
      [|apply evolves_plain; reflexivity].
    apply sync_evolves, call_keyFn_sync, launch_sync.
  - eapply evolves_trans; [|apply evolves_settle].
    eapply evolves_trans; [apply evolves_modify, set_cachedKey_evolves|].
    apply evolves_plain. reflexivity.
  - eapply evolves_trans; [|apply evolves_settle]. apply evolves_plain. reflexivity.
Qed.

Lemma stepped_evolves st st' : stepped stack st st' -> evolves st st'.
Proof.
  intros [targets|k c st1 Hk Hres|p by_ o _ _ _].
  - apply update_evolves.
  - eapply evolves_trans; [|eapply resumed_evolves; exact Hres].
    apply evolves_plain. reflexivity.
  - unfold answered. eapply evolves_trans; [|apply evolves_settle].
    apply evolves_plain. reflexivity.
Qed.

Lemma exec_evolves tr : forall st st', exec stack st tr = Some st' -> evolves st st'.
Proof.
  induction tr as [|e tr IH]; simpl; intros st st' H.
  - injection H as <-. apply evolves_refl.
  - destruct (step stack st e) as [st1|] eqn:E; [|discriminate].
    apply step_stepped in E as [_ Hs].
    eapply evolves_trans; [apply stepped_evolves; exact Hs | apply IH; exact H].
Qed.

Lemma ranked_evolves rank st st' :
  evolves st st' -> ranked (maek st) rank -> ranked (maek st') rank.
Proof.
  intros [Ht Hh] Hr t task' target t' Hlook Hin Hget.
  rewrite Ht in Hget.
  destruct (Forall2_lookup_r _ _ _ _ _ Hh Hlook) as (task & Hl & Hg).
  destruct Hg as (Hrun & Hkey & _).
  apply (Hr t task target t' Hl); [|exact Hget].
  unfold requests_of in *. rewrite <- Hrun, <- Hkey. exact Hin.
Qed.

(** [pending], once set, is never cleared. *)
Lemma evolves_pending st st' t :
  evolves st st' -> pending_of st t <> None -> pending_of st' t <> None.
Proof.
  intros [_ Hh] Hp. unfold pending_of, task_at in *.
  destruct (heap (maek st) !! t) as [k|] eqn:Hk; [|congruence].
  destruct (Forall2_lookup_l _ _ _ _ _ Hh Hk) as (k' & Hk' & Hg).
  rewrite Hk'. apply Hg, Hp.
Qed.

End Evolves.

(** ** Events of an acyclic configuration *)

Section OnceSteps.
Import Maek Sched.

Lemma same_but_key_refl k : same_but_key k k.
Proof. unfold same_but_key. tauto. Qed.

Lemma same_but_key_trans a b c : same_but_key a b -> same_but_key b c -> same_but_key a c.
Proof. unfold same_but_key. intuition congruence. Qed.

Lemma Forall2_trans_rel {A} (R : A -> A -> Prop) :
  (forall a b c, R a b -> R b c -> R a c) ->
  forall l1 l2 l3 : list A, Forall2 R l1 l2 -> Forall2 R l2 l3 -> Forall2 R l1 l3.
Proof.
  intros Ht l1 l2 l3 H. revert l3. induction H as [|x y l l' Hxy _ IH]; intros l3 H3;
    inversion H3; subst; constructor; eauto.
Qed.

Lemma Forall2_same {A} (R : A -> A -> Prop) (l : list A) :
  (forall a, R a a) -> Forall2 R l l.
Proof. intros Hr. induction l; constructor; auto. Qed.

Lemma clear_keys_heap st :
  Forall2 same_but_key (heap (maek st)) (heap (maek (clear_keys st)))
  /\ tasks (maek (clear_keys st)) = tasks (maek st).
Proof.
  unfold clear_keys. generalize (JS.keys (tasks (maek st))). intros l. revert st.
  induction l as [|x l IH]; intros st; simpl.
  - split; [apply Forall2_same, same_but_key_refl | reflexivity].
  - destruct (JS.get (tasks (maek st)) x) as [t|]; [|apply IH].
    destruct (IH (modify_task t (set_cachedKey None) st)) as [H1 H2].
    split; [|rewrite H2; reflexivity].
    eapply (Forall2_trans_rel _ same_but_key_trans); [|exact H1]. simpl.
    apply Forall2_alter_refl; [apply same_but_key_refl|].
    intros k. unfold same_but_key. simpl. tauto.
Qed.

Lemma load_keys_heap cache : forall st,
  Forall2 same_but_key (heap (maek st)) (heap (maek (load_keys cache st)))
  /\ tasks (maek (load_keys cache st)) = tasks (maek st).
Proof.
  unfold load_keys. induction cache as [|x l IH]; intros st; simpl.
  - split; [apply Forall2_same, same_but_key_refl | reflexivity].
  - destruct (JS.index (tasks (maek st)) (fst x)) as [t| |]; [| |apply IH].
    + destruct (IH (modify_task t (set_cachedKey (Some (snd x))) st)) as [H1 H2].
      split; [|rewrite H2; reflexivity].
      eapply (Forall2_trans_rel _ same_but_key_trans); [|exact H1]. simpl.
      apply Forall2_alter_refl; [apply same_but_key_refl|].
      intros k. unfold same_but_key. simpl. tauto.
    + destruct (String.eqb (fst x) "__proto__"); [|apply IH].
      destruct (IH (halt st)) as [H1 H2]. split; [exact H1 | rewrite H2; reflexivity].
Qed.

Lemma reload_heap st :
  Forall2 same_but_key (heap (maek st)) (heap (maek (reload st)))
  /\ tasks (maek (reload st)) = tasks (maek st).
Proof.
  unfold reload. destruct (clear_keys_heap st) as [C1 C2].
  destruct (cache_file (clear_keys st)) as [cache|]; [|auto].
  destruct (load_keys_heap cache (clear_keys st)) as [L1 L2].
  split; [|congruence].
  eapply (Forall2_trans_rel _ same_but_key_trans); eassumption.
Qed.

Lemma reload_pending st t : pending_of (reload st) t = pending_of st t.
Proof.
  destruct (reload_heap st) as [H _]. unfold pending_of, task_at.
  destruct (heap (maek st) !! t) as [k|] eqn:Hk.
  - destruct (Forall2_lookup_l _ _ _ _ _ H Hk) as (k' & -> & Hg). apply Hg.
  - destruct (heap (maek (reload st)) !! t) as [k'|] eqn:Hk'; [|reflexivity].
    destruct (Forall2_lookup_r _ _ _ _ _ H Hk') as (k & Hk2 & _). congruence.
Qed.

Lemma reload_same_marks st : same_marks st (reload st).
Proof.
  split; intros t; [|apply reload_pending].
  unfold launches, count. rewrite reload_history. reflexivity.
Qed.

Lemma get_In {A} (o : JS.obj A) k v : JS.get o k = Some v -> In (k, v) o.
Proof.
  induction o as [|[k' v'] o IH]; simpl; [discriminate|].
  destruct (String.eqb_spec k k') as [->|]; [intros [= ->]; auto | auto].
Qed.

Variable rank : nat -> nat.

Lemma get_below_top m target t : JS.get (tasks m) target = Some t -> rank t < top rank m.
Proof.
  intros H. apply get_In in H. unfold top.
  assert (Hle : Forall (fun n => n <= list_max (map (fun kv => rank (snd kv)) (tasks m)))
                  (map (fun kv => rank (snd kv)) (tasks m)))
    by (apply List.list_max_le; lia).
  rewrite Forall_forall in Hle.
  specialize (Hle (rank t)). apply Nat.lt_succ_r, Hle.
  apply list_elem_of_In. apply (in_map (fun kv => rank (snd kv)) _ _ H).
Qed.

Lemma once_below_of_once r st : once st -> once_below rank r st.
Proof. intros [H1 H2]. split; auto. Qed.

Lemma once_lift r st st' :
  once st -> once_below rank r st' -> same_above rank r st st' -> once st'.
Proof.
  intros [H1 H2] [B1 B2] Sa. split; [exact B1|].
  intros t Hn. destruct (Nat.lt_ge_cases (rank t) r) as [Hlow|Hhigh].
  - apply B2; assumption.
  - destruct (Sa t Hhigh) as [E1 E2]. rewrite E1. apply H2. rewrite <- E2. exact Hn.
Qed.

Lemma same_marks_stable st st' : same_marks st st' -> stable st st'.
Proof. intros [_ HP] t p Hp. rewrite HP. exact Hp. Qed.

Lemma stable_trans a b c : stable a b -> stable b c -> stable a c.
Proof. intros H1 H2 t p Hp. auto. Qed.

Lemma starts_below_once r st st' :
  starts_below rank r st st' -> once st -> once st' /\ stable st st'.
Proof.
  intros H Ho. destruct (H (once_below_of_once r st Ho)) as (Hb & Sa & St).
  split; [eapply once_lift; eassumption | exact St].
Qed.

Lemma same_marks_once_stable st st' :
  same_marks st st' -> once st -> once st' /\ stable st st'.
Proof.
  intros H Ho. split; [eapply same_marks_once; eassumption | apply same_marks_stable, H].
Qed.

Variable stack : nat.

Lemma update_once targets st :
  ranked (maek st) rank -> once st ->
  once (update stack targets st) /\ stable st (update stack targets st).
Proof.
  intros Hrk Ho. unfold update. simpl.
  set (st0 := with_promises (promises st ++ [mkPromise of_update None]) st).
  assert (M0 : same_marks st (reload st0)).
  { eapply same_marks_trans; [|apply reload_same_marks].
    apply same_marks_plain; reflexivity. }
  assert (Hrk0 : ranked (maek (reload st0)) rank).
  { eapply ranked_evolves; [|exact Hrk].
    eapply evolves_trans; [apply (evolves_plain st st0); reflexivity|].
    apply reload_evolves. }
  pose proof (updateTargets_once rank (launch stack) (top rank (maek (reload st0)))
                (launch_sync stack)
                (fun t s H => launch_once rank stack _ t s H)
                targets "user" (reload st0) Hrk0) as Hu.
  destruct (updateTargets (launch stack) targets "user" (reload st0)) as [st1 u].
  simpl in Hu.
  destruct (same_marks_once_stable _ _ M0 Ho) as [O0 S0].
  destruct (starts_below_once _ _ _
              (Hu (fun target t _ Hg => get_below_top _ target t Hg)) O0) as [O1 S1].
  split.
  - eapply same_marks_once; [|exact O1]. apply same_marks_plain; reflexivity.
  - eapply stable_trans; [exact S0|]. eapply stable_trans; [exact S1|].
    apply same_marks_stable, same_marks_plain; reflexivity.
Qed.

Lemma resumed_once c st st' :
  ranked (maek st) rank -> resumed stack c st st' -> once st ->
  once st' /\ stable st st'.
Proof.
  intros Hrk Hres Ho.
  destruct Hres as [targets _ _|targets p e _ _ _ _|t p e _ _ _
                   |t p key task _ _ _ Htask _|t p key task _ _ _ Htask _
                   |t p v task kf _ _ _ Htask Hkf|t p v task _ _ _ _ _
                   |t p key _ _ _|p v _ _ _|p e _ _ _|p o _ _ _ _|p m _ _ _].
  - apply same_marks_once_stable; [apply same_marks_settle | exact Ho].
  - apply same_marks_once_stable; [apply same_marks_settle | exact Ho].
  - apply same_marks_once_stable; [|exact Ho].
    destruct e; unfold caught; [|apply same_marks_settle].
    eapply same_marks_trans; [|apply same_marks_settle].
    eapply same_marks_trans; [apply (same_marks_modify t set_failed); reflexivity|].
    apply (same_marks_record (marked_failed t)). reflexivity.
  - apply same_marks_once_stable; [|exact Ho].
    eapply same_marks_trans; [|apply same_marks_settle].
    apply (same_marks_record (skipped t)). reflexivity.
  - pose proof (call_run_once rank (launch stack) (rank t) (launch_sync stack)
                  (fun t' s H => launch_once rank stack _ t' s H) t task st Hrk) as Hc.
    destruct (starts_below_once _ _ _ (Hc (fun target t' Hin Hg =>
                Hrk t task target t' Htask
                  (in_or_app _ _ _ (or_introl Hin)) Hg)) Ho) as [O1 S1].
    split.
    + eapply same_marks_once; [|exact O1]. apply same_marks_plain; reflexivity.
    + eapply stable_trans; [exact S1|].
      apply same_marks_stable, same_marks_plain; reflexivity.
  - pose proof (call_keyFn_once rank (launch stack) (rank t) (launch_sync stack)
                  (fun t' s H => launch_once rank stack _ t' s H) t task kf st Hrk) as Hc.
    assert (Hreq : targets_below rank (rank t) (maek st) (key_requests kf)).
    { intros target t' Hin Hg. apply (Hrk t task target t' Htask); [|exact Hg].
      unfold requests_of. rewrite Hkf. apply in_or_app. right. exact Hin. }
    destruct (starts_below_once _ _ _ (Hc Hreq) Ho) as [O1 S1].
    split.
    + eapply same_marks_once; [|exact O1]. apply same_marks_plain; reflexivity.
    + eapply stable_trans; [exact S1|].
      apply same_marks_stable, same_marks_plain; reflexivity.
  - apply same_marks_once_stable; [apply same_marks_settle | exact Ho].
  - apply same_marks_once_stable; [|exact Ho].
    eapply same_marks_trans; [|apply same_marks_settle].
    eapply same_marks_trans; [apply (same_marks_modify t (set_cachedKey key)); reflexivity|].
    apply (same_marks_record (stored_key t)). reflexivity.
  - apply same_marks_once_stable; [apply same_marks_plain; reflexivity | exact Ho].
  - apply same_marks_once_stable; [apply same_marks_settle | exact Ho].
  - apply same_marks_once_stable; [|exact Ho].
    eapply same_marks_trans; [|apply same_marks_settle].
    eapply same_marks_trans; [|apply (same_marks_record wrote_cache); reflexivity].
    apply same_marks_plain; reflexivity.
  - apply same_marks_once_stable; [apply same_marks_settle | exact Ho].
Qed.

Lemma stepped_once st st' :
  ranked (maek st) rank -> stepped stack st st' -> once st ->
  once st' /\ stable st st'.
Proof.
  intros Hrk [targets|k c st1 Hk Hres|p by_ o _ _ _] Ho.
  - apply update_once; assumption.
  - set (st0 := with_continuations (delete k (continuations st)) st) in *.
    assert (M0 : same_marks st st0) by (apply same_marks_plain; reflexivity).
    destruct (same_marks_once_stable _ _ M0 Ho) as [O0 S0].
    destruct (resumed_once c st0 st1 Hrk Hres O0) as [O1 S1].
    split; [exact O1 | exact (stable_trans _ _ _ S0 S1)].
  - apply same_marks_once_stable; [|exact Ho]. unfold answered.
    eapply same_marks_trans; [|apply same_marks_settle].
    apply same_marks_plain; reflexivity.
Qed.

(** Along any run of events of an acyclic configuration, a task is
    started at most once and keeps the promise it was given. *)
Lemma exec_once tr : forall st st',
  ranked (maek st) rank -> once st -> exec stack st tr = Some st' ->
  once st' /\ stable st st'.
Proof.
  induction tr as [|e tr IH]; simpl; intros st st' Hrk Ho H.
  - injection H as <-. split; [exact Ho | intros t p; auto].
  - destruct (step stack st e) as [st1|] eqn:E; [|discriminate].
    apply step_stepped in E as [_ Hs].
    destruct (stepped_once st st1 Hrk Hs Ho) as [O1 S1].
    destruct (IH st1 st' (ranked_evolves rank _ _ (stepped_evolves stack _ _ Hs) Hrk) O1 H)
      as [O2 S2].
    split; [exact O2 | exact (stable_trans _ _ _ S1 S2)].
Qed.

Lemma init_once m cache : once (init m cache).
Proof. split; intros t; unfold launches, count; simpl; lia. Qed.

End OnceSteps.

(** ** A task whose [pending] is set is not started again *)

Section Passes.
Import Maek Sched.
Variable t0 : nat.

Lemma passes_refl st : passes t0 st st.
Proof. intros H. repeat split; auto. Qed.

Lemma passes_trans a b c : passes t0 a b -> passes t0 b c -> passes t0 a c.
Proof.
  intros H1 H2 Ha. destruct (H1 Ha) as (Pb & L1 & R1 & K1).
  destruct (H2 Pb) as (Pc & L2 & R2 & K2). repeat split; congruence.
Qed.

Lemma passes_plain st st' :
  history st' = history st -> maek st' = maek st -> passes t0 st st'.
Proof.
  intros Hh Hm Hp. unfold untouched, pending_of, task_at, launches, runs, count in *.
  rewrite Hh, Hm. auto.
Qed.

Lemma passes_settle p o st : passes t0 st (settle p o st).
Proof. apply passes_plain; [apply settle_history | apply settle_maek]. Qed.

Lemma passes_modify t f st :
  (forall k, pending k <> None -> pending (f k) <> None) ->
  passes t0 st (modify_task t f st).
Proof.
  intros Hf Hp. split; [|repeat split; reflexivity].
  unfold pending_of, task_at in *. simpl.
  destruct (decide (t = t0)) as [->|Hne].
  - rewrite list_lookup_alter_eq. destruct (heap (maek st) !! t0); simpl; auto.
  - rewrite list_lookup_alter_ne by exact Hne. exact Hp.
Qed.

Lemma passes_record n st :
  is_launched t0 n = false -> is_called_run t0 n = false ->
  is_called_keyFn t0 n = false ->
  passes t0 st (record n st).
Proof.
  intros H1 H2 H3 Hp. split; [exact Hp|].
  unfold launches, runs. rewrite !count_record, H1, H2, H3. lia.
Qed.

Section WithStart.
Variable start : nat -> state -> state * nat.
Hypothesis start_passes : forall t st, t <> t0 -> passes t0 st (fst (start t st)).

Lemma request_passes src targets : forall pending_ st,
  passes t0 st (fst (request start src targets pending_ st)).
Proof.
  induction targets as [|target rest IH]; intros pending_ st; simpl.
  - apply passes_refl.
  - destruct (halted st); [apply passes_refl|].
    destruct (JS.index (tasks (maek st)) target) as [t| |].
    + destruct (task_at st t) as [task|] eqn:Htask;
        [|apply passes_plain; reflexivity].
      destruct (pending task) as [p|] eqn:Hp; [apply IH|].
      intros Hp0.
      assert (Hne : t <> t0).
      { intros ->. unfold pending_of in Hp0. rewrite Htask in Hp0. contradiction. }
      pose proof (start_passes t (modify_task t (set_src src) st) Hne) as Hs.
      destruct (start t (modify_task t (set_src src) st)) as [st2 p]. simpl in Hs.
      revert Hp0. eapply passes_trans; [|apply IH].
      eapply passes_trans; [apply (passes_modify t (set_src src)); auto|].
      eapply passes_trans; [exact Hs|].
      apply passes_modify. intros k _. discriminate.
    + apply passes_plain; reflexivity.
    + destruct (is_abstract target); [apply passes_refl|].
      simpl. eapply passes_trans; [|apply IH]. apply passes_plain; reflexivity.
Qed.

Lemma updateTargets_passes targets src st :
  passes t0 st (fst (updateTargets start targets src st)).
Proof.
  unfold updateTargets. simpl.
  pose proof (request_passes src targets []
                (fst (new_promise (of_updateTargets targets) st))) as Hr.
  simpl in Hr.
  destruct (request start src targets [] _) as [st2 [pending_|e]]; simpl in *.
  - eapply passes_trans; [apply passes_plain; reflexivity|].
    eapply passes_trans; [exact Hr|]. apply passes_plain; reflexivity.
  - eapply passes_trans; [apply passes_plain; reflexivity|].
    eapply passes_trans; [exact Hr|]. apply passes_settle.
Qed.

Lemma call_run_passes t task st :
  t <> t0 -> passes t0 st (fst (call_run start t task st)).
Proof.
  intros Hne. unfold call_run. simpl.
  pose proof (updateTargets_passes (run_requests (run task)) (label task)
    (fst (new_promise (of_run t) (record (called_run t) st)))) as Hu.
  simpl in Hu. destruct (updateTargets start _ _ _) as [st2 u]. simpl in *.
  eapply passes_trans; [apply (passes_record (called_run t)); simpl; auto|].
  2: { eapply passes_trans; [apply passes_plain; reflexivity|].
       eapply passes_trans; [exact Hu|]. apply passes_plain; reflexivity. }
  apply Nat.eqb_neq. congruence.
Qed.

Lemma call_keyFn_passes t task k st :
  t <> t0 -> passes t0 st (fst (call_keyFn start t task k st)).
Proof.
  intros Hne. unfold call_keyFn. simpl.
  pose proof (updateTargets_passes (key_requests k) (label task +:+ " (keyFn)")
    (fst (new_promise (of_keyFn t) (record (called_keyFn t) st)))) as Hu.
  simpl in Hu. destruct (updateTargets start _ _ _) as [st2 u]. simpl in *.
  eapply passes_trans; [apply (passes_record (called_keyFn t)); simpl; auto|].
  2: { eapply passes_trans; [apply passes_plain; reflexivity|].
       eapply passes_trans; [exact Hu|]. apply passes_plain; reflexivity. }
  apply Nat.eqb_neq. congruence.
Qed.

End WithStart.

Lemma launch_passes stack : forall t st, t <> t0 -> passes t0 st (fst (launch stack t st)).
Proof.
  induction stack as [|stack IH]; intros t st Hne; simpl;
    [apply passes_plain; reflexivity|].
  destruct (task_at st t) as [task|]; [|apply passes_plain; reflexivity].
  assert (H1 : passes t0 st (with_promises (promises st ++ [mkPromise (of_task t) None])
                               (record (launched t) st))).
  { eapply passes_trans; [apply (passes_record (launched t)); simpl; auto|].
    - apply Nat.eqb_neq. congruence.
    - apply passes_plain; reflexivity. }
  destruct (cachedKey task) as [c|], (keyFn task) as [k|].
  1: {
    pose proof (call_keyFn_passes (launch stack) IH t task k
      (with_promises (promises st ++ [mkPromise (of_task t) None])
         (record (launched t) st)) Hne) as Hc.
    destruct (call_keyFn _ _ _ _ _) as [st2 key]. simpl in *.
    eapply passes_trans; [exact H1|]. eapply passes_trans; [exact Hc|].
    apply passes_plain; reflexivity. }
  all: pose proof (call_run_passes (launch stack) IH t task
      (with_promises (promises st ++ [mkPromise (of_task t) None])
         (record (launched t) st)) Hne) as Hc;
    destruct (call_run _ _ _ _) as [st2 r]; simpl in *;
    (eapply passes_trans; [exact H1|]); (eapply passes_trans; [exact Hc|]);
    apply passes_plain; reflexivity.
Qed.

(** A further call of [update] starts no task that is pending, and calls
    neither its [run] nor its [keyFn]. *)
Lemma update_passes stack targets st : passes t0 st (update stack targets st).
Proof.
  unfold update. simpl.
  set (st0 := with_promises (promises st ++ [mkPromise of_update None]) st).
  pose proof (updateTargets_passes (launch stack) (launch_passes stack)
                targets "user" (reload st0)) as Hu.
  destruct (updateTargets (launch stack) targets "user" (reload st0)) as [st1 u].
  simpl in Hu.
  assert (H0 : passes t0 st (reload st0)).
  { intros Hp. unfold untouched, launches, runs, count.
    rewrite reload_history, reload_pending. repeat split; try reflexivity.
    exact Hp. }
  apply (passes_trans st (reload st0)); [exact H0|].
  apply (passes_trans (reload st0) st1); [exact Hu|].
  apply passes_plain; reflexivity.
Qed.

End Passes.

(** ** At most one run of a task *)

Section AtMostOnce.
Import Maek Sched.

Lemma balanced_runs st t : balanced st -> runs t st <= launches t st.
Proof. intros H. destruct (H t) as [_ Hr]. unfold credit_run in Hr. lia. Qed.

Lemma request_awaits_pending start src target rest pending_ st t p :
  halted st = false ->
  JS.get (tasks (maek st)) target = Some t ->
  pending_of st t = Some p ->
  request start src (target :: rest) pending_ st
  = request start src rest (pending_ ++ [p]) st.
Proof.
  intros Hh Hg Hp. simpl. rewrite Hh. unfold JS.index. rewrite Hg.
  unfold pending_of in Hp. destruct (task_at st t) as [task|]; [|discriminate].
  rewrite Hp. reflexivity.
Qed.

Lemma two_rules_ranked : ranked two_rules two_rules_rank.
Proof.
  intros t task target t' Ht Hin Hget.
  destruct t as [|[|t]]; simpl in Ht; try discriminate; injection Ht as <-;
    simpl in Hin.
  - repeat destruct Hin as [Hin|Hin]; try destruct Hin; vm_compute in Hget;
      first [discriminate Hget | injection Hget as <-; simpl; lia].
  - destruct Hin.
Qed.

End AtMostOnce.

(** C2, as the code has it.  Take a configuration whose prerequisite
    graph has no cycle ([rank] falls along every prerequisite).  After a
    call of [update], whatever the events: every task was started at most
    once and its [run] was called at most once; a task keeps for good the
    promise put in [pending]; and a request for a target of a pending
    task takes that promise and goes on to the next target. *)
Theorem acyclic_update_runs_each_task_once
    (stack : nat) (m : Maek.Maek) (rank : nat -> nat) (cache : option (JS.obj JS.json))
    (targets : list string) (tr : list Sched.event) (st : Sched.state) :
  ranked m rank ->
  Sched.exec stack (Sched.init m cache) (Sched.call_update targets :: tr) = Some st ->
  forall t,
    Sched.launches t st <= 1
    /\ Sched.runs t st <= 1
    /\ (forall tr' st' p,
          Sched.exec stack st tr' = Some st' ->
          pending_of st t = Some p -> pending_of st' t = Some p)
    /\ (forall start src target rest pending_ p,
          Sched.halted st = false ->
          JS.get (Maek.tasks (Sched.maek st)) target = Some t ->
          pending_of st t = Some p ->
          Sched.request start src (target :: rest) pending_ st
          = Sched.request start src rest (pending_ ++ [p]) st).
Proof.
  intros Hrk Hexec t.
  destruct (exec_once rank stack _ (Sched.init m cache) st Hrk (init_once m cache) Hexec) as [[HL _] _].
  pose proof (exec_balanced stack _ _ _ Hexec (init_balanced m cache)) as Hb.
  pose proof (ranked_evolves rank (Sched.init m cache) st (exec_evolves stack _ _ _ Hexec) Hrk) as Hrk'.
  assert (Ho : once st)
    by (apply (exec_once rank stack _ (Sched.init m cache) st Hrk (init_once m cache) Hexec)).
  split; [apply HL|]. split; [|split].
  - pose proof (balanced_runs st t Hb). specialize (HL t). lia.
  - intros tr' st' p Hexec' Hp.
    destruct (exec_once rank stack _ _ _ Hrk' Ho Hexec') as [_ Hs]. apply Hs, Hp.
  - intros start src target rest pending_ p. apply request_awaits_pending.
Qed.

(** [out] needs the file [in] and the target [gen] of a second rule:
    both rules run, each once. *)
Lemma acyclic_update_runs_each_task_once_witness :
  let tr := [Sched.continue 0 0; Sched.continue 0 0; Sched.run_done 7 None;
             Sched.access_done 5 true] in
  let st := after 8 two_rules None (Sched.call_update ["out"; "gen"] :: tr) in
  Sched.history st
  = [Sched.launched 0; Sched.called_run 0; Sched.launched 1; Sched.called_run 1]
  /\ pending_of st 1 = Some 6
  /\ Sched.launches 1 st <= 1 /\ Sched.runs 1 st <= 1.
Proof.
  intros tr st.
  assert (Hexec : Sched.exec 8 (Sched.init two_rules None)
                    (Sched.call_update ["out"; "gen"] :: tr) = Some st)
    by (vm_compute; reflexivity).
  destruct (acyclic_update_runs_each_task_once 8 two_rules two_rules_rank None
              ["out"; "gen"] tr st two_rules_ranked Hexec 1) as (H1 & H2 & _).
  split; [vm_compute; reflexivity|]. split; [vm_compute; reflexivity|].
  split; assumption.
Defined.

(** C2 as stated fails when a rule requires its own target.  The async
    arrow of line 391 runs up to its first [await] before its promise is
    assigned to [task.pending]; on the way it calls [task.run()], which
    calls [updateTargets(['a'])], which finds the task without [pending]
    and starts it again, and so on until the stack is full.  With room for
    a hundred nested calls [run] has been called a hundred times. *)
Lemma self_dependent_rule_runs_repeatedly :
  let st := after 100 self_cycle None [Sched.call_update ["a"]] in
  Sched.exec 100 (Sched.init self_cycle None) [Sched.call_update ["a"]] = Some st
  /\ Sched.runs 0 st = 100
  /\ ~ Sched.runs 0 st <= 1.
Proof.
  vm_compute. split; [reflexivity|]. split; [reflexivity|].
  intros H. repeat (apply le_S_n in H). inversion H.
Qed.

(** C10, as the code has it.  Nothing clears [pending]: in any state
    reached, a task whose [pending] is set keeps it set through every
    later event, a further call of [update] included; that call does not
    start the task again and calls neither its [run] nor its [keyFn].
    When the prerequisite graph has no cycle, the task keeps the very same
    promise and its [run] is called at most once in the whole life of the
    process. *)
Theorem pending_outlives_update_calls
    (stack : nat) (m : Maek.Maek) (cache : option (JS.obj JS.json))
    (tr : list Sched.event) (st : Sched.state) :
  Sched.exec stack (Sched.init m cache) tr = Some st ->
  forall t,
    (forall tr' st',
        Sched.exec stack st tr' = Some st' ->
        pending_of st t <> None -> pending_of st' t <> None)
    /\ (forall targets,
          pending_of st t <> None ->
          untouched t st (Sched.update stack targets st))
    /\ (forall rank,
          ranked m rank ->
          Sched.runs t st <= 1
          /\ forall tr' st' p,
               Sched.exec stack st tr' = Some st' ->
               pending_of st t = Some p -> pending_of st' t = Some p).
Proof.
  intros Hexec t. split; [|split].
  - intros tr' st' Hexec'. apply evolves_pending. eapply exec_evolves. exact Hexec'.
  - intros targets. apply update_passes.
  - intros rank Hrk.
    destruct (exec_once rank stack _ (Sched.init m cache) st Hrk (init_once m cache) Hexec) as [Ho _].
    pose proof (exec_balanced stack _ _ _ Hexec (init_balanced m cache)) as Hb.
    pose proof (ranked_evolves rank (Sched.init m cache) st (exec_evolves stack _ _ _ Hexec) Hrk) as Hrk'.
    split.
    + pose proof (balanced_runs st t Hb). destruct Ho as [HL _]. specialize (HL t). lia.
    + intros tr' st' p Hexec' Hp.
      destruct (exec_once rank stack _ _ _ Hrk' Ho Hexec') as [_ Hs]. apply Hs, Hp.
Qed.

(** The rule [out] is built and the update ends; a second call of
    [update] asks for [out] again and starts nothing. *)
Lemma pending_outlives_update_calls_witness :
  let tr := [Sched.call_update ["out"]; Sched.continue 0 0; Sched.continue 0 0;
             Sched.run_done 3 None; Sched.continue 0 0; Sched.continue 2 0;
             Sched.continue 2 0; Sched.key_done 5 (inl (JS.JArr [JS.JStr "out:abc"]));
             Sched.continue 2 0; Sched.continue 0 0; Sched.continue 0 0] in
  let st := after 8 single_rule None tr in
  Sched.history st
  = [Sched.launched 0; Sched.called_run 0; Sched.called_keyFn 0; Sched.stored_key 0;
     Sched.wrote_cache]
  /\ pending_of st 0 = Some 2
  /\ Sched.history (Sched.update 8 ["out"] st) = Sched.history st
  /\ untouched 0 st (Sched.update 8 ["out"] st).
Proof.
  intros tr st.
  assert (Hexec : Sched.exec 8 (Sched.init single_rule None) tr = Some st)
    by (vm_compute; reflexivity).
  destruct (pending_outlives_update_calls 8 single_rule None tr st Hexec 0)
    as (_ & H & _).
  split; [vm_compute; reflexivity|]. split; [vm_compute; reflexivity|].
  split; [vm_compute; reflexivity|].
  apply H. vm_compute. discriminate.
Defined.

(** The statement of C10 that [run] executes at most once per process
    fails for two rules that require each other: starting [a] calls its
    [run], which asks for [b] and starts it, whose [run] asks for [a],
    whose [pending] is not assigned yet. *)
Lemma mutually_dependent_rules_run_repeatedly :
  let st := after 100 two_cycle None [Sched.call_update ["a"]] in
  Sched.exec 100 (Sched.init two_cycle None) [Sched.call_update ["a"]] = Some st
  /\ Sched.runs 0 st = 50 /\ Sched.runs 1 st = 50
  /\ ~ Sched.runs 0 st <= 1.
Proof.
  vm_compute. split; [reflexivity|]. split; [reflexivity|]. split; [reflexivity|].
  intros H. repeat (apply le_S_n in H). inversion H.
Qed.

(** ** Keys along an update *)

Section Keys.
Import Maek Sched.

Lemma step_moved stack st e st' :
  step stack st e = Some st' -> is_update e = false ->
  halted st = false /\ moved stack st st'.
Proof.
  intros H He. destruct (step_stepped stack st e st' H) as [Hh _].
  split; [exact Hh|]. unfold step in H. rewrite Hh in H.
  destruct e as [targets|k choice|p ok|p e|p r]; [discriminate He| | | |].
  - destruct (continuations st !! k) as [c|] eqn:Hk; [|discriminate].
    eapply moved_continue; [exact Hk|]. eapply resume_resumed; exact H.
  - destruct (is_external p st) eqn:Hx; [|discriminate].
    destruct (promises st !! p) as [[[] []]|] eqn:Hp; try discriminate.
    injection H as <-. eapply moved_answer; eauto. destruct ok; constructor.
  - destruct (is_external p st) eqn:Hx; [|discriminate].
    destruct (promises st !! p) as [[[] []]|] eqn:Hp; try discriminate.
    injection H as <-. eapply moved_answer; eauto. destruct e; constructor.
  - destruct (is_external p st) eqn:Hx; [|discriminate].
    destruct (promises st !! p) as [[[] []]|] eqn:Hp; try discriminate.
    injection H as <-. eapply moved_answer; eauto. destruct r; constructor.
Qed.

Lemma exec_moved_invariant stack (I : state -> Prop) :
  (forall st st', halted st = false -> moved stack st st' -> I st -> I st') ->
  forall tr st st',
    forallb (fun e => negb (is_update e)) tr = true ->
    exec stack st tr = Some st' -> I st -> I st'.
Proof.
  intros Hstep. induction tr as [|e tr IH]; simpl; intros st st' Hq Hexec HI.
  - injection Hexec as <-. exact HI.
  - apply andb_true_iff in Hq as [He Hq]. apply negb_true_iff in He.
    destruct (step stack st e) as [st1|] eqn:E; [|discriminate].
    apply step_moved in E as [Hh Hm]; [|exact He]. eauto.
Qed.

Lemma sync_cachedKey st st' t : sync st st' -> cachedKey_of st' t = cachedKey_of st t.
Proof.
  intros Hs. pose proof (sync_heap _ _ Hs) as H. unfold cachedKey_of, task_at.
  destruct (heap (maek st) !! t) as [k|] eqn:Hk.
  - destruct (Forall2_lookup_l _ _ _ _ _ H Hk) as (k' & -> & Hg). apply Hg.
  - destruct (heap (maek st') !! t) as [k'|] eqn:Hk'; [|reflexivity].
    destruct (Forall2_lookup_r _ _ _ _ _ H Hk') as (k & Hk2 & _). congruence.
Qed.

Lemma cachedKey_plain st st' t : maek st' = maek st -> cachedKey_of st' t = cachedKey_of st t.
Proof. intros H. unfold cachedKey_of, task_at. rewrite H. reflexivity. Qed.

Lemma cachedKey_settle p o st t : cachedKey_of (settle p o st) t = cachedKey_of st t.
Proof. apply cachedKey_plain, settle_maek. Qed.

Lemma cachedKey_modify t f st t' :
  (forall k, cachedKey (f k) = cachedKey k) ->
  cachedKey_of (modify_task t f st) t' = cachedKey_of st t'.
Proof.
  intros Hf. unfold cachedKey_of, task_at. simpl.
  destruct (decide (t = t')) as [->|Hne].
  - rewrite list_lookup_alter_eq. destruct (heap (maek st) !! t'); simpl; auto.
  - rewrite list_lookup_alter_ne by exact Hne. reflexivity.
Qed.

Lemma cachedKey_set_other t key st t' :
  t <> t' -> cachedKey_of (modify_task t (set_cachedKey key) st) t' = cachedKey_of st t'.
Proof.
  intros Hne. unfold cachedKey_of, task_at. simpl.
  rewrite list_lookup_alter_ne by exact Hne. reflexivity.
Qed.

Lemma count_plain P st st' : history st' = history st -> count P st' = count P st.
Proof. intros H. unfold count. rewrite H. reflexivity. Qed.

Lemma count_sync P st st' :
  (forall n, prelude n -> P n = false) -> sync st st' -> count P st' = count P st.
Proof.
  intros HP Hs. destruct (sync_history _ _ Hs) as (h & Hh & Hf).
  unfold count. rewrite Hh, List.filter_app, length_app.
  assert (List.filter P h = []) as ->; [|simpl; lia].
  clear Hh. induction Hf as [|n h Hn _ IH]; simpl; [reflexivity|].
  rewrite (HP n Hn). exact IH.
Qed.

Lemma stored_not_prelude t n : prelude n -> is_stored_key t n = false.
Proof. destruct n; simpl; tauto. Qed.

Lemma count_settle P p o st : count P (settle p o st) = count P st.
Proof. apply count_plain, settle_history. Qed.

Lemma keeps_loaded_same key st st' :
  (forall t, count (is_stored_key t) st' = count (is_stored_key t) st) ->
  (forall t, cachedKey_of st' t = cachedKey_of st t) ->
  keeps_loaded key st -> keeps_loaded key st'.
Proof. intros Hc Hk H t. rewrite Hc, Hk. apply H. Qed.

Lemma keeps_loaded_sync key st st' :
  sync st st' -> keeps_loaded key st -> keeps_loaded key st'.
Proof.
  intros Hs. apply keeps_loaded_same; intros t.
  - apply count_sync; [apply stored_not_prelude | exact Hs].
  - apply sync_cachedKey, Hs.
Qed.

(** An event other than a call of [update] changes the key of a task
    only by storing a new one, which is noted. *)
Lemma moved_keeps_loaded stack key st st' :
  moved stack st st' -> keeps_loaded key st -> keeps_loaded key st'.
Proof.
  intros Hm HK.
  destruct Hm as [k c st1 Hk Hres|p by_ o _ _ _].
  2: { revert HK. apply keeps_loaded_same; intros t; unfold answered.
       - rewrite count_settle. reflexivity.
       - rewrite cachedKey_settle. reflexivity. }
  set (st0 := with_continuations (delete k (continuations st)) st) in *.
  assert (H0 : keeps_loaded key st0) by exact HK.
  clearbody st0. clear HK Hk. revert H0.
  destruct Hres as [targets _ _|targets p e _ _ _ _|t1 p e _ _ _
                   |t1 p v task _ _ _ _ _|t1 p v task _ _ _ _ _
                   |t1 p v task kf _ _ _ _ _|t1 p v task _ _ _ _ _
                   |t1 p v _ _ _|p v _ _ _|p e _ _ _|p o _ _ _ _|p m _ _ _].
  - apply keeps_loaded_same; intros t;
      [rewrite count_settle | rewrite cachedKey_settle]; reflexivity.
  - apply keeps_loaded_same; intros t;
      [rewrite count_settle | rewrite cachedKey_settle]; reflexivity.
  - destruct e; unfold caught; apply keeps_loaded_same; intros t.
    + rewrite count_settle, count_record. simpl. apply Nat.add_0_r.
    + rewrite cachedKey_settle.
      exact (cachedKey_modify t1 set_failed st0 t (fun _ => eq_refl)).
    + rewrite count_settle. reflexivity.
    + rewrite cachedKey_settle. reflexivity.
  - apply keeps_loaded_same; intros t.
    + rewrite count_settle, count_record. simpl. apply Nat.add_0_r.
    + rewrite cachedKey_settle. reflexivity.
  - intros H0.
    exact (keeps_loaded_sync key st0 _
             (call_run_sync (launch stack) (launch_sync stack) t1 task st0) H0).
  - intros H0.
    exact (keeps_loaded_sync key st0 _
             (call_keyFn_sync (launch stack) (launch_sync stack) t1 task kf st0) H0).
  - apply keeps_loaded_same; intros t;
      [rewrite count_settle | rewrite cachedKey_settle]; reflexivity.
  - intros H0 t. rewrite count_settle, count_record, cachedKey_settle. simpl.
    destruct (Nat.eqb_spec t t1) as [->|Hne]; [lia|].
    rewrite Nat.add_0_r. intros Hc.
    rewrite <- (H0 t Hc). apply cachedKey_set_other. congruence.
  - apply keeps_loaded_same; intros t; reflexivity.
  - apply keeps_loaded_same; intros t;
      [rewrite count_settle | rewrite cachedKey_settle]; reflexivity.
  - apply keeps_loaded_same; intros t.
    + rewrite count_settle, count_record. simpl. apply Nat.add_0_r.
    + rewrite cachedKey_settle. reflexivity.
  - apply keeps_loaded_same; intros t;
      [rewrite count_settle | rewrite cachedKey_settle]; reflexivity.
Qed.

End Keys.

(** ** Tasks without a key function *)

Section Keyed.
Import Maek Sched.
Variable stack : nat.

Lemma opening_not_new_key c t : opening c -> point c <> await_new_key t.
Proof. unfold opening. destruct (point c); simpl; intros H; congruence || contradiction. Qed.

Lemma sync_new_key_waits st st' c t :
  sync st st' -> In c (continuations st') -> point c = await_new_key t ->
  In c (continuations st).
Proof.
  intros Hs Hin Hpt. destruct (sync_continuations _ _ Hs) as (cs & Hc & Hf).
  rewrite Hc in Hin. apply in_app_or in Hin as [Hin|Hin]; [exact Hin|].
  rewrite Forall_forall in Hf.
  destruct (opening_not_new_key c t (Hf c (proj2 (list_elem_of_In _ _) Hin)) Hpt).
Qed.

Lemma evolves_keyFn st st' t task' :
  evolves st st' -> task_at st' t = Some task' ->
  exists task, task_at st t = Some task /\ keyFn task = keyFn task'.
Proof.
  intros [_ Hh] Ht. destruct (Forall2_lookup_r _ _ _ _ _ Hh Ht) as (task & Hl & Hg).
  exists task. split; [exact Hl|]. destruct Hg as (_ & Hk & _). congruence.
Qed.

Lemma evolves_keyFn_forward st st' t task :
  evolves st st' -> task_at st t = Some task ->
  exists task', task_at st' t = Some task' /\ keyFn task' = keyFn task.
Proof.
  intros [_ Hh] Ht. destruct (Forall2_lookup_l _ _ _ _ _ Hh Ht) as (task' & Hl & Hg).
  exists task'. split; [exact Hl|]. apply Hg.
Qed.

Lemma in_delete {A} (l : list A) k x : In x (delete k l) -> In x l.
Proof.
  revert k. induction l as [|y l IH]; intros [|k]; cbn; auto.
  intros [->|H]; [auto | right; eauto].
Qed.

(** Where a continuation waiting for a new key comes from. *)
Lemma resumed_new_key_waits c st st' c' t :
  resumed stack c st st' ->
  In c' (continuations st') -> point c' = await_new_key t ->
  In c' (continuations st)
  \/ exists task kf, task_at st t = Some task /\ keyFn task = Some kf.
Proof.
  intros Hres Hin Hpt.
  destruct Hres as [targets _ _|targets p e _ _ _ _|t1 p e _ _ _
                   |t1 p v task _ _ _ _ _|t1 p v task _ _ _ _ _
                   |t1 p v task kf _ _ _ Htask Hkf|t1 p v task _ _ _ _ _
                   |t1 p v _ _ _|p v _ _ _|p e _ _ _|p o _ _ _ _|p m _ _ _];
    try (rewrite settle_continuations in Hin; left; exact Hin);
    try (left; exact Hin).
  - destruct e; unfold caught in Hin; rewrite settle_continuations in Hin;
      left; exact Hin.
  - simpl in Hin. apply in_app_or in Hin as [Hin|[<-|[]]]; [|discriminate Hpt].
    left. eapply sync_new_key_waits; [|exact Hin|exact Hpt].
    apply call_run_sync, launch_sync.
  - simpl in Hin. apply in_app_or in Hin as [Hin|[<-|[]]].
    + left. eapply sync_new_key_waits; [|exact Hin|exact Hpt].
      apply call_keyFn_sync, launch_sync.
    + simpl in Hpt. injection Hpt as <-. right. eauto.
Qed.

Lemma update_new_key_waits targets st c t :
  In c (continuations (update stack targets st)) -> point c = await_new_key t ->
  In c (continuations st).
Proof.
  unfold update. simpl.
  set (st0 := with_promises (promises st ++ [mkPromise of_update None]) st).
  pose proof (updateTargets_sync (launch stack) (launch_sync stack)
                targets "user" (reload st0)) as Hu.
  destruct (updateTargets (launch stack) targets "user" (reload st0)) as [st1 u].
  simpl in *. intros Hin Hpt.
  apply in_app_or in Hin as [Hin|[<-|[]]]; [|discriminate Hpt].
  pose proof (sync_new_key_waits _ _ c t Hu Hin Hpt) as H.
  rewrite reload_continuations in H. exact H.
Qed.

Lemma stepped_keyed_waits st st' :
  stepped stack st st' -> keyed_waits st -> keyed_waits st'.
Proof.
  intros Hs HK c t Hin Hpt.
  pose proof (stepped_evolves stack st st' Hs) as He.
  assert (Hold : In c (continuations st)
                 \/ exists task kf, task_at st t = Some task /\ keyFn task = Some kf).
  { destruct Hs as [targets|k c0 st1 Hk Hres|p by_ o _ _ _].
    - left. eapply update_new_key_waits; eassumption.
    - destruct (resumed_new_key_waits _ _ _ c t Hres Hin Hpt) as [H|H].
      + left. simpl in H. eapply in_delete. exact H.
      + right. exact H.
    - left. unfold answered in Hin. rewrite settle_continuations in Hin. exact Hin. }
  assert (Hkeyed : exists task kf, task_at st t = Some task /\ keyFn task = Some kf).
  { destruct Hold as [H|H]; [apply (HK c t H Hpt) | exact H]. }
  destruct Hkeyed as (task & kf & Ht & Hk).
  destruct (evolves_keyFn_forward st st' t task He Ht) as (task' & Ht' & Hk').
  exists task', kf. split; [exact Ht' | congruence].
Qed.

(** No key is ever stored for a task without a key function. *)
Lemma moved_stores_keyed st st' t :
  moved stack st st' -> keyed_waits st ->
  count (is_stored_key t) st' = count (is_stored_key t) st
  \/ exists task kf, task_at st t = Some task /\ keyFn task = Some kf.
Proof.
  intros Hm HK.
  destruct Hm as [k c st1 Hk Hres|p by_ o _ _ _].
  2: { left. unfold answered. rewrite count_settle. reflexivity. }
  assert (Hin : In c (continuations st))
    by (apply list_elem_of_In; eapply list_elem_of_lookup_2; exact Hk).
  set (st0 := with_continuations (delete k (continuations st)) st) in *.
  assert (E0 : forall P, count P st0 = count P st) by reflexivity.
  rewrite <- E0. clearbody st0. clear E0.
  destruct Hres as [targets _ _|targets p e _ _ _ _|t1 p e _ _ _
                   |t1 p v task _ _ _ _ _|t1 p v task _ _ _ _ _
                   |t1 p v task kf _ _ _ _ _|t1 p v task _ _ _ _ _
                   |t1 p v Hpt _ _|p v _ _ _|p e _ _ _|p o _ _ _ _|p m _ _ _];
    try (left; rewrite count_settle; reflexivity).
  - left. destruct e; unfold caught; rewrite count_settle; [|reflexivity].
    rewrite count_record. simpl. apply Nat.add_0_r.
  - left. rewrite count_settle, count_record. simpl. apply Nat.add_0_r.
  - left.
    exact (count_sync _ st0 _ (stored_not_prelude t)
             (call_run_sync (launch stack) (launch_sync stack) t1 task st0)).
  - left.
    exact (count_sync _ st0 _ (stored_not_prelude t)
             (call_keyFn_sync (launch stack) (launch_sync stack) t1 task kf st0)).
  - rewrite count_settle, count_record. simpl.
    destruct (Nat.eqb_spec t t1) as [->|Hne].
    + right. apply (HK c t1 Hin Hpt).
    + left. apply Nat.add_0_r.
  - left. reflexivity.
  - left. rewrite count_settle, count_record. simpl. apply Nat.add_0_r.
Qed.

End Keyed.

(** ** What is written to the cache file *)

Section Cache.
Import Maek Sched.

Lemma get_absent {A} (o : JS.obj A) k :
  existsb (String.eqb k) (JS.keys o) = false -> JS.get o k = None.
Proof.
  induction o as [|[k' v] o IH]; simpl; [reflexivity|].
  destruct (String.eqb k k'); simpl; [discriminate | exact IH].
Qed.

(** The cache file gets, for each target, the key of the task that owns
    the target, if that task has one. *)
Lemma get_cache_of m target :
  JS.get (cache_of m) target
  = match JS.get (tasks m) target with
    | Some t =>
        match heap m !! t with
        | Some task => cachedKey task
        | None => None
        end
    | None => None
    end.
Proof.
  unfold cache_of.
  set (val := fun target : string =>
         match JS.get (tasks m) target with
         | Some t => match heap m !! t with
                     | Some task => cachedKey task
                     | None => None
                     end
         | None => None
         end).
  set (f := fun (cache : JS.obj JS.json) (target : string) => _).
  assert (Hf : forall cache k, f cache k
            = match val k with Some key => JS.set cache k key | None => cache end).
  { intros cache k. unfold f, val. destruct (JS.get (tasks m) k); [|reflexivity].
    destruct (heap m !! n); reflexivity. }
  assert (Hget : forall acc k,
            JS.get (f acc k) target
            = if String.eqb target k
              then match val k with Some key => Some key | None => JS.get acc target end
              else JS.get acc target).
  { intros acc k. rewrite Hf. destruct (String.eqb_spec target k) as [->|Hne].
    - destruct (val k); [apply get_set_same | reflexivity].
    - destruct (val k); [apply get_set_other; congruence | reflexivity]. }
  assert (Hfold : forall keys acc,
            JS.get (fold_left f keys acc) target
            = if existsb (String.eqb target) keys
              then match val target with Some key => Some key | None => JS.get acc target end
              else JS.get acc target).
  { induction keys as [|k keys IH]; intros acc; simpl; [reflexivity|].
    rewrite IH, Hget. destruct (String.eqb_spec target k) as [->|Hne]; simpl.
    - destruct (val k); destruct (existsb _ keys); reflexivity.
    - reflexivity. }
  rewrite Hfold. simpl. fold (val target).
  destruct (existsb (String.eqb target) (JS.keys (tasks m))) eqn:E.
  - destruct (val target); reflexivity.
  - unfold val. rewrite (get_absent _ _ E). reflexivity.
Qed.

Lemma clear_keys_engine a b :
  maek a = maek b -> maek (clear_keys a) = maek (clear_keys b).
Proof.
  unfold clear_keys. intros H. rewrite H.
  generalize (JS.keys (tasks (maek b))). intros l. revert a b H.
  induction l as [|x l IH]; intros a b H; simpl; [exact H|].
  apply IH. rewrite H. destruct (JS.get (tasks (maek b)) x); [|exact H].
  unfold modify_task. simpl. rewrite H. reflexivity.
Qed.

Lemma load_keys_engine cache : forall a b,
  maek a = maek b -> maek (load_keys cache a) = maek (load_keys cache b).
Proof.
  unfold load_keys. induction cache as [|x l IH]; intros a b H; simpl; [exact H|].
  apply IH. rewrite H. destruct (JS.index (tasks (maek b)) (fst x)); [| |exact H].
  - unfold modify_task. simpl. rewrite H. reflexivity.
  - destruct (String.eqb (fst x) "__proto__"); exact H.
Qed.

Lemma clear_keys_cache_file st : cache_file (clear_keys st) = cache_file st.
Proof.
  unfold clear_keys. generalize (JS.keys (tasks (maek st))). intros l. revert st.
  induction l as [|x l IH]; intros st; simpl; [reflexivity|].
  rewrite IH. destruct (JS.get _ x); reflexivity.
Qed.

(** What [update] loads depends on the configuration and on the cache
    file alone. *)
Lemma reload_engine a b :
  maek a = maek b -> cache_file a = cache_file b ->
  maek (reload a) = maek (reload b).
Proof.
  intros Hm Hc. unfold reload. rewrite !clear_keys_cache_file, Hc.
  pose proof (clear_keys_engine a b Hm) as H.
  destruct (cache_file b); [apply load_keys_engine, H | exact H].
Qed.

Lemma update_loaded_key stack targets m cache t :
  cachedKey_of (update stack targets (init m cache)) t = loaded_key m cache t.
Proof.
  unfold update, loaded_key. simpl.
  set (st0 := with_promises [mkPromise of_update None] (init m cache)).
  pose proof (updateTargets_sync (launch stack) (launch_sync stack)
                targets "user" (reload st0)) as Hu.
  destruct (updateTargets (launch stack) targets "user" (reload st0)) as [st1 u].
  simpl in Hu.
  change (cachedKey_of st1 t = cachedKey_of (reload (init m cache)) t).
  rewrite (sync_cachedKey _ _ t Hu).
  apply cachedKey_plain. apply reload_engine; reflexivity.
Qed.

Lemma update_stored_nothing stack targets m cache t :
  count (is_stored_key t) (update stack targets (init m cache)) = 0.
Proof.
  unfold update. simpl.
  set (st0 := with_promises [mkPromise of_update None] (init m cache)).
  pose proof (updateTargets_sync (launch stack) (launch_sync stack)
                targets "user" (reload st0)) as Hu.
  destruct (updateTargets (launch stack) targets "user" (reload st0)) as [st1 u].
  simpl in Hu.
  change (count (is_stored_key t) st1 = 0).
  rewrite (count_sync _ _ _ (stored_not_prelude t) Hu).
  unfold count. rewrite reload_history. reflexivity.
Qed.

Lemma exec_first stack st e tr st' :
  exec stack st (e :: tr) = Some st' ->
  exists st1, step stack st e = Some st1 /\ exec stack st1 tr = Some st'.
Proof.
  simpl. destruct (step stack st e) as [st1|]; [|discriminate]. eauto.
Qed.

Lemma moved_stepped stack st st' : moved stack st st' -> stepped stack st st'.
Proof.
  intros [k c st1 Hk Hres|p by_ o H1 H2 H3].
  - eapply stepped_continue; eassumption.
  - eapply stepped_answer; eassumption.
Qed.

(** Along one update, a task for which no key was stored has the key
    that was loaded. *)
Lemma exec_keeps_loaded stack m cache targets tr st :
  exec stack (init m cache) (call_update targets :: tr) = Some st ->
  forallb (fun e => negb (is_update e)) tr = true ->
  keeps_loaded (loaded_key m cache) st.
Proof.
  intros Hexec Hq. apply exec_first in Hexec as (st1 & Hstep & Hexec).
  assert (st1 = update stack targets (init m cache)) as ->
    by (unfold step in Hstep; simpl in Hstep; congruence).
  refine (exec_moved_invariant stack (keeps_loaded (loaded_key m cache)) _
            tr _ st Hq Hexec _).
  - intros a b _ Hm. exact (moved_keeps_loaded stack _ a b Hm).
  - intros t _. apply update_loaded_key.
Qed.

(** Along one update no key is stored for a task without key function. *)
Lemma exec_keyless stack m cache targets tr st t task :
  exec stack (init m cache) (call_update targets :: tr) = Some st ->
  forallb (fun e => negb (is_update e)) tr = true ->
  heap m !! t = Some task -> keyFn task = None ->
  count (is_stored_key t) st = 0.
Proof.
  intros Hexec Hq Ht Hk. apply exec_first in Hexec as (st1 & Hstep & Hexec).
  assert (st1 = update stack targets (init m cache)) as ->
    by (unfold step in Hstep; simpl in Hstep; congruence).
  set (I := fun s : state =>
         keyed_waits s /\ evolves (init m cache) s /\ count (is_stored_key t) s = 0).
  assert (HI : I st).
  { refine (exec_moved_invariant stack I _ tr _ st Hq Hexec _).
    - intros a b _ Hm (HK & He & Hc). split; [|split].
      + eapply stepped_keyed_waits; [apply moved_stepped; exact Hm | exact HK].
      + eapply evolves_trans; [exact He|].
        apply (stepped_evolves stack), moved_stepped, Hm.
      + destruct (moved_stores_keyed stack a b t Hm HK) as [E|(task' & kf & Ht' & Hk')].
        * congruence.
        * destruct (evolves_keyFn _ _ t task' He Ht') as (task0 & Ht0 & Hk0).
          unfold task_at in Ht0. simpl in Ht0. congruence.
    - split; [|split].
      + apply (stepped_keyed_waits stack (init m cache)); [constructor|].
        intros c t' [].
      + apply (stepped_evolves stack). constructor.
      + apply update_stored_nothing. }
  apply HI.
Qed.

End Cache.

(** ** The end of [update] *)

Section EndOfUpdate.
Import Maek Sched.

(** When [update] continues after line 319 it writes the keys the tasks
    have at that moment, unless an unexpected error is passed on. *)
Lemma update_writes_cache stack st k c choice st' :
  continuations st !! k = Some c -> point c = await_build ->
  step stack st (continue k choice) = Some st' ->
  cache_file st' = Some (cache_of (maek st)) \/ cache_file st' = cache_file st.
Proof.
  intros Hk Hpt Hstep. unfold step in Hstep.
  destruct (halted st); [discriminate|]. rewrite Hk in Hstep.
  destruct c as [pt aw me]. simpl in Hpt. subst pt.
  unfold resume in Hstep. simpl in Hstep.
  destruct aw as [|p [|]]; try discriminate.
  destruct (outcome_of _ p) as [[v|[msg|msg]]|]; try discriminate;
    injection Hstep as <-; rewrite settle_cache_file; simpl; auto.
Qed.

Lemma install_get targets address : forall (o : JS.obj nat) k,
  JS.get (fold_left (fun o target => JS.set o target address) targets o) k
  = if existsb (String.eqb k) targets then Some address else JS.get o k.
Proof.
  induction targets as [|x r IH]; intros o k; simpl; [reflexivity|].
  rewrite IH. destruct (String.eqb_spec k x) as [->|Hne]; simpl.
  - rewrite get_set_same. destruct (existsb _ r); reflexivity.
  - rewrite get_set_other by congruence. reflexivity.
Qed.

(** [RULE] gives its task a key function exactly when none of the
    targets is abstract, and makes the task the owner of each target. *)
Lemma RULE_task m targets prerequisites recipe :
  exists task,
    heap (RULE m targets prerequisites recipe) !! length (heap m) = Some task
    /\ (keyFn task <> None <-> existsb is_abstract targets = false)
    /\ run task = run_RULE targets prerequisites recipe
    /\ forall target, In target targets ->
         JS.get (tasks (RULE m targets prerequisites recipe)) target
         = Some (length (heap m)).
Proof.
  unfold RULE, install. simpl. eexists. split; [|split; [|split]].
  - rewrite lookup_app_r, Nat.sub_diag by lia. reflexivity.
  - simpl. destruct (existsb is_abstract targets); simpl; split;
      congruence || discriminate.
  - reflexivity.
  - intros target Hin. rewrite install_get.
    assert (existsb (String.eqb target) targets = true) as ->; [|reflexivity].
    apply existsb_exists. exists target. split; [exact Hin | apply String.eqb_refl].
Qed.

Lemma count_positive P st n : In n (history st) -> P n = true -> 0 < count P st.
Proof.
  intros Hin HP. unfold count.
  assert (In n (List.filter P (history st))) as H by (apply List.filter_In; auto).
  destruct (List.filter P (history st)); [destruct H | simpl; lia].
Qed.

End EndOfUpdate.

(** C5, as the code has it.  [RULE] gives its task a key function if and
    only if none of its targets is abstract.  A task without key function
    is never given a key by the scheduler: all along an update its
    [cachedKey] is what was loaded from the cache file at the start, and
    that is what the end of the update writes for each of its targets;
    no entry when none was loaded. *)
Theorem task_without_keyFn_keeps_loaded_key
    (stack : nat) (m : Maek.Maek) (cache : option (JS.obj JS.json))
    (targets : list string) (tr : list Sched.event) (st : Sched.state)
    (t : nat) (task : Maek.Task) :
  Sched.exec stack (Sched.init m cache) (Sched.call_update targets :: tr) = Some st ->
  forallb (fun e => negb (is_update e)) tr = true ->
  Maek.heap m !! t = Some task ->
  Maek.keyFn task = None ->
  (forall m0 targets0 prerequisites recipe,
      exists task0,
        Maek.heap (Maek.RULE m0 targets0 prerequisites recipe) !! length (Maek.heap m0)
        = Some task0
        /\ (Maek.keyFn task0 <> None <-> existsb Maek.is_abstract targets0 = false)
        /\ Maek.run task0 = Maek.run_RULE targets0 prerequisites recipe
        /\ forall target, In target targets0 ->
             JS.get (Maek.tasks (Maek.RULE m0 targets0 prerequisites recipe)) target
             = Some (length (Maek.heap m0)))
  /\ cachedKey_of st t = loaded_key m cache t
  /\ (forall target, JS.get (Maek.tasks m) target = Some t ->
        JS.get (Sched.cache_of (Sched.maek st)) target = loaded_key m cache t)
  /\ (forall k c choice st',
        Sched.continuations st !! k = Some c ->
        Sched.point c = Sched.await_build ->
        Sched.step stack st (Sched.continue k choice) = Some st' ->
        Sched.cache_file st' = Sched.cache_file st
        \/ exists written,
             Sched.cache_file st' = Some written
             /\ forall target, JS.get (Maek.tasks m) target = Some t ->
                  JS.get written target = loaded_key m cache t).
Proof.
  intros Hexec Hq Ht Hk.
  assert (Hkey : cachedKey_of st t = loaded_key m cache t).
  { apply (exec_keeps_loaded stack m cache targets tr st Hexec Hq).
    eapply exec_keyless; eassumption. }
  assert (Hwritten : forall target, JS.get (Maek.tasks m) target = Some t ->
            JS.get (Sched.cache_of (Sched.maek st)) target = loaded_key m cache t).
  { intros target Hg. rewrite get_cache_of.
    destruct (exec_evolves stack _ _ _ Hexec) as [Htasks _]. simpl in Htasks.
    rewrite Htasks, Hg. exact Hkey. }
  split; [intros; apply RULE_task|]. split; [exact Hkey|]. split; [exact Hwritten|].
  intros k c choice st' Hc Hpt Hstep.
  destruct (update_writes_cache stack st k c choice st' Hc Hpt Hstep) as [H|H];
    [right | left; exact H].
  eexists. split; [exact H | exact Hwritten].
Qed.

(** The rule of the sample driver, [RULE([':test'], ..)]-like: nothing
    was loaded for it, it runs, and nothing is written for it. *)
Lemma task_without_keyFn_keeps_loaded_key_witness :
  let m := Maek.RULE (Maek.new_Maek Maek.linux) [":test"] [] [["game-test"; "--all-tests"]] in
  let tr := [Sched.continue 0 0; Sched.continue 0 0; Sched.run_done 3 None;
             Sched.continue 0 0; Sched.continue 0 0] in
  let st := after 8 m None (Sched.call_update [":test"] :: tr) in
  Sched.history st = [Sched.launched 0; Sched.called_run 0]
  /\ cachedKey_of st 0 = None
  /\ JS.get (Sched.cache_of (Sched.maek st)) ":test" = None
  /\ Sched.cache_file (after 8 m None (Sched.call_update [":test"] :: tr ++ [Sched.continue 0 0]))
     = Some [].
Proof.
  intros m tr st.
  assert (Hexec : Sched.exec 8 (Sched.init m None) (Sched.call_update [":test"] :: tr)
                  = Some st) by (vm_compute; reflexivity).
  destruct (task_without_keyFn_keeps_loaded_key 8 m None [":test"] tr st 0
              (Maek.mkTask (Maek.run_RULE [":test"] [] [["game-test"; "--all-tests"]])
                 None "RULE :test" None None None false)
              Hexec eq_refl eq_refl eq_refl) as (_ & H1 & H2 & _).
  split; [vm_compute; reflexivity|]. split; [exact H1|].
  split; [apply H2; vm_compute; reflexivity|].
  vm_compute. reflexivity.
Defined.

(** C5 as stated fails when the cache file holds an entry for a target
    that now belongs to a rule with an abstract target: the loaded key
    stays on the task and is written back under each of its targets, the
    abstract one included.  Here nothing is even requested. *)
Lemma abstract_rule_has_key_written :
  let st := after 8 phony_rule phony_cache
              [Sched.call_update []; Sched.continue 0 0; Sched.continue 0 0] in
  (exists task, Maek.heap phony_rule !! 0 = Some task /\ Maek.keyFn task = None)
  /\ JS.get (Maek.tasks phony_rule) ":all" = Some 0
  /\ Sched.history st = [Sched.wrote_cache]
  /\ Sched.cache_file st
     = Some [(":all", JS.JArr [JS.JArr [JS.JStr "make"; JS.JStr "b"]; JS.JStr "b:x"]);
             ("b", JS.JArr [JS.JArr [JS.JStr "make"; JS.JStr "b"]; JS.JStr "b:x"])].
Proof.
  split; [eexists; split; vm_compute; reflexivity|].
  repeat split; vm_compute; reflexivity.
Qed.

(** C3, as the code has it.  Take a configuration without cycles and one
    update.  A task that was marked failed still has the key it was given
    when the cache file was loaded: failing neither stores a key nor
    removes one.  The end of the update writes that key for each target of
    the task, and writes no entry for them only if none was loaded. *)
Theorem failed_task_keeps_loaded_key
    (stack : nat) (m : Maek.Maek) (rank : nat -> nat) (cache : option (JS.obj JS.json))
    (targets : list string) (tr : list Sched.event) (st : Sched.state) (t : nat) :
  ranked m rank ->
  Sched.exec stack (Sched.init m cache) (Sched.call_update targets :: tr) = Some st ->
  forallb (fun e => negb (is_update e)) tr = true ->
  In (Sched.marked_failed t) (Sched.history st) ->
  cachedKey_of st t = loaded_key m cache t
  /\ (forall target, JS.get (Maek.tasks m) target = Some t ->
        JS.get (Sched.cache_of (Sched.maek st)) target = loaded_key m cache t)
  /\ (forall k c choice st',
        Sched.continuations st !! k = Some c ->
        Sched.point c = Sched.await_build ->
        Sched.step stack st (Sched.continue k choice) = Some st' ->
        Sched.cache_file st' = Sched.cache_file st
        \/ exists written,
             Sched.cache_file st' = Some written
             /\ forall target, JS.get (Maek.tasks m) target = Some t ->
                  JS.get written target = loaded_key m cache t).
Proof.
  intros Hrk Hexec Hq Hfailed.
  assert (Hstored : Sched.count (Sched.is_stored_key t) st = 0).
  { destruct (exec_once rank stack _ (Sched.init m cache) st Hrk (init_once m cache) Hexec)
      as [[HL _] _].
    destruct (exec_balanced stack _ _ _ Hexec (init_balanced m cache) t) as [Hc _].
    pose proof (count_positive (Sched.is_marked_failed t) st _ Hfailed
                  (Nat.eqb_refl t)) as Hpos.
    specialize (HL t). unfold credit in Hc. lia. }
  assert (Hkey : cachedKey_of st t = loaded_key m cache t)
    by (apply (exec_keeps_loaded stack m cache targets tr st Hexec Hq), Hstored).
  assert (Hwritten : forall target, JS.get (Maek.tasks m) target = Some t ->
            JS.get (Sched.cache_of (Sched.maek st)) target = loaded_key m cache t).
  { intros target Hg. rewrite get_cache_of.
    destruct (exec_evolves stack _ _ _ Hexec) as [Htasks _]. simpl in Htasks.
    rewrite Htasks, Hg. exact Hkey. }
  split; [exact Hkey|]. split; [exact Hwritten|].
  intros k c choice st' Hc Hpt Hstep.
  destruct (update_writes_cache stack st k c choice st' Hc Hpt Hstep) as [H|H];
    [right | left; exact H].
  eexists. split; [exact H | exact Hwritten].
Qed.

Lemma single_rule_ranked : ranked single_rule (fun _ => 0).
Proof.
  intros t task target t' Ht Hin Hget.
  destruct t as [|t]; simpl in Ht; try discriminate; injection Ht as <-.
  destruct Hin.
Qed.

(** One rule whose key no longer matches the loaded one and whose command
    fails: the task keeps the loaded key. *)
Lemma failed_task_keeps_loaded_key_witness :
  let old := JS.JArr [JS.JArr [JS.JStr "cc"; JS.JStr "-o"; JS.JStr "out"]; JS.JStr "out:x"] in
  let new := JS.JArr [JS.JArr [JS.JStr "cc"; JS.JStr "-o"; JS.JStr "out"]; JS.JStr "out:y"] in
  let tr := [Sched.continue 0 0; Sched.continue 0 0; Sched.key_done 3 (inl new);
             Sched.continue 0 0; Sched.continue 2 0; Sched.continue 2 0;
             Sched.run_done 5 (Some (Maek.BuildError "cc exited with 1"));
             Sched.continue 2 0] in
  let st := after 8 single_rule single_cache (Sched.call_update ["out"] :: tr) in
  In (Sched.marked_failed 0) (Sched.history st)
  /\ cachedKey_of st 0 = Some old
  /\ JS.get (Sched.cache_of (Sched.maek st)) "out" = Some old.
Proof.
  intros old new tr st.
  assert (Hfailed : In (Sched.marked_failed 0) (Sched.history st))
    by (vm_compute; tauto).
  assert (Hexec : Sched.exec 8 (Sched.init single_rule single_cache)
                    (Sched.call_update ["out"] :: tr) = Some st)
    by (vm_compute; reflexivity).
  destruct (failed_task_keeps_loaded_key 8 single_rule (fun _ => 0) single_cache
              ["out"] tr st 0 single_rule_ranked Hexec eq_refl Hfailed)
    as (H1 & H2 & _).
  split; [exact Hfailed|]. split; [exact H1 | apply H2; vm_compute; reflexivity].
Defined.

(** C3 as stated fails: the rule's command fails, the update ends with
    [BuildError], and the cache that is written still has the entry of the
    failed task, with the key loaded at the start. *)
Lemma failed_task_entry_is_written :
  let old := JS.JArr [JS.JArr [JS.JStr "cc"; JS.JStr "-o"; JS.JStr "out"]; JS.JStr "out:x"] in
  let new := JS.JArr [JS.JArr [JS.JStr "cc"; JS.JStr "-o"; JS.JStr "out"]; JS.JStr "out:y"] in
  let st := after 8 single_rule single_cache
              [Sched.call_update ["out"];
               Sched.continue 0 0; Sched.continue 0 0; Sched.key_done 3 (inl new);
               Sched.continue 0 0; Sched.continue 2 0; Sched.continue 2 0;
               Sched.run_done 5 (Some (Maek.BuildError "cc exited with 1"));
               Sched.continue 2 0; Sched.continue 0 0; Sched.continue 0 0] in
  Sched.history st
  = [Sched.launched 0; Sched.called_keyFn 0; Sched.called_run 0;
     Sched.marked_failed 0; Sched.wrote_cache]
  /\ Sched.outcome_of st 0 = Some (Sched.Fulfilled None)
  /\ Sched.outcome_of st 1 = Some (Sched.Rejected (Maek.BuildError "for lack of out"))
  /\ (exists task, Sched.task_at st 0 = Some task /\ Maek.failed task = true)
  /\ Sched.cache_file st = Some [("out", old)].
Proof.
  repeat split; try (vm_compute; reflexivity).
  eexists. split; vm_compute; reflexivity.
Qed.

(** * Further properties *)

(** ** The job pool: progress *)

Section JobProgress.
Import Jobs.
Variable cpus : nat.

Lemma step_attended p e p' :
  step cpus p e = Some p' -> attended p -> attended p'.
Proof.
  unfold attended. destruct e as [| |j|j]; simpl.
  - intros [= <-] _ _. simpl. lia.
  - destruct (ticks p) as [|n]; [discriminate|].
    intros [= <-] _. unfold schedule; simpl.
    destruct (pending p) as [|next rest]; simpl; [congruence|].
    destruct (Nat.ltb_spec (active p) (JOBS cpus)); simpl; intros _.
    + lia.
    + unfold JOBS in *. lia.
  - destruct (mem j (running p)); [|discriminate]. intros [= <-]; simpl. auto.
  - destruct (mem j (settled p)); [|discriminate]. intros [= <-]; simpl. lia.
Qed.

Lemma exec_attended tr : forall p p',
  exec cpus p tr = Some p' -> attended p -> attended p'.
Proof.
  induction tr as [|e tr IH]; simpl; intros p p' Hexec Ha.
  - injection Hexec as <-. exact Ha.
  - destruct (step cpus p e) as [q|] eqn:Hstep; [|discriminate].
    eapply IH; [exact Hexec|]. eapply step_attended; eassumption.
Qed.

Lemma exec_app tr1 : forall tr2 p q,
  exec cpus p tr1 = Some q -> exec cpus p (tr1 ++ tr2) = exec cpus q tr2.
Proof.
  induction tr1 as [|e tr1 IH]; simpl; intros tr2 p q H.
  - injection H as <-. reflexivity.
  - destruct (step cpus p e) as [r|]; [|discriminate]. apply IH, H.
Qed.

(** The running jobs settle, one after the other. *)
Lemma settle_all : forall rs a pe ti se st su,
  exec cpus (mkPool a pe ti rs se st su) (map Settle rs)
  = Some (mkPool a pe ti [] (se ++ rs) st su).
Proof.
  induction rs as [|j rs IH]; intros a pe ti se st su; simpl.
  - rewrite app_nil_r. reflexivity.
  - rewrite Nat.eqb_refl. simpl. rewrite IH, <- app_assoc. reflexivity.
Qed.

(** Each settled job lets its [schedule] call continue. *)
Lemma resume_all : forall se a pe ti st su,
  length se <= a ->
  exec cpus (mkPool a pe ti [] se st su) (map Resume se)
  = Some (mkPool (a - length se) pe (ti + length se) [] [] st su).
Proof.
  induction se as [|j se IH]; intros a pe ti st su Hle; simpl.
  - rewrite Nat.sub_0_r, Nat.add_0_r. reflexivity.
  - destruct a as [|a]; [simpl in Hle; lia|].
    rewrite Nat.eqb_refl. simpl. unfold schedule_resume. simpl.
    rewrite Nat.eqb_refl. simpl in Hle. rewrite IH by lia.
    replace (ti + S (length se)) with (S ti + length se) by lia. reflexivity.
Qed.

(** With no job active, the queue is served one job per round. *)
Lemma serve_all : forall pe ti st su,
  (pe <> [] -> 0 < ti) ->
  exists tr ti',
    Forall (fun e => e <> Submit) tr
    /\ exec cpus (mkPool 0 pe ti [] [] st su) tr
       = Some (mkPool 0 [] ti' [] [] (st ++ pe) su).
Proof.
  induction pe as [|j pe IH]; intros ti st su Hti.
  - exists [], ti. split; [constructor|]. rewrite app_nil_r. reflexivity.
  - destruct ti as [|n]; [assert (0 < 0) by (apply Hti; discriminate); lia|].
    assert (Hn : pe <> [] -> 0 < S n) by lia.
    pose (st1 := st ++ [j]).
    destruct (IH (S n) st1 su Hn) as (tr & ti' & Hf & Hexec). subst st1.
    exists (Tick :: Settle j :: Resume j :: tr), ti'. split.
    + repeat (constructor; [discriminate|]). exact Hf.
    + simpl. unfold schedule. simpl.
      assert ((0 <? JOBS cpus) = true) as -> by (apply Nat.ltb_lt; unfold JOBS; lia).
      simpl. rewrite Nat.eqb_refl. simpl. rewrite Nat.eqb_refl.
      unfold schedule_resume. simpl. rewrite Nat.eqb_refl.
      rewrite Hexec, <- app_assoc. reflexivity.
Qed.

End JobProgress.

(** The pool does not stall: in every state it can reach, if a job is
    waiting in the queue then a call of [schedule] is queued for a coming
    tick, or a job is active and will queue one when it ends. *)
Theorem job_pool_never_stalls (cpus : nat) (tr : list Jobs.event) (p : Jobs.pool) :
  Jobs.exec cpus Jobs.init tr = Some p ->
  Jobs.pending p <> [] ->
  0 < Jobs.ticks p
  \/ (0 < Jobs.active p
      /\ Jobs.active p = length (Jobs.running p) + length (Jobs.settled p)).
Proof.
  intros Hexec Hpending.
  destruct (pool_exec_invariant cpus tr Jobs.init p Hexec) as [[Hacc _] _];
    [reflexivity | unfold Jobs.JOBS; simpl; lia | reflexivity |].
  assert (Ha : attended p).
  { eapply exec_attended; [exact Hexec|]. intros H. destruct (H eq_refl). }
  destruct (Ha Hpending) as [H|H]; [left; exact H | right; split; [exact H | lia]].
Qed.

(** Two processors, four submissions and three ticks: three jobs run and
    the fourth waits for one of them, with no tick queued. *)
Lemma job_pool_never_stalls_witness :
  let tr := [Jobs.Submit; Jobs.Submit; Jobs.Submit; Jobs.Submit;
             Jobs.Tick; Jobs.Tick; Jobs.Tick; Jobs.Tick] in
  exists p, Jobs.exec 2 Jobs.init tr = Some p
    /\ Jobs.pending p = [3] /\ Jobs.ticks p = 0
    /\ (0 < Jobs.ticks p
        \/ (0 < Jobs.active p
            /\ Jobs.active p = length (Jobs.running p) + length (Jobs.settled p))).
Proof.
  intros tr.
  assert (E : Jobs.exec 2 Jobs.init tr
              = Some (Jobs.mkPool 3 [3] 0 [0; 1; 2] [] [0; 1; 2] 4))
    by (vm_compute; reflexivity).
  eexists. split; [exact E|]. split; [reflexivity|]. split; [reflexivity|].
  apply (job_pool_never_stalls 2 tr _ E). discriminate.
Defined.

(** Every submitted job gets its turn: from any state the pool can reach,
    if the running jobs end and the event loop goes on, then without any
    further submission the pool comes to rest with an empty queue, no
    active job, and all the jobs submitted so far started, in the order of
    their submission. *)
Theorem job_pool_serves_every_job (cpus : nat) (tr : list Jobs.event) (p : Jobs.pool) :
  Jobs.exec cpus Jobs.init tr = Some p ->
  exists tr' p',
    Forall (fun e => e <> Jobs.Submit) tr'
    /\ Jobs.exec cpus p tr' = Some p'
    /\ Jobs.pending p' = [] /\ Jobs.active p' = 0
    /\ Jobs.running p' = [] /\ Jobs.settled p' = []
    /\ Jobs.submitted p' = Jobs.submitted p
    /\ Jobs.started p' = seq 0 (Jobs.submitted p).
Proof.
  intros Hexec.
  destruct (pool_exec_invariant cpus tr Jobs.init p Hexec) as [[Hacc _] Hfifo];
    [reflexivity | unfold Jobs.JOBS; simpl; lia | reflexivity |].
  assert (Ha : attended p).
  { eapply exec_attended; [exact Hexec|]. intros H. destruct (H eq_refl). }
  destruct p as [a pe ti rs se st su]. unfold attended in Ha. simpl in *.
  destruct (serve_all cpus pe (ti + length (se ++ rs)) st su) as (tr3 & ti' & Hf & H3).
  { intros Hpe. destruct (Ha Hpe) as [H|H]; rewrite length_app; lia. }
  exists (map Jobs.Settle rs ++ map Jobs.Resume (se ++ rs) ++ tr3). eexists.
  split; [|split; [|repeat split]].
  - rewrite !Forall_app. repeat split; [| |exact Hf];
      apply Forall_forall; intros e He; apply list_elem_of_In, in_map_iff in He;
      destruct He as (j & <- & _); discriminate.
  - rewrite (exec_app cpus _ _ _ _ (settle_all cpus rs a pe ti se st su)).
    assert (Hle : length (se ++ rs) <= a) by (rewrite length_app; lia).
    rewrite (exec_app cpus _ _ _ _ (resume_all cpus (se ++ rs) a pe ti st su Hle)).
    replace (a - length (se ++ rs)) with 0 by (rewrite length_app; lia).
    exact H3.
  - reflexivity.
  - reflexivity.
  - reflexivity.
  - reflexivity.
  - reflexivity.
  - exact Hfifo.
Qed.

(** One processor, three submissions, two of them running. *)
Lemma job_pool_serves_every_job_witness :
  let tr := [Jobs.Submit; Jobs.Submit; Jobs.Submit; Jobs.Tick; Jobs.Tick; Jobs.Tick] in
  exists p, Jobs.exec 1 Jobs.init tr = Some p
    /\ Jobs.running p = [0; 1] /\ Jobs.pending p = [2]
    /\ exists tr' p',
         Forall (fun e => e <> Jobs.Submit) tr'
         /\ Jobs.exec 1 p tr' = Some p'
         /\ Jobs.pending p' = [] /\ Jobs.active p' = 0
         /\ Jobs.running p' = [] /\ Jobs.settled p' = []
         /\ Jobs.submitted p' = Jobs.submitted p
         /\ Jobs.started p' = seq 0 (Jobs.submitted p).
Proof.
  intros tr.
  assert (E : Jobs.exec 1 Jobs.init tr
              = Some (Jobs.mkPool 2 [2] 0 [0; 1] [] [0; 1] 3))
    by (vm_compute; reflexivity).
  eexists. split; [exact E|]. split; [reflexivity|]. split; [reflexivity|].
  apply (job_pool_serves_every_job 1 tr _ E).
Defined.

(** ** Digests and the hash cache *)

(** The digest and the key comparison agree with the library functions
    they stand for on known values. *)
Example md5_base64_empty : Digest.md5_base64 EmptyString = "1B2M2Y8AsgTpgAmY7PhCfg==".
Proof. vm_compute. reflexivity. Qed.

Example md5_base64_abc : Digest.md5_base64 "abc" = "kAFQmDzST7DWlj99KOF/cg==".
Proof. vm_compute. reflexivity. Qed.

Example md5_base64_two_blocks :
  Digest.md5_base64
    "aaaaaaaaaaaaaaaaaaaaaaaaaaaaaaaaaaaaaaaaaaaaaaaaaaaaaaaaaaaaaaaaaaaaaa"
  = "D1xsTnQL/MCMPCbMsmc9Rg==".
Proof. vm_compute. reflexivity. Qed.

Example stringify_key :
  JS.JSON_stringify
    (JS.JArr [JS.JArr [JS.JStr "cp"; JS.JStr "a b"]; JS.JStr "out:x"; JS.JNum (-12); JS.JNull])
  = "[[" +:+ JS.quote "cp" +:+ "," +:+ JS.quote "a b" +:+ "]," +:+ JS.quote "out:x"
    +:+ ",-12,null]".
Proof. vm_compute. reflexivity. Qed.

Section Digests.
Import Maek.

Lemma length_append a b : String.length (a +:+ b) = String.length a + String.length b.
Proof. induction a as [|c a IH]; simpl; [reflexivity | rewrite IH; reflexivity]. Qed.

Lemma append_assoc a b c : (a +:+ b) +:+ c = a +:+ (b +:+ c).
Proof.
  induction a as [|x a IH]; [reflexivity|].
  change (String x ((a +:+ b) +:+ c) = String x (a +:+ (b +:+ c))).
  rewrite IH. reflexivity.
Qed.

Lemma le_bytes_length n x : length (Digest.le_bytes n x) = n.
Proof. revert x. induction n as [|n IH]; intros x; simpl; [reflexivity | rewrite IH; reflexivity]. Qed.

Lemma md5_length data : length (Digest.md5 data) = 16.
Proof.
  unfold Digest.md5.
  destruct (Digest.blocks _ _ _) as [[[a b] c] d].
  rewrite !length_app, !le_bytes_length. reflexivity.
Qed.

(** An MD5 digest in base64 takes 24 characters. *)
Lemma md5_base64_length data : String.length (Digest.md5_base64 data) = 24.
Proof.
  unfold Digest.md5_base64. pose proof (md5_length data) as H.
  destruct (Digest.md5 data) as [|b0 [|b1 [|b2 [|b3 [|b4 [|b5 [|b6 [|b7 [|b8 [|b9
    [|b10 [|b11 [|b12 [|b13 [|b14 [|b15 [|b16 r]]]]]]]]]]]]]]]]];
    try discriminate H.
  reflexivity.
Qed.

End Digests.

(** The entry of a file that cannot be read is never the entry of a file
    that can: when a file appears or disappears, the key of every task
    that hashes it changes. *)
Theorem unreadable_entry_differs_from_digest
    (files files' : gmap string string) (file data : string) :
  files !! file = None -> files' !! file = Some data ->
  Maek.digest_of files file = file +:+ ":x"
  /\ Maek.digest_of files' file = file +:+ ":" +:+ Digest.md5_base64 data
  /\ Maek.digest_of files file <> Maek.digest_of files' file.
Proof.
  intros Hnone Hsome. unfold Maek.digest_of. rewrite Hnone, Hsome.
  split; [reflexivity|]. split; [reflexivity|].
  intros H. apply (f_equal String.length) in H.
  rewrite !length_append, md5_base64_length in H. simpl in H. lia.
Qed.

Lemma unreadable_entry_differs_from_digest_witness :
  Maek.digest_of ∅ "a.h" = "a.h:x"
  /\ Maek.digest_of (<["a.h" := "abc"]> ∅) "a.h" = "a.h:kAFQmDzST7DWlj99KOF/cg=="
  /\ Maek.digest_of ∅ "a.h" <> Maek.digest_of (<["a.h" := "abc"]> ∅) "a.h".
Proof.
  assert (Hnone : (∅ : gmap string string) !! "a.h" = None) by reflexivity.
  assert (Hsome : (<["a.h" := "abc"]> ∅ : gmap string string) !! "a.h" = Some "abc")
    by (vm_compute; reflexivity).
  destruct (unreadable_entry_differs_from_digest ∅ (<["a.h" := "abc"]> ∅) "a.h" "abc"
              Hnone Hsome) as (H1 & H2 & H3).
  split; [exact H1|]. split; [|exact H3]. vm_compute. reflexivity.
Defined.

(** After [delete this.hashCache[file]] the next [hashFiles] reads the
    file again: the entry is the digest of what the file holds now, no
    hit is counted, and the entries of other paths are left alone.  The
    call after that is answered from the hash cache, as one hit, whatever
    the file holds by then. *)
Theorem hashFiles_reads_again_after_delete
    (h : Maek.Hashes) (files files' : gmap string string) (file : string) :
  JS.inherited file = false -> Maek.is_abstract file = false ->
  let h0 := Maek.invalidate h file in
  let h1 := snd (Maek.hashFiles h0 files [file]) in
  fst (Maek.hashFiles h0 files [file]) = [Maek.Hash (Maek.digest_of files file)]
  /\ Maek.hashCacheHits h1 = Maek.hashCacheHits h
  /\ (forall other, other <> file ->
        Maek.hashCache h1 !! other = Maek.hashCache h !! other)
  /\ fst (Maek.hashFiles h1 files' [file]) = [Maek.Hash (Maek.digest_of files file)]
  /\ Maek.hashCacheHits (snd (Maek.hashFiles h1 files' [file])) = S (Maek.hashCacheHits h).
Proof.
  intros Hname Habs h0 h1.
  assert (Hmiss : Maek.cached h0 file = None).
  { unfold Maek.cached, h0, Maek.invalidate. simpl.
    rewrite lookup_delete_eq, Hname. reflexivity. }
  assert (H1 : Maek.hashCache h1 = <[file := Maek.digest_of files file]>
                                     (delete file (Maek.hashCache h))
               /\ Maek.hashCacheHits h1 = Maek.hashCacheHits h).
  { unfold h1, Maek.hashFiles. simpl. rewrite Habs. simpl. rewrite Hmiss. simpl.
    split; [reflexivity | apply Nat.add_0_r]. }
  destruct H1 as [Hc Hh].
  assert (Hhit : Maek.cached h1 file = Some (Maek.Hash (Maek.digest_of files file))).
  { unfold Maek.cached. rewrite Hc, lookup_insert_eq. reflexivity. }
  clearbody h1.
  split; [|split; [|split; [|split]]].
  - unfold Maek.hashFiles. simpl. rewrite Habs. simpl.
    unfold Maek.hashFile. rewrite Hmiss. reflexivity.
  - exact Hh.
  - intros other Hne. rewrite Hc, lookup_insert_ne, lookup_delete_ne by congruence.
    reflexivity.
  - unfold Maek.hashFiles. simpl. rewrite Habs. simpl.
    unfold Maek.hashFile. rewrite Hhit. reflexivity.
  - unfold Maek.hashFiles. simpl. rewrite Habs. simpl. rewrite Hhit. simpl.
    rewrite Hh. lia.
Qed.

Lemma hashFiles_reads_again_after_delete_witness :
  let h := Maek.mkHashes (<["out" := "out:old"]> ∅) 3 in
  let files : gmap string string := <["out" := "abc"]> ∅ in
  let h0 := Maek.invalidate h "out" in
  fst (Maek.hashFiles h0 files ["out"]) = [Maek.Hash "out:kAFQmDzST7DWlj99KOF/cg=="]
  /\ Maek.hashCacheHits (snd (Maek.hashFiles h0 files ["out"])) = 3.
Proof.
  intros h files h0.
  destruct (hashFiles_reads_again_after_delete h files ∅ "out" eq_refl eq_refl)
    as (H1 & H2 & _).
  split; [|exact H2]. vm_compute. reflexivity.
Defined.

(** ** Discovered dependencies *)

Section Dependencies.
Import Maek.

Lemma ascii_compare_eq a b : Ascii.compare a b = Eq -> a = b.
Proof. apply Ascii.compare_eq_iff. Qed.

Lemma string_compare_trans : forall a b c,
  String.compare a b <> Gt -> String.compare b c <> Gt -> String.compare a c <> Gt.
Proof.
  induction a as [|x a IH]; intros [|y b] [|z c]; simpl; try congruence.
  destruct (Ascii.compare x y) eqn:Exy; try congruence.
  - apply ascii_compare_eq in Exy. subst y.
    destruct (Ascii.compare x z); try congruence. apply IH.
  - intros _. destruct (Ascii.compare y z) eqn:Eyz; try congruence.
    + apply ascii_compare_eq in Eyz. subst z. rewrite Exy. congruence.
    + intros _. unfold Ascii.compare in *.
      rewrite N.compare_lt_iff in Exy, Eyz.
      assert (H : (N_of_ascii x < N_of_ascii z)%N) by lia.
      apply N.compare_lt_iff in H. rewrite H. congruence.
Qed.

Lemma leb_trans a b c :
  String.leb a b = true -> String.leb b c = true -> String.leb a c = true.
Proof.
  unfold String.leb. intros H1 H2.
  pose proof (string_compare_trans a b c) as H.
  destruct (String.compare a b); try discriminate;
    destruct (String.compare b c); try discriminate;
    destruct (String.compare a c); try reflexivity;
    exfalso; apply H; congruence.
Qed.

Lemma sorted_strongly l :
  Sorted (fun a b => String.leb a b = true) l ->
  StronglySorted (fun a b => String.leb a b = true) l.
Proof. apply Sorted_StronglySorted. intros a b c. apply leb_trans. Qed.

(** Two sorted arrangements of the same strings are the same list. *)
Lemma sorted_unique : forall l l',
  StronglySorted (fun a b => String.leb a b = true) l ->
  StronglySorted (fun a b => String.leb a b = true) l' ->
  Permutation l l' -> l = l'.
Proof.
  induction l as [|x l IH]; intros l' Hs Hs' Hp.
  - apply Permutation_nil in Hp. congruence.
  - destruct l' as [|y l'].
    + apply Permutation_sym, Permutation_nil in Hp. discriminate.
    + inversion Hs as [|? ? Hsl Hx]; subst. inversion Hs' as [|? ? Hsl' Hy]; subst.
      rewrite List.Forall_forall in Hx, Hy.
      assert (x = y) as ->.
      { assert (Hin : In y (x :: l))
          by (eapply Permutation_in; [symmetry; exact Hp | left; reflexivity]).
        assert (Hin' : In x (y :: l'))
          by (eapply Permutation_in; [exact Hp | left; reflexivity]).
        destruct Hin as [->|Hin]; [reflexivity|].
        destruct Hin' as [->|Hin']; [reflexivity|].
        apply String.leb_antisym; [apply Hx, Hin | apply Hy, Hin']. }
      f_equal. apply IH; [exact Hsl | exact Hsl' |].
      eapply Permutation_cons_inv. exact Hp.
Qed.

Lemma sort_permutation l l' : Permutation l l' -> JS.sort l = JS.sort l'.
Proof.
  intros Hp. apply sorted_unique.
  - apply sorted_strongly, sort_sorted.
  - apply sorted_strongly, sort_sorted.
  - rewrite <- (sort_perm l), <- (sort_perm l'). exact Hp.
Qed.


End Dependencies.

(** The order in which the compiler lists the prerequisites in the
    dependency file does not matter: two files whose tokens after the
    leading [x :] are the same up to order give the same list of extra
    dependencies, hence the same key. *)
Theorem loadDeps_ignores_order_of_tokens (depends : list string) (text text' : string) :
  Permutation (skipn 2 (Maek.tokens_of text)) (skipn 2 (Maek.tokens_of text')) ->
  Maek.loadDeps depends (Some text) = Maek.loadDeps depends (Some text').
Proof.
  intros Hp. unfold Maek.loadDeps. rewrite (sort_permutation _ _ Hp). reflexivity.
Qed.

Lemma loadDeps_ignores_order_of_tokens_witness :
  let text := "x : main.cpp util.h \" +:+ JS.str JS.nl +:+ " Level.hpp" +:+ JS.str JS.nl in
  let text' := "x : Level.hpp main.cpp util.h" +:+ JS.str JS.nl in
  Maek.loadDeps ["main.cpp"] (Some text) = ["Level.hpp"; "util.h"]
  /\ Maek.loadDeps ["main.cpp"] (Some text) = Maek.loadDeps ["main.cpp"] (Some text').
Proof.
  intros text text'. split; [vm_compute; reflexivity|].
  apply loadDeps_ignores_order_of_tokens.
  change (Permutation ["main.cpp"; "util.h"; "Level.hpp"] ["Level.hpp"; "main.cpp"; "util.h"]).
  apply Permutation_sym, (Permutation_cons_app ["main.cpp"; "util.h"] []).
  reflexivity.
Defined.


(** ** [runCommand]: the printed command *)

Section PrintedCommand.

Lemma eqb_empty_append a b : a <> EmptyString -> String.eqb (a +:+ b) EmptyString = false.
Proof. destruct a; [congruence | reflexivity]. Qed.

Lemma shown_nonempty token : token <> EmptyString -> shown token <> EmptyString.
Proof.
  intros H. unfold shown. destruct (needs_quotes token); [discriminate | exact H].
Qed.

Lemma join_cons sep x y r : JS.join sep (x :: y :: r) = x +:+ sep +:+ JS.join sep (y :: r).
Proof. reflexivity. Qed.

Lemma prettyCommand_from pretty command :
  pretty <> EmptyString ->
  Forall (fun token => token <> EmptyString) command ->
  fold_left pretty_step command pretty
  = match command with
    | [] => pretty
    | _ => pretty +:+ " " +:+ JS.join " " (map shown command)
    end.
Proof.
  intros Hp Hf. revert pretty Hp.
  induction Hf as [|token rest Ht Hrest IH]; intros pretty Hp; [reflexivity|].
  cbn [fold_left]. unfold pretty_step at 2.
  destruct (String.eqb_spec pretty EmptyString) as [->|_]; [congruence|].
  rewrite IH.
  - destruct rest as [|token' rest]; cbn [map].
    + rewrite append_assoc. reflexivity.
    + rewrite join_cons, !append_assoc. reflexivity.
  - intros H. apply (f_equal String.length) in H. rewrite !length_append in H.
    destruct pretty; [congruence | simpl in H; lia].
Qed.

Lemma is_special_quote : is_special "'" = true.
Proof. reflexivity. Qed.

Lemma is_special_backslash : is_special JS.backslash = true.
Proof. reflexivity. Qed.




End PrintedCommand.

(** For a command without empty tokens, the printed command is the
    tokens separated by single spaces: a token that holds one of the
    special characters, or starts with [=] or [#], between single quotes
    with its own quotes escaped, every other token as it is. *)
Theorem prettyCommand_joins_shown_tokens (command : list string) :
  Forall (fun token => token <> EmptyString) command ->
  prettyCommand command = JS.join " " (map shown command).
Proof.
  intros Hf. unfold prettyCommand.
  destruct Hf as [|token rest Ht Hrest]; [reflexivity|].
  cbn [fold_left]. change (pretty_step EmptyString token) with (shown token).
  rewrite (prettyCommand_from (shown token) rest (shown_nonempty token Ht) Hrest).
  destruct rest; reflexivity.
Qed.

Lemma prettyCommand_joins_shown_tokens_witness :
  prettyCommand ["g++"; "-MT"; "x "; "-DNAME='maek'"; "#tag"]
  = "g++ -MT 'x ' '-DNAME='\''maek'\''' '#tag'".
Proof.
  rewrite (prettyCommand_joins_shown_tokens ["g++"; "-MT"; "x "; "-DNAME='maek'"; "#tag"]).
  - vm_compute. reflexivity.
  - repeat constructor; discriminate.
Defined.



(** ** The rule builders *)

Section Builders.
Import Maek.

Lemma has_dot_append a b : has_dot (a +:+ b) = has_dot a || has_dot b.
Proof.
  induction a as [|c a IH]; [reflexivity|].
  change (has_dot (String c (a +:+ b)) = has_dot (String c a) || has_dot b).
  cbn [has_dot]. rewrite IH, orb_assoc. reflexivity.
Qed.

Lemma strip_extension_no_dot s : has_dot s = false -> strip_extension s = s.
Proof.
  induction s as [|c s IH]; [reflexivity|]. cbn [has_dot strip_extension].
  intros H. apply orb_false_iff in H as [Hc Hs]. rewrite Hc, (IH Hs). reflexivity.
Qed.

Lemma strip_extension_last_dot a b :
  has_dot b = false -> strip_extension (a +:+ String "." b) = a.
Proof.
  intros Hb. induction a as [|c a IH].
  - change (strip_extension (String "." b) = EmptyString).
    cbn [strip_extension]. rewrite Ascii.eqb_refl, Hb. reflexivity.
  - change (strip_extension (String c (a +:+ String "." b)) = String c a).
    cbn [strip_extension]. rewrite has_dot_append. cbn [has_dot].
    rewrite Ascii.eqb_refl, orb_true_r, andb_false_r, IH. reflexivity.
Qed.


Lemma install_heap_new m targets task :
  heap (install m targets task) !! length (heap m) = Some task.
Proof. simpl. rewrite lookup_app_r, Nat.sub_diag by lia. reflexivity. Qed.

Lemma install_heap_inv m targets task t k :
  heap (install m targets task) !! t = Some k ->
  (t < length (heap m) /\ heap m !! t = Some k) \/ (t = length (heap m) /\ k = task).
Proof.
  simpl. intros H. destruct (Nat.lt_ge_cases t (length (heap m))) as [Hlt|Hge].
  - left. rewrite lookup_app_l in H by exact Hlt. auto.
  - right. rewrite lookup_app_r in H by exact Hge.
    destruct (t - length (heap m)) as [|n] eqn:E; simpl in H; [|discriminate].
    split; [lia | congruence].
Qed.

Lemma install_tasks m targets task target :
  JS.get (tasks (install m targets task)) target
  = if existsb (String.eqb target) targets then Some (length (heap m))
    else JS.get (tasks m) target.
Proof. apply install_get. Qed.

Lemma existsb_eqb_In target targets :
  existsb (String.eqb target) targets = true <-> In target targets.
Proof.
  rewrite existsb_exists. split.
  - intros (x & Hin & Heq). apply String.eqb_eq in Heq. subst. exact Hin.
  - intros Hin. exists target. split; [exact Hin | apply String.eqb_refl].
Qed.

Lemma install_registered m targets task :
  registered m -> registered (install m targets task).
Proof.
  intros Hr target t. rewrite install_tasks.
  unfold install. cbn [heap]. rewrite length_app. simpl.
  destruct (existsb _ targets); [intros [= <-]; lia|].
  intros H. apply Hr in H. lia.
Qed.

Lemma list_max_le_in l x : In x l -> x <= list_max l.
Proof.
  induction l as [|y l IH]; simpl; [tauto|].
  intros [->|H]; [lia | specialize (IH H); lia].
Qed.

Lemma rank_above_gt rank n t : t < n -> rank t < rank_above rank n.
Proof.
  intros Hlt. unfold rank_above. apply Nat.lt_succ_r, list_max_le_in.
  apply in_map, in_seq. lia.
Qed.

(** A task added for targets that nobody asked for so far, and that does
    not ask for its own targets, leaves the configuration without
    cycle. *)
Lemma install_ranked m rank targets task :
  registered m -> ranked m rank -> unrequested m targets ->
  (forall p, In p (requests_of task) -> ~ In p targets) ->
  ranked (install m targets task) (extend_rank rank (length (heap m))).
Proof.
  intros Hreg Hrk Hun Hself t k target t' Hk Hin Hget.
  rewrite install_tasks in Hget. unfold extend_rank.
  destruct (install_heap_inv _ _ _ _ _ Hk) as [[Hlt Hold]|[-> ->]].
  - destruct (existsb (String.eqb target) targets) eqn:E.
    + apply existsb_eqb_In in E. destruct (Hun t k target Hold Hin E).
    + pose proof (Hreg _ _ Hget) as Hlt'.
      destruct (Nat.eqb_spec t' (length (heap m))); [lia|].
      destruct (Nat.eqb_spec t (length (heap m))); [lia|].
      apply (Hrk t k target t' Hold Hin Hget).
  - destruct (existsb (String.eqb target) targets) eqn:E.
    + apply existsb_eqb_In in E. destruct (Hself target Hin E).
    + pose proof (Hreg _ _ Hget) as Hlt'.
      destruct (Nat.eqb_spec t' (length (heap m))); [lia|].
      rewrite Nat.eqb_refl. apply rank_above_gt, Hlt'.
Qed.

Lemma requests_twice (l : list string) p : In p (l ++ l) -> In p l.
Proof. intros H. apply in_app_or in H. tauto. Qed.

End Builders.

(** What is cut off a source name is what follows its last dot, whatever
    that is: a name without dot is left whole, and a dot in a directory
    name counts when the file name itself has none. *)
Theorem strip_extension_cuts_at_last_dot (a b : string) :
  has_dot b = false ->
  strip_extension (a +:+ String "." b) = a /\ strip_extension b = b.
Proof.
  intros Hb. split; [apply strip_extension_last_dot, Hb | apply strip_extension_no_dot, Hb].
Qed.

Lemma strip_extension_cuts_at_last_dot_witness :
  strip_extension "src/game.test.cpp" = "src/game.test"
  /\ strip_extension "v1.2/main" = "v1"
  /\ strip_extension "2/main" = "2/main".
Proof.
  destruct (strip_extension_cuts_at_last_dot "v1" "2/main" eq_refl) as [H1 H2].
  split; [reflexivity|]. split; [exact H1 | exact H2].
Defined.


(** ** Configurations without cycle *)

Section Acyclic.
Import Maek.

Lemma new_Maek_registered OS : registered (new_Maek OS).
Proof. intros target t H. discriminate H. Qed.

Lemma new_Maek_ranked OS rank : ranked (new_Maek OS) rank.
Proof. intros t task target t' H. discriminate H. Qed.

Lemma RULE_requests targets prerequisites recipe keyFn_ label_ p :
  In p (requests_of (mkTask (run_RULE targets prerequisites recipe) keyFn_ label_
                       None None None false)) ->
  keyFn_ = None \/ keyFn_ = Some (key_RULE targets prerequisites recipe) ->
  In p prerequisites.
Proof.
  unfold requests_of. simpl. intros H [-> | ->]; simpl in H.
  - rewrite app_nil_r in H. exact H.
  - apply requests_twice, H.
Qed.

End Acyclic.

(** Rules declared bottom-up make no cycle.  Take a configuration
    without cycle in which every target leads to a task.  A further
    [RULE], [CPP] or [LINK] whose targets no earlier task asks for, and
    which does not ask for a target of its own, gives again such a
    configuration: the new task is ranked above all the others.  (A
    target named [__proto__] is left aside.) *)
Theorem builders_keep_configuration_acyclic (m : Maek.Maek) (rank : nat -> nat) :
  registered m -> ranked m rank ->
  let rank' := extend_rank rank (length (Maek.heap m)) in
  (forall targets prerequisites recipe,
     ~ In "__proto__" targets ->
     unrequested m targets ->
     (forall p, In p prerequisites -> ~ In p targets) ->
     registered (Maek.RULE m targets prerequisites recipe)
     /\ ranked (Maek.RULE m targets prerequisites recipe) rank')
  /\ (forall OS cppFile objFileBase localOptions m' objFile,
        Maek.CPP OS m cppFile objFileBase localOptions = Maek.Returns (m', objFile) ->
        objFile <> "__proto__" ->
        unrequested m [objFile] ->
        ~ In objFile (cppFile :: Maek.depends (Maek.combineOptions m localOptions)) ->
        registered m' /\ ranked m' rank')
  /\ (forall OS objFiles exeFileBase localOptions m' exeFile,
        Maek.LINK OS m objFiles exeFileBase localOptions = Maek.Returns (m', exeFile) ->
        exeFile <> "__proto__" ->
        unrequested m [exeFile] ->
        ~ In exeFile (objFiles ++ Maek.depends (Maek.combineOptions m localOptions)) ->
        registered m' /\ ranked m' rank').
Proof.
  intros Hreg Hrk rank'. split; [|split].
  - intros targets prerequisites recipe _ Hun Hself. unfold Maek.RULE.
    split; [apply install_registered, Hreg|].
    apply install_ranked; try assumption.
    intros p Hp. apply Hself. eapply RULE_requests; [exact Hp|].
    destruct (negb (existsb Maek.is_abstract targets)); auto.
  - intros OS cppFile objFileBase localOptions m' objFile HCPP _ Hun Hself.
    assert (E : exists task,
               m' = Maek.install m [objFile] task
               /\ requests_of task
                  = (cppFile :: Maek.depends (Maek.combineOptions m localOptions))
                    ++ (cppFile :: Maek.depends (Maek.combineOptions m localOptions))).
    { destruct OS; cbn -[Maek.install] in HCPP; try discriminate HCPP;
        injection HCPP as <- <-; eexists; split; reflexivity. }
    destruct E as (task & -> & Hreq).
    split; [apply install_registered, Hreg|].
    apply install_ranked; try assumption.
    intros p Hp [<-|[]]. rewrite Hreq in Hp. apply Hself, requests_twice, Hp.
  - intros OS objFiles exeFileBase localOptions m' exeFile HLINK _ Hun Hself.
    assert (E : exists task,
               m' = Maek.install m [exeFile] task
               /\ requests_of task
                  = (objFiles ++ Maek.depends (Maek.combineOptions m localOptions))
                    ++ (objFiles ++ Maek.depends (Maek.combineOptions m localOptions))).
    { destruct OS; cbn -[Maek.install] in HLINK; try discriminate HLINK;
        injection HLINK as <- <-; eexists; split; reflexivity. }
    destruct E as (task & -> & Hreq).
    split; [apply install_registered, Hreg|].
    apply install_ranked; try assumption.
    intros p Hp [<-|[]]. rewrite Hreq in Hp. apply Hself, requests_twice, Hp.
Qed.

(** An object file compiled from one source, then a program linked from
    it. *)
Lemma builders_keep_configuration_acyclic_witness :
  exists m1 m2,
    Maek.CPP Maek.linux (Maek.new_Maek Maek.linux) "main.cpp" "objs/main" Maek.no_options
    = Maek.Returns (m1, "objs/main.o")
    /\ Maek.LINK Maek.linux m1 ["objs/main.o"] "dist/main" Maek.no_options
       = Maek.Returns (m2, "dist/main")
    /\ registered m2
    /\ ranked m2 (extend_rank (extend_rank (fun _ => 0) 0) 1).
Proof.
  eexists _, _. split; [reflexivity|]. split; [reflexivity|].
  destruct (builders_keep_configuration_acyclic (Maek.new_Maek Maek.linux) (fun _ => 0)
              (new_Maek_registered _) (new_Maek_ranked _ _)) as (_ & HCPP & _).
  destruct (HCPP Maek.linux "main.cpp" "objs/main" Maek.no_options _ _ eq_refl)
    as [Hreg1 Hrk1].
  { discriminate. }
  { intros t task target H. discriminate H. }
  { simpl. intros [H|[]]. discriminate H. }
  destruct (builders_keep_configuration_acyclic _ _ Hreg1 Hrk1) as (_ & _ & HLINK).
  apply (HLINK Maek.linux ["objs/main.o"] "dist/main" Maek.no_options _ _ eq_refl).
  - discriminate.
  - intros t task target Ht Hin [<-|[]].
    destruct t as [|t]; simpl in Ht; [|discriminate Ht]. injection Ht as <-.
    simpl in Hin. repeat destruct Hin as [Hin|Hin]; try discriminate Hin. destruct Hin.
  - simpl. intros [H|[]]. discriminate H.
Defined.

(** ** The sample project *)

Section SampleProject.
Import Maek.

Lemma Maekfile_rules_ranked OS m :
  Maekfile_rules OS = Some (Returns m) -> registered m /\ ranked m Maekfile_rank.
Proof.
  intros H. destruct OS; vm_compute in H; [discriminate H| |]; injection H as <-.
  - split.
    + intros target t Hget. apply get_In in Hget. cbn in Hget.
      repeat (destruct Hget as [Hget|Hget]; [injection Hget as <- <-; simpl; lia|]).
      destruct Hget.
    + intros t task target t' Ht Hin Hget.
      do 7 (destruct t as [|t]; [injection Ht as <-; vm_compute in Hin;
        repeat (destruct Hin as [<-|Hin];
                [vm_compute in Hget;
                 first [discriminate Hget | injection Hget as <-; simpl; lia]|]);
        destruct Hin|]).
      discriminate Ht.
  - split.
    + intros target t Hget. apply get_In in Hget. cbn in Hget.
      repeat (destruct Hget as [Hget|Hget]; [injection Hget as <- <-; simpl; lia|]).
      destruct Hget.
    + intros t task target t' Ht Hin Hget.
      do 7 (destruct t as [|t]; [injection Ht as <-; vm_compute in Hin;
        repeat (destruct Hin as [<-|Hin];
                [vm_compute in Hget;
                 first [discriminate Hget | injection Hget as <-; simpl; lia]|]);
        destruct Hin|]).
      discriminate Ht.
Qed.

End SampleProject.

(** The rules of the sample [Maekfile] make no cycle: its four objects,
    two programs and the test rule are ranked in that order, and every
    target leads to a task.  Hence whatever targets are asked for and
    whatever the course of events, an update starts each of the seven
    tasks at most once and calls its [run] at most once.  On Windows the
    first [CPP] throws and no rule is declared. *)
Theorem Maekfile_runs_each_task_once (OS : Maek.platform) (m : Maek.Maek) :
  Maekfile_rules OS = Some (Maek.Returns m) ->
  OS <> Maek.windows
  /\ Maekfile_rules Maek.windows
     = Some (Maek.Throws (Maek.Error "TODO: write CPP rule for windows."))
  /\ JS.keys (Maek.tasks m)
     = ["objs/Player.o"; "objs/Level.o"; "objs/game.o"; "objs/test.o";
        "dist/game"; "test/game-test"; ":test"]
  /\ registered m /\ ranked m Maekfile_rank
  /\ forall stack cache targets tr st t,
       Sched.exec stack (Sched.init m cache) (Sched.call_update targets :: tr) = Some st ->
       Sched.launches t st <= 1 /\ Sched.runs t st <= 1.
Proof.
  intros H. destruct (Maekfile_rules_ranked OS m H) as [Hreg Hrk].
  split; [|split; [|split; [|split; [|split]]]].
  - intros ->. vm_compute in H. discriminate H.
  - vm_compute. reflexivity.
  - destruct OS; vm_compute in H; [discriminate H| |]; injection H as <-; reflexivity.
  - exact Hreg.
  - exact Hrk.
  - intros stack cache targets tr st t Hexec.
    destruct (exec_once Maekfile_rank stack _ (Sched.init m cache) st Hrk
                (init_once m cache) Hexec) as [[HL _] _].
    pose proof (exec_balanced stack _ _ _ Hexec (init_balanced m cache)) as Hb.
    pose proof (balanced_runs st t Hb). specialize (HL t). lia.
Qed.

Lemma Maekfile_runs_each_task_once_witness :
  exists m, Maekfile_rules Maek.linux = Some (Maek.Returns m)
    /\ JS.get (Maek.tasks m) "dist/game" = Some 4
    /\ ranked m Maekfile_rank.
Proof.
  eexists. split; [vm_compute; reflexivity|]. split; [vm_compute; reflexivity|].
  refine (proj1 (proj2 (proj2 (proj2 (proj2
            (Maekfile_runs_each_task_once Maek.linux _ _)))))).
  vm_compute. reflexivity.
Defined.

(** ** The cache file along a run *)

Section Written.
Import Maek Sched.
Variable stack : nat.

Lemma load_keys_cache_file cache : forall st,
  cache_file (load_keys cache st) = cache_file st.
Proof.
  unfold load_keys. induction cache as [|x l IH]; intros st; simpl; [reflexivity|].
  rewrite IH. destruct (JS.index _ (fst x)); try reflexivity.
  destruct (String.eqb _ _); reflexivity.
Qed.

Lemma reload_cache_file st : cache_file (reload st) = cache_file st.
Proof.
  unfold reload. destruct (cache_file (clear_keys st)) eqn:E.
  - rewrite load_keys_cache_file, clear_keys_cache_file. reflexivity.
  - apply clear_keys_cache_file.
Qed.

Lemma waiting_plain P st st' :
  continuations st' = continuations st -> waiting P st' = waiting P st.
Proof. intros H. unfold waiting. rewrite H. reflexivity. Qed.

Lemma waiting_settle P p o st : waiting P (settle p o st) = waiting P st.
Proof. apply waiting_plain, settle_continuations. Qed.

Lemma waiting_sync P st st' :
  (forall c, opening c -> P (point c) = false) -> sync st st' ->
  waiting P st' = waiting P st.
Proof.
  intros HP Hs. destruct (sync_continuations _ _ Hs) as (cs & Hc & Hf).
  unfold waiting. rewrite Hc, List.filter_app, length_app.
  assert (List.filter (fun c => P (point c)) cs = []) as ->; [|simpl; lia].
  clear Hc. induction Hf as [|c cs Ho _ IH]; simpl; [reflexivity|].
  rewrite (HP c Ho). exact IH.
Qed.

Lemma wrote_not_prelude n : prelude n -> is_wrote_cache n = false.
Proof. destruct n; simpl; tauto. Qed.

Lemma build_not_opening c : opening c -> at_build (point c) = false.
Proof. unfold opening. destruct (point c); simpl; tauto. Qed.

Lemma update_written targets st :
  written (update stack targets st) = written st
  /\ building (update stack targets st) = S (building st)
  /\ cache_file (update stack targets st) = cache_file st.
Proof.
  unfold update. simpl.
  set (st0 := with_promises (promises st ++ [mkPromise of_update None]) st).
  pose proof (updateTargets_sync (launch stack) (launch_sync stack)
                targets "user" (reload st0)) as Hu.
  destruct (updateTargets (launch stack) targets "user" (reload st0)) as [st1 u].
  simpl in Hu. unfold written, building. rewrite waiting_suspend. simpl.
  change (count is_wrote_cache (suspend (mkContinuation await_build [u] (length (promises st))) st1))
    with (count is_wrote_cache st1).
  rewrite (count_sync _ _ _ wrote_not_prelude Hu), (waiting_sync _ _ _ build_not_opening Hu).
  rewrite (sync_cache_file _ _ Hu), reload_cache_file.
  unfold count, waiting. rewrite reload_history, reload_continuations.
  repeat split. simpl. lia.
Qed.

Ltac flat_state :=
  unfold caught;
  rewrite ?count_settle, ?waiting_settle, ?settle_cache_file, ?waiting_suspend;
  unfold count, waiting;
  cbn [history continuations cache_file record modify_task with_maek with_cache_file
       expect suspend with_external with_continuations point];
  rewrite ?List.filter_app, ?length_app; cbn [List.filter length is_wrote_cache at_build].

Lemma moved_written st st' :
  moved stack st st' ->
  (written st' = written st /\ building st' <= building st
   /\ cache_file st' = cache_file st)
  \/ (written st' = S (written st) /\ S (building st') = building st).
Proof.
  intros Hm. destruct Hm as [k c st1 Hk Hres|p by_ o _ _ _].
  2: { left. unfold written, building, answered.
       rewrite count_settle, waiting_settle, settle_cache_file. auto. }
  pose proof (waiting_delete at_build k c st Hk) as Hw.
  set (st0 := with_continuations (delete k (continuations st)) st) in *.
  assert (Hc : count is_wrote_cache st0 = count is_wrote_cache st) by reflexivity.
  assert (Hf : cache_file st0 = cache_file st) by reflexivity.
  unfold written, building. rewrite Hw, <- Hc, <- Hf. clearbody st0. clear Hw Hc Hf Hk.
  destruct Hres as [targets Hpt _|targets p e Hpt _ _ _|t1 p e Hpt _ _
                   |t1 p v task Hpt _ _ _ _|t1 p v task Hpt _ _ _ _
                   |t1 p v task kf Hpt _ _ _ _|t1 p v task Hpt _ _ _ _
                   |t1 p v Hpt _ _|p v Hpt _ _|p e Hpt _ _|p o Hpt _ _ _|p m Hpt _ _].
  - left. flat_state. repeat split; lia.
  - left. flat_state. repeat split; lia.
  - left. destruct e; flat_state; repeat split; lia.
  - left. flat_state. repeat split; lia.
  - left. pose proof (call_run_sync (launch stack) (launch_sync stack) t1 task st0) as Hs.
    rewrite waiting_suspend. cbn [point at_build].
    change (count is_wrote_cache (suspend ?c ?s)) with (count is_wrote_cache s).
    change (cache_file (suspend ?c ?s)) with (cache_file s).
    rewrite (count_sync _ _ _ wrote_not_prelude Hs),
      (waiting_sync _ _ _ build_not_opening Hs), (sync_cache_file _ _ Hs).
    repeat split; lia.
  - left.
    pose proof (call_keyFn_sync (launch stack) (launch_sync stack) t1 task kf st0) as Hs.
    rewrite waiting_suspend. cbn [point at_build].
    change (count is_wrote_cache (suspend ?c ?s)) with (count is_wrote_cache s).
    change (cache_file (suspend ?c ?s)) with (cache_file s).
    rewrite (count_sync _ _ _ wrote_not_prelude Hs),
      (waiting_sync _ _ _ build_not_opening Hs), (sync_cache_file _ _ Hs).
    repeat split; lia.
  - left. flat_state. repeat split; lia.
  - left. flat_state. repeat split; lia.
  - left. flat_state. repeat split; lia.
  - left. flat_state. repeat split; lia.
  - right. rewrite Hpt. flat_state. split; lia.
  - left. rewrite Hpt. flat_state. repeat split; lia.
Qed.

Lemma step_written st e st' :
  step stack st e = Some st' ->
  written st <= written st'
  /\ written st' + building st' <= written st + building st + (if is_update e then 1 else 0)
  /\ (written st' = written st -> cache_file st' = cache_file st).
Proof.
  intros H. destruct (is_update e) eqn:He.
  - destruct e; try discriminate He. unfold step in H.
    destruct (halted st); [discriminate|]. injection H as <-.
    destruct (update_written targets st) as (-> & -> & ->). repeat split; lia.
  - destruct (step_moved stack st e st' H He) as [_ Hm].
    destruct (moved_written st st' Hm) as [(-> & Hb & ->)|[-> Hb]]; repeat split; lia.
Qed.

Lemma exec_written tr : forall st st',
  exec stack st tr = Some st' ->
  written st <= written st'
  /\ written st' + building st' <= written st + building st + updates tr
  /\ (written st' = written st -> cache_file st' = cache_file st).
Proof.
  induction tr as [|e tr IH]; simpl; intros st st' H.
  - injection H as <-. unfold updates. simpl. repeat split; lia.
  - destruct (step stack st e) as [st1|] eqn:E; [|discriminate].
    destruct (step_written st e st1 E) as (H1 & H2 & H3).
    destruct (IH st1 st' H) as (H4 & H5 & H6).
    unfold updates in *. simpl. split; [lia|]. split.
    + destruct (is_update e); simpl; lia.
    + intros Heq. rewrite H6 by lia. apply H3. lia.
Qed.

End Written.

(** The cache file is written by the end of [update] and by nothing
    else: along any run of events, the cache was written at most once for
    each call of [update] (a call still waiting for its build has not
    written yet), and as long as no write is noted the file is what it
    was at the start. *)
Theorem cache_file_written_once_per_update
    (stack : nat) (m : Maek.Maek) (cache : option (JS.obj JS.json))
    (tr : list Sched.event) (st : Sched.state) :
  Sched.exec stack (Sched.init m cache) tr = Some st ->
  Sched.count is_wrote_cache st + Sched.waiting at_build st <= updates tr
  /\ (Sched.count is_wrote_cache st = 0 -> Sched.cache_file st = cache).
Proof.
  intros Hexec. destruct (exec_written stack tr _ _ Hexec) as (_ & H2 & H3).
  unfold written, building in *. split.
  - assert (Sched.count is_wrote_cache (Sched.init m cache) = 0) as E1 by reflexivity.
    assert (Sched.waiting at_build (Sched.init m cache) = 0) as E2 by reflexivity.
    lia.
  - intros H0. apply H3. rewrite H0. reflexivity.
Qed.

(** One rule, no cache file: the update starts the rule, and before its
    command has ended the cache file is still missing. *)
Lemma cache_file_written_once_per_update_witness :
  let tr := [Sched.call_update ["out"]; Sched.continue 0 0; Sched.continue 0 0] in
  let st := after 8 single_rule None tr in
  Sched.history st = [Sched.launched 0; Sched.called_run 0]
  /\ Sched.count is_wrote_cache st + Sched.waiting at_build st <= 1
  /\ Sched.cache_file st = None.
Proof.
  intros tr st.
  assert (Hexec : Sched.exec 8 (Sched.init single_rule None) tr = Some st)
    by (vm_compute; reflexivity).
  destruct (cache_file_written_once_per_update 8 single_rule None tr st Hexec) as [H1 H2].
  split; [vm_compute; reflexivity|]. split; [exact H1|].
  apply H2. vm_compute. reflexivity.
Defined.

(** ** Failure marks *)

Section Failed.
Import Maek Sched.
Variable stack : nat.

Lemma marks_failures_same st st' :
  (forall t, task_at st' t = None <-> task_at st t = None) ->
  (forall t, failed_of st' t = failed_of st t) ->
  (forall t, count (is_marked_failed t) st' = count (is_marked_failed t) st) ->
  marks_failures st st'.
Proof. intros H1 H2 H3 t. split; [apply H1 | left; auto]. Qed.

Lemma marks_failures_refl st : marks_failures st st.
Proof. apply marks_failures_same; intros t; tauto. Qed.

Lemma marks_failures_plain st st' :
  maek st' = maek st -> history st' = history st -> marks_failures st st'.
Proof.
  intros Hm Hh. apply marks_failures_same; intros t.
  - unfold task_at. rewrite Hm. tauto.
  - unfold failed_of, task_at. rewrite Hm. reflexivity.
  - unfold count. rewrite Hh. reflexivity.
Qed.

Lemma marks_failures_trans a b c :
  marks_failures a b -> marks_failures b c ->
  (forall t, count (is_marked_failed t) b = count (is_marked_failed t) a) ->
  marks_failures a c.
Proof.
  intros H1 H2 Hc t. destruct (H1 t) as [N1 [[F1 C1]|[C1 _]]]; [|rewrite Hc in C1; lia].
  destruct (H2 t) as [N2 D2]. split; [tauto|].
  destruct D2 as [[F2 C2]|[C2 F2]].
  - left. split; congruence.
  - right. split; [congruence|]. intros Hn. apply F2. tauto.
Qed.

Lemma marked_not_prelude t n : prelude n -> is_marked_failed t n = false.
Proof. destruct n; simpl; tauto. Qed.

Lemma heap_related_none {R : Task -> Task -> Prop} (l l' : list Task) t :
  Forall2 R l l' -> (l' !! t = None <-> l !! t = None).
Proof.
  intros H. pose proof (Forall2_length _ _ _ H) as Hlen.
  rewrite !lookup_ge_None. lia.
Qed.

Lemma sync_marks_failures st st' : sync st st' -> marks_failures st st'.
Proof.
  intros Hs. pose proof (sync_heap _ _ Hs) as Hh.
  apply marks_failures_same; intros t.
  - apply (heap_related_none _ _ t Hh).
  - unfold failed_of, task_at.
    destruct (heap (maek st) !! t) as [k|] eqn:Hk.
    + destruct (Forall2_lookup_l _ _ _ _ _ Hh Hk) as (k' & -> & Hg). apply Hg.
    + destruct (heap (maek st') !! t) as [k'|] eqn:Hk'; [|reflexivity].
      destruct (Forall2_lookup_r _ _ _ _ _ Hh Hk') as (k & Hk2 & _). congruence.
  - apply count_sync; [apply marked_not_prelude | exact Hs].
Qed.

Lemma reload_marks_failures st : marks_failures st (reload st).
Proof.
  destruct (reload_heap st) as [Hh _].
  apply marks_failures_same; intros t.
  - apply (heap_related_none _ _ t Hh).
  - unfold failed_of, task_at.
    destruct (heap (maek st) !! t) as [k|] eqn:Hk.
    + destruct (Forall2_lookup_l _ _ _ _ _ Hh Hk) as (k' & -> & Hg). apply Hg.
    + destruct (heap (maek (reload st)) !! t) as [k'|] eqn:Hk'; [|reflexivity].
      destruct (Forall2_lookup_r _ _ _ _ _ Hh Hk') as (k & Hk2 & _). congruence.
  - unfold count. rewrite reload_history. reflexivity.
Qed.

Lemma modify_marks_failures t f st :
  (forall k, failed (f k) = failed k) -> marks_failures st (modify_task t f st).
Proof.
  intros Hf. apply marks_failures_same; intros t'.
  - unfold task_at. simpl. rewrite !lookup_ge_None, length_alter. tauto.
  - unfold failed_of, task_at. simpl. destruct (decide (t = t')) as [->|Hne].
    + rewrite list_lookup_alter_eq. destruct (heap (maek st) !! t'); simpl; auto.
    + rewrite list_lookup_alter_ne by exact Hne. reflexivity.
  - reflexivity.
Qed.

Lemma settle_marks_failures p o st : marks_failures st (settle p o st).
Proof. apply marks_failures_plain; [apply settle_maek | apply settle_history]. Qed.

Lemma caught_marks_failures t e me st : marks_failures st (caught t e me st).
Proof.
  destruct e as [msg|msg]; unfold caught; [|apply settle_marks_failures].
  intros t'. split.
  - unfold task_at. rewrite settle_maek. simpl.
    rewrite !lookup_ge_None, length_alter. tauto.
  - rewrite count_settle, count_record.
    change (count (is_marked_failed t') (modify_task t set_failed st))
      with (count (is_marked_failed t') st).
    unfold failed_of, task_at. rewrite settle_maek. simpl.
    destruct (Nat.eqb_spec t' t) as [->|Hne].
    + right. split; [lia|]. intros Hn. rewrite list_lookup_alter_eq.
      destruct (heap (maek st) !! t); [reflexivity | congruence].
    + left. rewrite list_lookup_alter_ne by congruence. split; [reflexivity | lia].
Qed.

Lemma update_marks_failures targets st : marks_failures st (update stack targets st).
Proof.
  unfold update. simpl.
  set (st0 := with_promises (promises st ++ [mkPromise of_update None]) st).
  pose proof (updateTargets_sync (launch stack) (launch_sync stack)
                targets "user" (reload st0)) as Hu.
  destruct (updateTargets (launch stack) targets "user" (reload st0)) as [st1 u].
  simpl in Hu.
  apply (marks_failures_trans _ (reload st0)).
  - apply (marks_failures_trans _ st0);
      [apply marks_failures_plain; reflexivity | apply reload_marks_failures | reflexivity].
  - apply (marks_failures_trans _ st1);
      [apply sync_marks_failures, Hu | apply marks_failures_plain; reflexivity|].
    intros t. apply count_sync; [apply marked_not_prelude | exact Hu].
  - intros t. unfold count. rewrite reload_history. reflexivity.
Qed.

Lemma resumed_marks_failures c st st' : resumed stack c st st' -> marks_failures st st'.
Proof.
  intros Hres.
  destruct Hres as [targets _ _|targets p e _ _ _ _|t1 p e _ _ _
                   |t1 p v task _ _ _ _ _|t1 p v task _ _ _ _ _
                   |t1 p v task kf _ _ _ _ _|t1 p v task _ _ _ _ _
                   |t1 p v _ _ _|p v _ _ _|p e _ _ _|p o _ _ _ _|p m _ _ _];
    try apply settle_marks_failures.
  - apply caught_marks_failures.
  - apply (marks_failures_trans _ (record (skipped t1) st));
      [|apply settle_marks_failures|].
    + apply marks_failures_same; intros t; try tauto.
      rewrite count_record. simpl. lia.
    + intros t. rewrite count_record. simpl. lia.
  - apply (marks_failures_trans _ (fst (call_run (launch stack) t1 task st)));
      [apply sync_marks_failures, call_run_sync, launch_sync
      |apply marks_failures_plain; reflexivity|].
    intros t. apply count_sync; [apply marked_not_prelude|].
    apply call_run_sync, launch_sync.
  - apply (marks_failures_trans _ (fst (call_keyFn (launch stack) t1 task kf st)));
      [apply sync_marks_failures, call_keyFn_sync, launch_sync
      |apply marks_failures_plain; reflexivity|].
    intros t. apply count_sync; [apply marked_not_prelude|].
    apply call_keyFn_sync, launch_sync.
  - apply (marks_failures_trans _ (modify_task t1 (set_cachedKey v) st));
      [apply modify_marks_failures; reflexivity| |reflexivity].
    apply (marks_failures_trans _
             (record (stored_key t1) (modify_task t1 (set_cachedKey v) st)));
      [|apply settle_marks_failures|].
    + apply marks_failures_same; intros t; try tauto.
      rewrite count_record. simpl. lia.
    + intros t. rewrite count_record. simpl. lia.
  - apply marks_failures_plain; reflexivity.
  - apply (marks_failures_trans _
             (record wrote_cache (with_cache_file (Some (cache_of (maek st))) st)));
      [|apply settle_marks_failures|].
    + apply marks_failures_same; intros t; try tauto.
      rewrite count_record. simpl.
      change (count (is_marked_failed t) (with_cache_file _ st))
        with (count (is_marked_failed t) st). lia.
    + intros t. rewrite count_record. simpl. apply Nat.add_0_r.
Qed.

Lemma stepped_marks_failures st st' : stepped stack st st' -> marks_failures st st'.
Proof.
  intros [targets|k c st1 Hk Hres|p by_ o _ _ _].
  - apply update_marks_failures.
  - apply (marks_failures_trans _ (with_continuations (delete k (continuations st)) st));
      [apply marks_failures_plain; reflexivity
      |eapply resumed_marks_failures; exact Hres | reflexivity].
  - unfold answered.
    apply (marks_failures_trans _
             (with_external (List.filter (fun q => negb (q =? p)) (external st)) st));
      [apply marks_failures_plain; reflexivity | apply settle_marks_failures | reflexivity].
Qed.

Lemma marks_failures_noted st st' :
  marks_failures st st' -> failures_noted st -> failures_noted st'.
Proof.
  intros Hm Hn t. destruct (Hm t) as [N [[F C]|[C F]]], (Hn t) as [H1 H2].
  - rewrite F, C. split; [exact H1|]. intros Hc Ht. apply H2; tauto.
  - rewrite C. split; [lia|]. intros _ Ht. apply F. tauto.
Qed.

Lemma marks_failures_sticky st st' t :
  marks_failures st st' -> failed_of st t = true -> failed_of st' t = true.
Proof.
  intros Hm Hf. destruct (Hm t) as [_ [[F _]|[_ F]]]; [congruence|].
  apply F. unfold failed_of in Hf. destruct (task_at st t); congruence.
Qed.

End Failed.

(** A task is marked failed by the [catch] of its own start and by
    nothing else, and the mark is never taken back.  From a configuration
    in which no task is marked, along any run of events (any number of
    [update] calls included): a task is marked failed exactly when a
    failure of it was noted; and a task that is marked stays marked
    through every later event, a later [update] included. *)
Theorem failed_mark_is_noted_and_kept
    (stack : nat) (m : Maek.Maek) (cache : option (JS.obj JS.json))
    (tr : list Sched.event) (st : Sched.state) :
  Forall (fun task => Maek.failed task = false) (Maek.heap m) ->
  Sched.exec stack (Sched.init m cache) tr = Some st ->
  (forall t task, Sched.task_at st t = Some task ->
     (Maek.failed task = true <-> In (Sched.marked_failed t) (Sched.history st)))
  /\ (forall t tr' st',
        Sched.exec stack st tr' = Some st' ->
        failed_of st t = true -> failed_of st' t = true).
Proof.
  intros Hfresh Hexec. split.
  - assert (Hn : failures_noted st).
    { refine (exec_invariant stack failures_noted _ tr _ st Hexec _).
      - intros a b _ Hs. apply marks_failures_noted, (stepped_marks_failures stack), Hs.
      - intros t. split.
        + unfold failed_of, Sched.task_at. simpl.
          destruct (Maek.heap m !! t) as [k|] eqn:Hk; [|discriminate].
          rewrite List.Forall_forall in Hfresh.
          rewrite (Hfresh k) by (apply list_elem_of_In; eapply list_elem_of_lookup_2; exact Hk).
          discriminate.
        + unfold Sched.count. simpl. lia. }
    intros t task Ht. destruct (Hn t) as [H1 H2].
    unfold failed_of in H1, H2. rewrite Ht in H1, H2. split.
    + intros Hf. specialize (H1 Hf). unfold Sched.count in H1.
      destruct (List.filter (Sched.is_marked_failed t) (Sched.history st)) as [|n l] eqn:E;
        [simpl in H1; lia|].
      assert (Hin : In n (List.filter (Sched.is_marked_failed t) (Sched.history st)))
        by (rewrite E; left; reflexivity).
      apply List.filter_In in Hin as [Hin Hp].
      destruct n; try discriminate Hp. simpl in Hp. apply Nat.eqb_eq in Hp. subst. exact Hin.
    + intros Hin. apply H2; [|congruence].
      apply (count_positive _ _ _ Hin). simpl. apply Nat.eqb_refl.
  - intros t tr' st' Hexec'.
    refine (exec_invariant stack (fun s => failed_of st t = true -> failed_of s t = true)
              _ tr' _ st' Hexec' _); [|tauto].
    intros a b _ Hs Ha Hf.
    apply (marks_failures_sticky a b t (stepped_marks_failures stack a b Hs)), Ha, Hf.
Qed.

(** The command of the only rule fails; the update ends; a second
    [update] is called: the task is still marked. *)
Lemma failed_mark_is_noted_and_kept_witness :
  let tr := [Sched.call_update ["out"]; Sched.continue 0 0; Sched.continue 0 0;
             Sched.run_done 3 (Some (Maek.BuildError "exit 1"));
             Sched.continue 0 0] in
  let st := after 8 single_rule None tr in
  Sched.history st = [Sched.launched 0; Sched.called_run 0; Sched.marked_failed 0]
  /\ failed_of st 0 = true
  /\ failed_of (after 8 single_rule None (tr ++ [Sched.call_update ["out"]])) 0 = true.
Proof.
  intros tr st.
  assert (Hexec : Sched.exec 8 (Sched.init single_rule None) tr = Some st)
    by (vm_compute; reflexivity).
  assert (Hfresh : Forall (fun task => Maek.failed task = false) (Maek.heap single_rule))
    by (repeat constructor).
  destruct (failed_mark_is_noted_and_kept 8 single_rule None tr st Hfresh Hexec)
    as [H1 H2].
  split; [vm_compute; reflexivity|].
  assert (Hf : failed_of st 0 = true).
  { destruct (Sched.task_at st 0) as [task|] eqn:Ht; [|vm_compute in Ht; discriminate Ht].
    unfold failed_of. rewrite Ht. apply (H1 0 task Ht). vm_compute. tauto. }
  split; [exact Hf|].
  assert (E : Sched.exec 8 st [Sched.call_update ["out"]]
              = Some (after 8 single_rule None (tr ++ [Sched.call_update ["out"]])))
    by (vm_compute; reflexivity).
  apply (H2 0 _ _ E Hf).
Defined.

(** ** The cache file, written and read back *)

Section RoundTrip.
Import Maek Sched.

Lemma In_set {A} (o : JS.obj A) k v k' v' :
  In (k, v) (JS.set o k' v') -> (k, v) = (k', v') \/ In (k, v) o.
Proof.
  induction o as [|[k0 v0] o IH]; simpl.
  - intros [H|[]]. left. congruence.
  - destruct (String.eqb k' k0); simpl.
    + intros [H|H]; [left; congruence | right; right; exact H].
    + intros [H|H]; [right; left; exact H|].
      destruct (IH H) as [E|E]; [left; exact E | right; right; exact E].
Qed.

(** Every entry of the object that [update] writes is the key of the
    task that owns the target. *)
Lemma cache_of_entries m k v :
  In (k, v) (cache_of m) ->
  exists t task, JS.get (tasks m) k = Some t /\ heap m !! t = Some task
                 /\ cachedKey task = Some v.
Proof.
  unfold cache_of. generalize (JS.keys (tasks m)). intros l.
  assert (H : forall acc,
             (forall k v, In (k, v) acc ->
                exists t task, JS.get (tasks m) k = Some t /\ heap m !! t = Some task
                               /\ cachedKey task = Some v) ->
             forall k v,
               In (k, v)
                 (fold_left (fun cache target =>
                    match JS.get (tasks m) target with
                    | Some t =>
                        match heap m !! t with
                        | Some task =>
                            match cachedKey task with
                            | Some key => JS.set cache target key
                            | None => cache
                            end
                        | None => cache
                        end
                    | None => cache
                    end) l acc) ->
               exists t task, JS.get (tasks m) k = Some t /\ heap m !! t = Some task
                              /\ cachedKey task = Some v).
  { induction l as [|x l IH]; intros acc Hacc; simpl; [exact Hacc|].
    apply IH. intros k0 v0.
    destruct (JS.get (tasks m) x) as [t|] eqn:Hx; [|apply Hacc].
    destruct (heap m !! t) as [task|] eqn:Ht; [|apply Hacc].
    destruct (cachedKey task) as [key|] eqn:Hkey; [|apply Hacc].
    intros Hin. apply In_set in Hin as [E|Hin]; [|apply Hacc, Hin].
    injection E as -> ->. eauto. }
  apply H. intros k0 v0 [].
Qed.

Lemma In_keys {A} (o : JS.obj A) k v : JS.get o k = Some v -> In k (JS.keys o).
Proof.
  intros H. apply get_In in H. unfold JS.keys. apply in_map_iff. exists (k, v). auto.
Qed.

(** [update] forgets the key of every task that owns a target. *)
Lemma clear_keys_owned st target t :
  JS.get (tasks (maek st)) target = Some t -> cachedKey_of (clear_keys st) t = None.
Proof.
  intros Hget. pose proof (In_keys _ _ _ Hget) as Hin. unfold clear_keys.
  revert Hin. generalize (JS.keys (tasks (maek st))). intros l.
  assert (H : forall l s,
             tasks (maek s) = tasks (maek st) ->
             cachedKey_of s t = None \/ In target l ->
             cachedKey_of (fold_left (fun s target =>
                             match JS.get (tasks (maek s)) target with
                             | Some t => modify_task t (set_cachedKey None) s
                             | None => s
                             end) l s) t = None).
  { clear l. induction l as [|x l IH]; intros s Ht Hc; simpl.
    - destruct Hc as [Hc|[]]. exact Hc.
    - apply IH.
      + destruct (JS.get (tasks (maek s)) x); [simpl|]; exact Ht.
      + destruct Hc as [Hc|[->|Hin]]; [| |right; exact Hin].
        * left. destruct (JS.get (tasks (maek s)) x) as [t0|]; [|exact Hc].
          destruct (decide (t0 = t)) as [->|Hne].
          -- unfold cachedKey_of, task_at. simpl. rewrite list_lookup_alter_eq.
             destruct (heap (maek s) !! t); reflexivity.
          -- rewrite cachedKey_set_other by exact Hne. exact Hc.
        * left. rewrite Ht, Hget.
          unfold cachedKey_of, task_at. simpl. rewrite list_lookup_alter_eq.
          destruct (heap (maek s) !! t); reflexivity. }
  intros Hin. apply H; [reflexivity | right; exact Hin].
Qed.

Lemma clear_keys_halted st : halted (clear_keys st) = halted st.
Proof.
  unfold clear_keys. generalize (JS.keys (tasks (maek st))). intros l. revert st.
  induction l as [|x l IH]; intros st; simpl; [reflexivity|].
  rewrite IH. destruct (JS.get _ x); reflexivity.
Qed.

Section Loading.
Variable m : Maek.
Variable t : nat.
Variable key : JS.json.

Lemma load_keys_agree : forall l s,
  tasks (maek s) = tasks m -> entries_agree m t key l ->
  halted (load_keys l s) = halted s
  /\ (cachedKey_of s t = Some key -> cachedKey_of (load_keys l s) t = Some key)
  /\ ((exists k v, In (k, v) l /\ JS.get (tasks m) k = Some t) ->
      task_at s t <> None -> cachedKey_of (load_keys l s) t = Some key)
  /\ ((forall k v, In (k, v) l -> JS.get (tasks m) k <> Some t) ->
      cachedKey_of (load_keys l s) t = cachedKey_of s t).
Proof.
  induction l as [|[k0 v0] l IH]; intros s Ht Hl.
  - split; [reflexivity|]. split; [tauto|]. split; [|reflexivity].
    intros (k & v & [] & _).
  - destruct (Hl k0 v0 (or_introl eq_refl)) as (t0 & Hget0 & Hkey0).
    change (load_keys ((k0, v0) :: l) s)
      with (load_keys l
              match JS.index (tasks (maek s)) k0 with
              | JS.Own t => modify_task t (set_cachedKey (Some v0)) s
              | JS.Inherited => if String.eqb k0 "__proto__" then halt s else s
              | JS.Undefined => s
              end).
    unfold JS.index. rewrite Ht, Hget0.
    set (s' := modify_task t0 (set_cachedKey (Some v0)) s).
    assert (Ht' : tasks (maek s') = tasks m) by exact Ht.
    assert (Hl' : entries_agree m t key l) by (intros k v Hin; apply Hl; right; exact Hin).
    destruct (IH s' Ht' Hl') as (Hh & Hkeep & Hset & Hother).
    assert (Hsame : t0 <> t -> cachedKey_of s' t = cachedKey_of s t)
      by (intros Hne; apply cachedKey_set_other, Hne).
    assert (Hhit : t0 = t -> task_at s t <> None -> cachedKey_of s' t = Some key).
    { intros -> Hn. unfold s'. rewrite (Hkey0 eq_refl). unfold cachedKey_of, task_at. simpl.
      rewrite list_lookup_alter_eq. unfold task_at in Hn.
      destruct (heap (maek s) !! t); [reflexivity | congruence]. }
    assert (Hnone : task_at s' t <> None <-> task_at s t <> None).
    { unfold s', task_at. simpl. rewrite !lookup_ge_None, length_alter. tauto. }
    split; [exact Hh|]. split; [|split].
    + intros Hc. apply Hkeep. destruct (decide (t0 = t)) as [E|E].
      * apply Hhit; [exact E|]. unfold cachedKey_of in Hc.
        destruct (task_at s t); congruence.
      * rewrite Hsame by exact E. exact Hc.
    + intros (k & v & [E|Hin] & Hget) Hn.
      * injection E as -> ->. apply Hkeep, Hhit; [congruence | exact Hn].
      * apply Hset; [eauto | tauto].
    + intros Hno.
      rewrite Hother by (intros k v Hin; apply (Hno k v); right; exact Hin).
      apply Hsame. intros ->. apply (Hno k0 v0 (or_introl eq_refl)). exact Hget0.
Qed.

End Loading.

End RoundTrip.

(** What the end of [update] writes is what the start of the next
    [update] loads.  Let [m] be the task registry as an update leaves it,
    and let the cache file hold what that update wrote.  Reading it back
    gives every task that owns a target the key it had, and leaves
    without key the tasks that had none; the loading meets no entry it
    cannot place. *)
Theorem written_cache_is_loaded_back (m : Maek.Maek) (target : string) (t : nat) :
  JS.get (Maek.tasks m) target = Some t ->
  let written := Some (Sched.cache_of m) in
  loaded_key m written t = cachedKey_of (Sched.init m written) t
  /\ Sched.halted (Sched.reload (Sched.init m written)) = false.
Proof.
  intros Hget written.
  set (st := Sched.init m written).
  assert (Hcache : Sched.cache_file (Sched.clear_keys st) = Some (Sched.cache_of m))
    by (rewrite clear_keys_cache_file; reflexivity).
  assert (Htasks : Maek.tasks (Sched.maek (Sched.clear_keys st)) = Maek.tasks m)
    by (destruct (clear_keys_heap st) as [_ H]; exact H).
  unfold loaded_key. fold st. unfold Sched.reload. rewrite Hcache.
  destruct (cachedKey_of st t) as [key|] eqn:Horig.
  - assert (Hagree : entries_agree m t key (Sched.cache_of m)).
    { intros k v Hin. destruct (cache_of_entries m k v Hin) as (t' & task & Hk & Ht' & Hv).
      exists t'. split; [exact Hk|]. intros ->.
      unfold cachedKey_of, Sched.task_at in Horig. simpl in Horig.
      rewrite Ht' in Horig. congruence. }
    destruct (load_keys_agree m t key _ _ Htasks Hagree) as (Hh & _ & Hset & _).
    split.
    + apply Hset.
      * exists target, key. split; [|exact Hget]. apply get_In.
        rewrite get_cache_of, Hget. exact Horig.
      * destruct (clear_keys_heap st) as [Hheap _].
        unfold Sched.task_at. rewrite (heap_related_none _ _ t Hheap).
        unfold cachedKey_of, Sched.task_at in Horig.
        destruct (Maek.heap (Sched.maek st) !! t); congruence.
    + rewrite Hh. apply clear_keys_halted.
  - assert (Hagree : entries_agree m t JS.JNull (Sched.cache_of m)).
    { intros k v Hin. destruct (cache_of_entries m k v Hin) as (t' & task & Hk & Ht' & Hv).
      exists t'. split; [exact Hk|]. intros ->.
      unfold cachedKey_of, Sched.task_at in Horig. simpl in Horig.
      rewrite Ht' in Horig. congruence. }
    destruct (load_keys_agree m t JS.JNull _ _ Htasks Hagree) as (Hh & _ & _ & Hother).
    split.
    + rewrite Hother.
      * apply (clear_keys_owned st target t Hget).
      * intros k v Hin Hk.
        destruct (cache_of_entries m k v Hin) as (t' & task & Hk' & Ht' & Hv).
        unfold cachedKey_of, Sched.task_at in Horig. simpl in Horig.
        assert (t' = t) as -> by congruence. rewrite Ht' in Horig. congruence.
    + rewrite Hh. apply clear_keys_halted.
Qed.

(** The rule of [single_rule] with the key that a build stored. *)
Lemma written_cache_is_loaded_back_witness :
  let key := JS.JArr [JS.JArr [JS.JStr "cc"; JS.JStr "-o"; JS.JStr "out"]; JS.JStr "out:y"] in
  let m := Sched.maek (Sched.modify_task 0 (Sched.set_cachedKey (Some key))
                         (Sched.init single_rule None)) in
  Sched.cache_of m = [("out", key)]
  /\ loaded_key m (Some (Sched.cache_of m)) 0 = Some key.
Proof.
  intros key m. split; [vm_compute; reflexivity|].
  destruct (written_cache_is_loaded_back m "out" 0) as [H _];
    [vm_compute; reflexivity|].
  rewrite H. vm_compute. reflexivity.
Defined.

(** ** Targets without a task *)

Section Requests.
Import Maek Sched.

Lemma abstract_not_inherited target :
  is_abstract target = true -> JS.inherited target = false.
Proof.
  destruct target as [|c r]; [discriminate|]. simpl. intros H.
  apply Ascii.eqb_eq in H. subst c. reflexivity.
Qed.

Lemma reload_promises st : promises (reload st) = promises st.
Proof.
  assert (Hc : forall l s, promises (fold_left (fun s target =>
             match JS.get (tasks (maek s)) target with
             | Some t => modify_task t (set_cachedKey None) s
             | None => s
             end) l s) = promises s).
  { induction l as [|x l IH]; intros s; simpl; [reflexivity|].
    rewrite IH. destruct (JS.get _ x); reflexivity. }
  assert (Hl : forall l s, promises (load_keys l s) = promises s).
  { unfold load_keys. induction l as [|x l IH]; intros s; simpl; [reflexivity|].
    rewrite IH. destruct (JS.index _ (fst x)); try reflexivity.
    destruct (String.eqb _ _); reflexivity. }
  unfold reload, clear_keys.
  destruct (cache_file _); rewrite ?Hl, Hc; reflexivity.
Qed.

Lemma reload_external st : external (reload st) = external st.
Proof.
  assert (Hc : forall l s, external (fold_left (fun s target =>
             match JS.get (tasks (maek s)) target with
             | Some t => modify_task t (set_cachedKey None) s
             | None => s
             end) l s) = external s).
  { induction l as [|x l IH]; intros s; simpl; [reflexivity|].
    rewrite IH. destruct (JS.get _ x); reflexivity. }
  assert (Hl : forall l s, external (load_keys l s) = external s).
  { unfold load_keys. induction l as [|x l IH]; intros s; simpl; [reflexivity|].
    rewrite IH. destruct (JS.index _ (fst x)); try reflexivity.
    destruct (String.eqb _ _); reflexivity. }
  unfold reload, clear_keys.
  destruct (cache_file _); rewrite ?Hl, Hc; reflexivity.
Qed.

Section WithStart.
Variable start : nat -> state -> state * nat.
Hypothesis start_sync : forall t st, sync st (fst (start t st)).

(** The first loop of [updateTargets] stops at the first abstract target
    without a task: what comes after it is not looked at. *)
Lemma request_stops m src target rest : forall before pending_ st,
  tasks (maek st) = tasks m ->
  Forall (requestable m) before ->
  is_abstract target = true -> JS.get (tasks m) target = None ->
  halted (fst (request start src (before ++ target :: rest) pending_ st)) = false ->
  snd (request start src (before ++ target :: rest) pending_ st)
  = inr (BuildError (abstract_message target src))
  /\ fst (request start src (before ++ target :: rest) pending_ st)
     = fst (request start src before pending_ st).
Proof.
  induction before as [|b before IH]; intros pending_ st Ht Hb Ha Hg.
  - simpl. destruct (halted st) eqn:Hh; [simpl; congruence|].
    unfold JS.index. rewrite Ht, Hg, (abstract_not_inherited _ Ha), Ha. simpl. auto.
  - inversion Hb as [|? ? Hb1 Hb2]; subst. simpl.
    destruct (halted st) eqn:Hh; [simpl; congruence|].
    unfold JS.index. rewrite Ht. destruct (JS.get (tasks m) b) as [t|] eqn:Hgb.
    + destruct (task_at st t) as [task|]; [|simpl; discriminate].
      destruct (pending task) as [p|]; [apply IH; assumption|].
      pose proof (start_sync t (modify_task t (set_src src) st)) as Hs.
      destruct (start t (modify_task t (set_src src) st)) as [st2 p]. simpl in Hs.
      apply IH; try assumption.
      simpl. rewrite (sync_tasks _ _ Hs). exact Ht.
    + destruct (JS.inherited b); [simpl; discriminate|].
      destruct (is_abstract b) eqn:Hab; [destruct (Hb1 Hab Hgb)|].
      apply IH; assumption.
Qed.

End WithStart.

Lemma delete_last {A} (l : list A) x : delete (length l) (l ++ [x]) = l.
Proof.
  induction l as [|y l IH]; [reflexivity|].
  change (y :: delete (length l) (l ++ [x]) = y :: l). rewrite IH. reflexivity.
Qed.

End Requests.

(** An abstract target without a task ends [update] at once.  Let
    [target] be the first requested target that is abstract and has no
    task.  The call of [updateTargets] is rejected before [update] gets to
    its [await], with a [BuildError] that names the target; the targets
    listed after it are not looked at, and when it is the first target
    nothing is started at all.  The continuation of [update] is ready to
    run: it writes the cache file from the keys the tasks have at that
    moment and fulfils the promise of [update], while whatever was started
    for the targets listed before is still waiting. *)
Theorem unknown_abstract_target_ends_update
    (stack : nat) (m : Maek.Maek) (cache : option (JS.obj JS.json))
    (before : list string) (target : string) (rest : list string) :
  Forall (requestable m) before ->
  Maek.is_abstract target = true -> JS.get (Maek.tasks m) target = None ->
  let st1 := Sched.update stack (before ++ target :: rest) (Sched.init m cache) in
  Sched.halted st1 = false ->
  let k := length (Sched.continuations st1) - 1 in
  Sched.outcome_of st1 1
  = Some (Sched.Rejected (Maek.BuildError (Sched.abstract_message target "user")))
  /\ (before = [] ->
      Sched.history st1 = [] /\ Sched.external st1 = []
      /\ Sched.continuations st1 = [Sched.mkContinuation Sched.await_build [1] 0])
  /\ Sched.continuations st1 !! k
     = Some (Sched.mkContinuation Sched.await_build [1] 0)
  /\ forall choice, exists st2,
       Sched.step stack st1 (Sched.continue k choice) = Some st2
       /\ Sched.cache_file st2 = Some (Sched.cache_of (Sched.maek st1))
       /\ Sched.history st2 = Sched.history st1 ++ [Sched.wrote_cache]
       /\ Sched.outcome_of st2 0 = Some (Sched.Fulfilled None)
       /\ Sched.continuations st2 = removelast (Sched.continuations st1).
Proof.
  intros Hbefore Habs Hget st1 Hh k.
  set (st0 := Sched.with_promises [Sched.mkPromise Sched.of_update None] (Sched.init m cache)).
  set (R := Sched.reload st0).
  set (targets := before ++ target :: rest) in *.
  set (R1 := Sched.with_promises
               [Sched.mkPromise Sched.of_update None;
                Sched.mkPromise (Sched.of_updateTargets targets) None] R).
  assert (HR : Sched.promises R = [Sched.mkPromise Sched.of_update None])
    by (unfold R; rewrite reload_promises; reflexivity).
  assert (HT : Maek.tasks (Sched.maek R1) = Maek.tasks m)
    by (destruct (reload_heap st0) as [_ H]; exact H).
  pose proof (request_sync (Sched.launch stack) (launch_sync stack) "user" targets [] R1)
    as Hsync.
  assert (Hst1 : st1 = let '(s, u) :=
                   match Sched.request (Sched.launch stack) "user" targets [] R1 with
                   | (st2, inl pending_) =>
                       (Sched.suspend (Sched.mkContinuation (Sched.await_all targets)
                                         pending_ 1) st2, 1)
                   | (st2, inr e) => (Sched.settle 1 (Sched.Rejected e) st2, 1)
                   end in
                 Sched.suspend (Sched.mkContinuation Sched.await_build [u] 0) s).
  { unfold st1, Sched.update, Sched.updateTargets, Sched.new_promise. simpl.
    fold st0. fold R. rewrite HR. simpl. fold R1. reflexivity. }
  pose proof (request_stops (Sched.launch stack) (launch_sync stack) m "user" target rest
                before [] R1 HT Hbefore Habs Hget) as Hstop.
  fold targets in Hstop.
  destruct (Sched.request (Sched.launch stack) "user" targets [] R1) as [s r] eqn:Hreq.
  simpl in Hsync, Hstop.
  assert (Hhs : Sched.halted s = false).
  { rewrite Hst1 in Hh. destruct r as [p|e]; simpl in Hh; [exact Hh|].
    rewrite settle_halted in Hh. exact Hh. }
  destruct (Hstop Hhs) as [-> Hfst]. simpl in Hst1.
  destruct (sync_promises _ _ Hsync) as (ps & Hps).
  assert (Hp1 : Sched.outcome_of s 1 = None /\ 1 < length (Sched.promises s)).
  { unfold Sched.outcome_of. rewrite Hps. unfold R1. simpl.
    split; [reflexivity | lia]. }
  assert (Hp0 : Sched.outcome_of s 0 = None /\ 0 < length (Sched.promises s)).
  { unfold Sched.outcome_of. rewrite Hps. unfold R1. simpl.
    split; [reflexivity | lia]. }
  set (e := Maek.BuildError (Sched.abstract_message target "user")) in *.
  set (s1 := Sched.settle 1 (Sched.Rejected e) s) in *.
  set (c := Sched.mkContinuation Sched.await_build [1] 0) in *.
  assert (Ho1 : Sched.outcome_of s1 1 = Some (Sched.Rejected e))
    by (apply settle_unsettled; tauto).
  assert (Hconts : Sched.continuations st1 = Sched.continuations s1 ++ [c])
    by (rewrite Hst1; reflexivity).
  assert (Hk : k = length (Sched.continuations s1)).
  { unfold k. rewrite Hconts, length_app. simpl. lia. }
  assert (Hlook : Sched.continuations st1 !! k = Some c).
  { rewrite Hconts, Hk, lookup_app_r, Nat.sub_diag by lia. reflexivity. }
  split; [rewrite Hst1; exact Ho1|]. split; [|split; [exact Hlook|]].
  - intros Hb. rewrite Hb in Hfst. simpl in Hfst. rewrite Hst1. simpl. unfold s1.
    rewrite Hfst.
    rewrite settle_history, settle_external, settle_continuations. unfold R1. simpl.
    unfold R. rewrite reload_history, reload_external, reload_continuations.
    repeat split.
  - intros choice. unfold Sched.step. rewrite Hh, Hlook.
    set (st' := Sched.with_continuations (delete k (Sched.continuations st1)) st1).
    assert (Ho' : Sched.outcome_of st' 1 = Some (Sched.Rejected e))
      by (unfold st'; rewrite Hst1; exact Ho1).
    unfold Sched.resume. cbn [Sched.point Sched.awaited Sched.own c].
    rewrite Ho'. unfold e at 1. eexists. split; [reflexivity|].
    rewrite settle_cache_file, settle_history.
    split; [reflexivity|]. split; [reflexivity|]. split.
    + apply settle_unsettled.
      * unfold st'. rewrite Hst1. simpl. unfold s1. rewrite settle_length. tauto.
      * unfold st'. rewrite Hst1.
        change (Sched.outcome_of s1 0 = None). unfold s1.
        rewrite settle_other by lia. tauto.
    + rewrite settle_continuations. unfold st'. simpl.
      rewrite Hconts, Hk, delete_last, removelast_last. reflexivity.
Qed.

(** The sample [Maekfile] run without arguments asks for [:dist], for
    which it declares no rule: the build fails at once, and nothing is
    compiled. *)
Lemma unknown_abstract_target_ends_update_witness :
  exists m,
    Maekfile_rules Maek.linux = Some (Maek.Returns m)
    /\ Maekfile_targets ["node"; "Maekfile.js"] = [":dist"]
    /\ let st1 := Sched.update 8 (Maekfile_targets ["node"; "Maekfile.js"])
                    (Sched.init m None) in
       Sched.outcome_of st1 1
       = Some (Sched.Rejected (Maek.BuildError
                 "Target ':dist' (requested by user) is abstract but doesn't have a task."))
       /\ Sched.history st1 = []
       /\ Sched.history (after 8 m None
                           [Sched.call_update (Maekfile_targets ["node"; "Maekfile.js"]);
                            Sched.continue 0 0])
          = [Sched.wrote_cache].
Proof.
  eexists. split; [vm_compute; reflexivity|]. split; [reflexivity|].
  match goal with |- let st1 := Sched.update 8 _ (Sched.init ?m None) in _ =>
    destruct (unknown_abstract_target_ends_update 8 m None [] ":dist" []
                (List.Forall_nil _) eq_refl) as (H1 & H2 & _)
  end.
  - vm_compute. reflexivity.
  - vm_compute. reflexivity.
  - intros st1. split; [exact H1|]. split; [apply (H2 eq_refl)|].
    vm_compute. reflexivity.
Defined.

(** ** Files without a task *)

Section Probe.
Import Maek Sched.

Lemma reload_halted_tasks st :
  tasks (maek (reload st)) = tasks (maek st).
Proof. destruct (reload_heap st) as [_ H]. exact H. Qed.

Lemma index_undefined {A} (o : JS.obj A) k :
  JS.index o k = JS.Undefined -> JS.get o k = None /\ JS.inherited k = false.
Proof.
  unfold JS.index. destruct (JS.get o k); [discriminate|].
  destruct (JS.inherited k); [discriminate | auto].
Qed.

(** [updateTargets] for one file that has no task. *)
Lemma probe_update stack mk cf ha file :
  JS.index (tasks mk) file = JS.Undefined -> is_abstract file = false ->
  (let '(s, u) :=
     updateTargets (launch stack) [file] "user"
       (mkState mk [mkPromise of_update None] [] [] cf [] ha) in
   suspend (mkContinuation await_build [u] 0) s)
  = if ha
    then mkState mk [mkPromise of_update None; mkPromise (of_updateTargets [file]) None]
           [mkContinuation (await_all [file]) [] 1; mkContinuation await_build [1] 0]
           [] cf [] true
    else mkState mk
           [mkPromise of_update None; mkPromise (of_updateTargets [file]) None;
            mkPromise (of_access file "user") None]
           [mkContinuation (await_all [file]) [2] 1; mkContinuation await_build [1] 0]
           [2] cf [] false.
Proof.
  intros Hidx Habs. unfold updateTargets, new_promise, request.
  cbn [promises with_promises halted maek]. destruct ha; [reflexivity|].
  rewrite Hidx, Habs. reflexivity.
Qed.

(** The three events that follow: the probe answers, [updateTargets]
    continues, [update] continues. *)
Lemma probe_answer stack mk cf file ok :
  JS.get (tasks mk) file = None ->
  exists st2,
    exec stack
      (mkState mk
         [mkPromise of_update None; mkPromise (of_updateTargets [file]) None;
          mkPromise (of_access file "user") None]
         [mkContinuation (await_all [file]) [2] 1; mkContinuation await_build [1] 0]
         [2] cf [] false)
      [access_done 2 ok; continue 0 0; continue 0 0] = Some st2
    /\ outcome_of st2 1
       = Some (if ok then Fulfilled None
               else Rejected (BuildError (access_message file "user")))
    /\ outcome_of st2 0 = Some (Fulfilled None)
    /\ history st2 = [wrote_cache]
    /\ cache_file st2 = Some (cache_of mk)
    /\ continuations st2 = [] /\ external st2 = [].
Proof.
  intros Hget.
  destruct ok.
  - eexists. split.
    + unfold exec, step, is_external, answered, settle, resume, lacking. simpl.
      rewrite Hget. reflexivity.
    + repeat split; reflexivity.
  - eexists. split.
    + unfold exec, step, is_external, answered, settle, resume. simpl. reflexivity.
    + repeat split; reflexivity.
Qed.

End Probe.

(** A requested file that no task makes is only probed.  [update] asks
    the file system whether the file can be read and starts nothing.  If
    it can, [updateTargets] is fulfilled; if not, it is rejected with a
    [BuildError] that says the file does not exist and has no task.
    Either way [update] then writes the cache file and its promise is
    fulfilled. *)
Theorem file_without_task_is_probed
    (stack : nat) (m : Maek.Maek) (cache : option (JS.obj JS.json)) (file : string) :
  Maek.is_abstract file = false -> JS.index (Maek.tasks m) file = JS.Undefined ->
  let st1 := Sched.update stack [file] (Sched.init m cache) in
  Sched.halted st1 = false ->
  Sched.history st1 = [] /\ Sched.external st1 = [2]
  /\ Sched.promises st1 !! 2 = Some (Sched.mkPromise (Sched.of_access file "user") None)
  /\ forall ok, exists st2,
       Sched.exec stack st1
         [Sched.access_done 2 ok; Sched.continue 0 0; Sched.continue 0 0] = Some st2
       /\ Sched.outcome_of st2 1
          = Some (if ok then Sched.Fulfilled None
                  else Sched.Rejected
                         (Maek.BuildError (Sched.access_message file "user")))
       /\ Sched.outcome_of st2 0 = Some (Sched.Fulfilled None)
       /\ Sched.history st2 = [Sched.wrote_cache]
       /\ Sched.cache_file st2 = Some (Sched.cache_of (Sched.maek st1))
       /\ Sched.continuations st2 = [] /\ Sched.external st2 = [].
Proof.
  intros Habs Hidx st1 Hh.
  destruct (index_undefined _ _ Hidx) as [Hget Hinh].
  set (st0 := Sched.with_promises [Sched.mkPromise Sched.of_update None] (Sched.init m cache)).
  pose proof (reload_promises st0) as HP. pose proof (reload_external st0) as HX.
  pose proof (reload_history st0) as HH. pose proof (reload_continuations st0) as HC.
  pose proof (reload_halted_tasks st0) as HT.
  remember (Sched.reload st0) as R eqn:HR.
  assert (Hst1 : st1 = let '(s, u) := Sched.updateTargets (Sched.launch stack) [file] "user" R in
                       Sched.suspend (Sched.mkContinuation Sched.await_build [u] 0) s)
    by (rewrite HR; reflexivity).
  clearbody st1. clear HR. subst st0.
  destruct R as [[o tk hp] pr cs ex cf hi ha].
  simpl in HP, HX, HH, HC, HT. subst pr ex hi cs tk.
  rewrite (probe_update stack (Maek.mkMaek o (Maek.tasks m) hp) cf ha file Hidx Habs) in Hst1.
  destruct ha; [rewrite Hst1 in Hh; discriminate Hh|].
  subst st1.
  split; [reflexivity|]. split; [reflexivity|]. split; [reflexivity|].
  intros ok.
  destruct (probe_answer stack (Maek.mkMaek o (Maek.tasks m) hp) cf file ok Hget)
    as (st2 & E & H1 & H2 & H3 & H4 & H5 & H6).
  exists st2. repeat split; assumption.
Qed.

(** A file that no rule makes and that is not there. *)
Lemma file_without_task_is_probed_witness :
  let st1 := Sched.update 8 ["notes.txt"] (Sched.init single_rule None) in
  Sched.external st1 = [2]
  /\ exists st2,
       Sched.exec 8 st1 [Sched.access_done 2 false; Sched.continue 0 0; Sched.continue 0 0]
       = Some st2
       /\ Sched.outcome_of st2 1
          = Some (Sched.Rejected (Maek.BuildError
               "Target 'notes.txt' (requested by user) doesn't exist and doesn't have a task to make it."))
       /\ Sched.history st2 = [Sched.wrote_cache].
Proof.
  intros st1.
  destruct (file_without_task_is_probed 8 single_rule None "notes.txt" eq_refl eq_refl)
    as (_ & H2 & _ & H4); [vm_compute; reflexivity|].
  split; [exact H2|].
  destruct (H4 false) as (st2 & E & O1 & _ & Hhist & _).
  exists st2. split; [exact E|]. split; [exact O1 | exact Hhist].
Defined.

(** ** Tasks without an entry in the cache file *)

Section FirstBuild.
Import Maek Sched.
Variable t : nat.

Lemma runs_follow_refl st : runs_follow t st st.
Proof. unfold runs_follow. lia. Qed.

Lemma runs_follow_trans a b c :
  runs_follow t a b -> runs_follow t b c -> runs_follow t a c.
Proof. unfold runs_follow. lia. Qed.

Lemma runs_follow_plain st st' : history st' = history st -> runs_follow t st st'.
Proof. intros H. unfold runs_follow, launches, runs, count. rewrite H. lia. Qed.

Lemma sbr_refl st : starts_by_running t st st.
Proof. intros _. apply runs_follow_refl. Qed.

Lemma sbr_trans a b c :
  sync a b -> starts_by_running t a b -> starts_by_running t b c ->
  starts_by_running t a c.
Proof.
  intros Hs H1 H2 Hk. eapply runs_follow_trans; [apply H1, Hk|].
  apply H2. rewrite (sync_cachedKey _ _ t Hs). exact Hk.
Qed.

Lemma sbr_plain st st' : history st' = history st -> starts_by_running t st st'.
Proof. intros H _. apply runs_follow_plain, H. Qed.

Section WithStart.
Variable start : nat -> state -> state * nat.
Hypothesis start_sync : forall t' st, sync st (fst (start t' st)).
Hypothesis start_runs : forall t' st, starts_by_running t st (fst (start t' st)).

Lemma request_runs src targets : forall pending_ st,
  starts_by_running t st (fst (request start src targets pending_ st)).
Proof.
  induction targets as [|target rest IH]; intros pending_ st; simpl.
  - apply sbr_refl.
  - destruct (halted st); [apply sbr_refl|].
    destruct (JS.index (tasks (maek st)) target) as [t'| |].
    + destruct (task_at st t') as [task|]; [|apply sbr_plain; reflexivity].
      destruct (pending task) as [p|]; [apply IH|].
      pose proof (start_sync t' (modify_task t' (set_src src) st)) as Hs.
      pose proof (start_runs t' (modify_task t' (set_src src) st)) as Hr.
      destruct (start t' (modify_task t' (set_src src) st)) as [st2 p]. simpl in Hs, Hr.
      eapply sbr_trans; [| |apply IH].
      * eapply sync_trans; [apply sync_set_src|].
        eapply sync_trans; [exact Hs | apply sync_set_pending].
      * apply (sbr_trans _ (modify_task t' (set_src src) st));
          [apply sync_set_src | apply sbr_plain; reflexivity|].
        apply (sbr_trans _ st2); [exact Hs | exact Hr | apply sbr_plain; reflexivity].
    + apply sbr_plain; reflexivity.
    + destruct (is_abstract target); [apply sbr_refl|].
      simpl. eapply sbr_trans; [| |apply IH].
      * eapply sync_trans; [apply (sync_new_promise (of_access target src))|].
        apply sync_expect.
      * apply sbr_plain; reflexivity.
Qed.

Lemma updateTargets_runs targets src st :
  starts_by_running t st (fst (updateTargets start targets src st)).
Proof.
  unfold updateTargets. simpl.
  pose proof (request_runs src targets []
                (fst (new_promise (of_updateTargets targets) st))) as Hr.
  pose proof (request_sync start start_sync src targets []
                (fst (new_promise (of_updateTargets targets) st))) as Hs.
  simpl in Hr, Hs.
  destruct (request start src targets [] _) as [st2 [pending_|e]]; simpl in *.
  - intros Hk. eapply runs_follow_trans; [apply Hr, Hk|].
    apply runs_follow_plain. reflexivity.
  - intros Hk. eapply runs_follow_trans; [apply Hr, Hk|].
    apply runs_follow_plain, settle_history.
Qed.

Lemma call_keyFn_runs t' task k st :
  starts_by_running t st (fst (call_keyFn start t' task k st)).
Proof.
  unfold call_keyFn. simpl.
  pose proof (updateTargets_runs (key_requests k) (label task +:+ " (keyFn)")
    (fst (new_promise (of_keyFn t') (record (called_keyFn t') st)))) as Hu.
  simpl in Hu. destruct (updateTargets start _ _ _) as [st2 u]. simpl in *.
  intros Hk. specialize (Hu Hk). unfold runs_follow, launches, runs in *.
  change (count ?P (suspend _ st2)) with (count P st2).
  change (count ?P (with_promises _ (record (called_keyFn t') st)))
    with (count P (record (called_keyFn t') st)) in Hu.
  rewrite !count_record in Hu. simpl in Hu. lia.
Qed.

(** [task.run()] on task [t'] notes one call for [t'], whatever its key. *)
Lemma call_run_runs t' task st :
  cachedKey_of st t = None ->
  launches t (fst (call_run start t' task st)) + runs t st + (if t =? t' then 1 else 0)
  <= runs t (fst (call_run start t' task st)) + launches t st.
Proof.
  unfold call_run. simpl.
  pose proof (updateTargets_runs (run_requests (run task)) (label task)
    (fst (new_promise (of_run t') (record (called_run t') st)))) as Hu.
  simpl in Hu. destruct (updateTargets start _ _ _) as [st2 u]. simpl in *.
  intros Hk. specialize (Hu Hk). unfold runs_follow, launches, runs in *.
  change (count ?P (suspend _ st2)) with (count P st2).
  change (count ?P (with_promises _ (record (called_run t') st)))
    with (count P (record (called_run t') st)) in Hu.
  rewrite !count_record in Hu. simpl in Hu. destruct (t =? t'); lia.
Qed.

End WithStart.

Lemma launch_runs stack : forall t' st, starts_by_running t st (fst (launch stack t' st)).
Proof.
  induction stack as [|stack IH]; intros t' st; simpl; [apply sbr_plain; reflexivity|].
  destruct (task_at st t') as [task|] eqn:Ht; [|apply sbr_plain; reflexivity].
  set (st1 := with_promises (promises st ++ [mkPromise (of_task t') None])
                (record (launched t') st)).
  intros Hk.
  assert (Hk1 : cachedKey_of st1 t = None) by exact Hk.
  assert (H1 : launches t st1 = launches t st + (if t =? t' then 1 else 0)
               /\ runs t st1 = runs t st).
  { unfold launches, runs, st1.
    change (count ?P (with_promises _ (record (launched t') st)))
      with (count P (record (launched t') st)).
    rewrite !count_record. simpl. split; lia. }
  destruct H1 as [HL HR].
  destruct (cachedKey task) as [c|] eqn:Hc, (keyFn task) as [k|].
  1: {
    pose proof (call_keyFn_runs (launch stack) (launch_sync stack) IH t' task k st1 Hk1) as Hr.
    destruct (call_keyFn _ _ _ _ _) as [st2 key]. simpl in *.
    unfold runs_follow in *.
    change (launches t (suspend _ st2)) with (launches t st2).
    change (runs t (suspend _ st2)) with (runs t st2).
    destruct (Nat.eqb_spec t t') as [->|Hne]; [|lia].
    unfold cachedKey_of in Hk. rewrite Ht in Hk. congruence. }
  all: pose proof (call_run_runs (launch stack) (launch_sync stack) IH t' task st1 Hk1) as Hr;
    destruct (call_run _ _ _ _) as [st2 r]; simpl in *;
    unfold runs_follow in *;
    change (launches t (suspend _ st2)) with (launches t st2);
    change (runs t (suspend _ st2)) with (runs t st2);
    destruct (t =? t'); lia.
Qed.

End FirstBuild.

Section FirstBuildSteps.
Import Maek Sched.
Variable stack : nat.
Variable rank : nat -> nat.
Variable key : nat -> option JS.json.
Variable t : nat.
Hypothesis no_entry : key t = None.

(** A task that is not pending has no key yet. *)
Lemma idle_without_key st :
  once st -> balanced st -> keeps_loaded key st ->
  pending_of st t = None -> cachedKey_of st t = None.
Proof.
  intros [_ Ho] Hb Hk Hp. rewrite <- no_entry. apply Hk.
  specialize (Ho t Hp). destruct (Hb t) as [Hc _]. unfold credit in Hc. lia.
Qed.

Lemma block_runs targets src s :
  (pending_of s t = None -> cachedKey_of s t = None) ->
  runs_follow t s (fst (updateTargets (launch stack) targets src s)).
Proof.
  intros Hidle. destruct (pending_of s t) as [p|] eqn:Hp.
  - destruct (updateTargets_passes t (launch stack) (launch_passes t stack) targets src s)
      as (_ & HL & HR & _); [congruence|].
    unfold runs_follow. lia.
  - apply (updateTargets_runs t (launch stack) (launch_sync stack) (launch_runs t stack)).
    apply Hidle. reflexivity.
Qed.

Lemma call_run_block t1 task s :
  (pending_of s t = None -> cachedKey_of s t = None) ->
  runs_follow t s (fst (call_run (launch stack) t1 task s)).
Proof.
  intros Hidle. unfold call_run. simpl.
  pose proof (block_runs (run_requests (run task)) (label task)
                (with_promises (promises s ++ [mkPromise (of_run t1) None])
                   (record (called_run t1) s)) Hidle) as Hu.
  destruct (updateTargets (launch stack) _ _ _) as [s2 u]. simpl in *.
  unfold runs_follow, launches, runs in *.
  change (count ?P (suspend _ s2)) with (count P s2).
  change (count ?P (with_promises _ (record (called_run t1) s)))
    with (count P (record (called_run t1) s)) in Hu.
  rewrite !count_record in Hu. simpl in Hu. destruct (t =? t1); lia.
Qed.

Lemma call_keyFn_block t1 task kf s :
  (pending_of s t = None -> cachedKey_of s t = None) ->
  runs_follow t s (fst (call_keyFn (launch stack) t1 task kf s)).
Proof.
  intros Hidle. unfold call_keyFn. simpl.
  pose proof (block_runs (key_requests kf) (label task +:+ " (keyFn)")
                (with_promises (promises s ++ [mkPromise (of_keyFn t1) None])
                   (record (called_keyFn t1) s)) Hidle) as Hu.
  destruct (updateTargets (launch stack) _ _ _) as [s2 u]. simpl in *.
  unfold runs_follow, launches, runs in *.
  change (count ?P (suspend _ s2)) with (count P s2).
  change (count ?P (with_promises _ (record (called_keyFn t1) s)))
    with (count P (record (called_keyFn t1) s)) in Hu.
  rewrite !count_record in Hu. simpl in Hu. lia.
Qed.

Lemma resumed_runs c st st' :
  (pending_of st t = None -> cachedKey_of st t = None) ->
  resumed stack c st st' -> runs_follow t st st'.
Proof.
  intros Hidle Hres.
  destruct Hres as [targets _ _|targets p e _ _ _ _|t1 p e _ _ _
                   |t1 p v task _ _ _ _ _|t1 p v task _ _ _ _ _
                   |t1 p v task kf _ _ _ _ _|t1 p v task _ _ _ _ _
                   |t1 p v _ _ _|p v _ _ _|p e _ _ _|p o _ _ _ _|p m _ _ _];
    try (apply runs_follow_plain, settle_history).
  - destruct e; unfold caught; [|apply runs_follow_plain, settle_history].
    unfold runs_follow, launches, runs. rewrite !count_settle, !count_record. simpl.
    change (count ?P (modify_task t1 set_failed st)) with (count P st). lia.
  - unfold runs_follow, launches, runs. rewrite !count_settle, !count_record. simpl. lia.
  - exact (call_run_block t1 task st Hidle).
  - exact (call_keyFn_block t1 task kf st Hidle).
  - unfold runs_follow, launches, runs. rewrite !count_settle, !count_record. simpl.
    change (count ?P (modify_task t1 (set_cachedKey v) st)) with (count P st). lia.
  - apply runs_follow_plain. reflexivity.
  - unfold runs_follow, launches, runs. rewrite !count_settle, !count_record. simpl.
    change (count ?P (with_cache_file _ st)) with (count P st). lia.
Qed.

Lemma moved_run_when_started st st' :
  halted st = false -> moved stack st st' ->
  run_when_started rank key t st -> run_when_started rank key t st'.
Proof.
  intros _ Hm (Hrk & Ho & Hb & Hk & Hle).
  pose proof (moved_stepped stack st st' Hm) as Hs.
  split; [|split; [|split; [|split]]].
  - apply (ranked_evolves rank st st' (stepped_evolves stack st st' Hs) Hrk).
  - apply (stepped_once rank stack st st' Hrk Hs Ho).
  - intros t'. destruct (stepped_credit stack st st' Hs t'), (Hb t'). lia.
  - apply (moved_keeps_loaded stack key st st' Hm Hk).
  - assert (Hf : runs_follow t st st'); [|unfold runs_follow in Hf; lia].
    destruct Hm as [k c st1 Hk' Hres|p by_ o _ _ _].
    + apply (runs_follow_trans t _ (with_continuations (delete k (continuations st)) st));
        [apply runs_follow_plain; reflexivity|].
      apply (resumed_runs c _ st1); [|exact Hres].
      exact (idle_without_key st Ho Hb Hk).
    + unfold answered. apply runs_follow_plain. rewrite settle_history. reflexivity.
Qed.

End FirstBuildSteps.

(** A task without an entry in the cache file is run when it is reached.
    Take a configuration without cycle and one update, and a task for
    which the cache file gave no key.  Whatever the events: the task is
    never skipped, it never waits for a key to compare, and every start of
    it called its [run]; there is at most one.  Without a cache file this
    holds for every task that owns a target. *)
Theorem task_without_cache_entry_is_run
    (stack : nat) (m : Maek.Maek) (rank : nat -> nat) (cache : option (JS.obj JS.json))
    (targets : list string) (tr : list Sched.event) (st : Sched.state) (t : nat) :
  ranked m rank ->
  Sched.exec stack (Sched.init m cache) (Sched.call_update targets :: tr) = Some st ->
  forallb (fun e => negb (is_update e)) tr = true ->
  loaded_key m cache t = None ->
  Sched.count (Sched.is_skipped t) st = 0
  /\ Sched.waiting (Sched.at_key t) st = 0
  /\ Sched.runs t st = Sched.launches t st
  /\ Sched.launches t st <= 1
  /\ (forall target t', JS.get (Maek.tasks m) target = Some t' -> loaded_key m None t' = None).
Proof.
  intros Hrk Hexec Hq Hnone.
  apply exec_first in Hexec as (st1 & Hstep & Hexec).
  assert (st1 = Sched.update stack targets (Sched.init m cache)) as ->
    by (unfold Sched.step in Hstep; simpl in Hstep; congruence).
  assert (H1 : run_when_started rank (loaded_key m cache) t
                 (Sched.update stack targets (Sched.init m cache))).
  { pose proof (stepped_update stack (Sched.init m cache) targets) as Hs.
    split; [|split; [|split; [|split]]].
    - apply (ranked_evolves rank (Sched.init m cache) _
               (stepped_evolves stack _ _ Hs) Hrk).
    - apply (stepped_once rank stack (Sched.init m cache) _ Hrk Hs (init_once m cache)).
    - intros t'. destruct (stepped_credit stack _ _ Hs t'), (init_balanced m cache t'). lia.
    - intros t' _. apply update_loaded_key.
    - unfold Sched.update. simpl.
      set (st0 := Sched.with_promises [Sched.mkPromise Sched.of_update None]
                    (Sched.init m cache)).
      pose proof (updateTargets_runs t (Sched.launch stack) (launch_sync stack)
                    (launch_runs t stack) targets "user" (Sched.reload st0)) as Hu.
      destruct (Sched.updateTargets (Sched.launch stack) targets "user" (Sched.reload st0))
        as [s u]. simpl in Hu.
      assert (Hk : cachedKey_of (Sched.reload st0) t = None).
      { rewrite <- Hnone. unfold loaded_key. apply cachedKey_plain.
        apply reload_engine; reflexivity. }
      specialize (Hu Hk). unfold runs_follow, Sched.launches, Sched.runs, Sched.count in *.
      rewrite reload_history in Hu. simpl in *. lia. }
  assert (H2 : run_when_started rank (loaded_key m cache) t st).
  { refine (exec_moved_invariant stack (run_when_started rank (loaded_key m cache) t) _
              tr _ st Hq Hexec H1).
    intros a b Hh Hm. apply (moved_run_when_started stack rank _ t Hnone a b Hh Hm). }
  destruct H2 as (_ & [HL _] & Hb & _ & Hle).
  destruct (Hb t) as [_ Hcr]. unfold credit_run in Hcr. specialize (HL t).
  split; [lia|]. split; [lia|]. split; [lia|]. split; [exact HL|].
  intros target t' Hget. unfold loaded_key, Sched.reload.
  rewrite clear_keys_cache_file. simpl.
  apply (clear_keys_owned (Sched.init m None) target t' Hget).
Qed.

(** The first build of [two_rules]: both rules are started and run. *)
Lemma task_without_cache_entry_is_run_witness :
  let tr := [Sched.continue 0 0; Sched.continue 0 0; Sched.run_done 7 None;
             Sched.access_done 5 true] in
  let st := after 8 two_rules None (Sched.call_update ["out"; "gen"] :: tr) in
  Sched.runs 1 st = 1 /\ Sched.launches 1 st = 1
  /\ Sched.count (Sched.is_skipped 1) st = 0.
Proof.
  intros tr st.
  assert (Hexec : Sched.exec 8 (Sched.init two_rules None)
                    (Sched.call_update ["out"; "gen"] :: tr) = Some st)
    by (vm_compute; reflexivity).
  assert (Hnone : loaded_key two_rules None 1 = None) by (vm_compute; reflexivity).
  destruct (task_without_cache_entry_is_run 8 two_rules two_rules_rank None
              ["out"; "gen"] tr st 1 two_rules_ranked Hexec eq_refl Hnone)
    as (H1 & _ & H3 & _).
  split; [vm_compute; reflexivity|]. split; [vm_compute; reflexivity | exact H1].
Defined.

(** ** Comparing keys *)

Section Keys.

Lemma In_all_ascii c : In c all_ascii.
Proof.
  unfold all_ascii. rewrite <- (ascii_nat_embedding c).
  apply in_map, in_seq. pose proof (nat_ascii_bounded c). lia.
Qed.

Lemma escapes_checked :
  forallb (fun c => forallb (fun c' => implb (escapes_overlap c c') (Ascii.eqb c c'))
                      all_ascii) all_ascii = true.
Proof. vm_compute. reflexivity. Qed.

Lemma escape_first_checked :
  forallb (fun c => negb (Ascii.eqb (first_char JS.dquote (JS.escape_char c)) JS.dquote))
          all_ascii = true.
Proof. vm_compute. reflexivity. Qed.

Lemma escapes_overlap_eq c c' : escapes_overlap c c' = true -> c = c'.
Proof.
  intros H. pose proof escapes_checked as Hall.
  rewrite forallb_forall in Hall. specialize (Hall c (In_all_ascii c)).
  rewrite forallb_forall in Hall. specialize (Hall c' (In_all_ascii c')).
  rewrite H in Hall. simpl in Hall. apply Ascii.eqb_eq, Hall.
Qed.

Lemma escape_first c : first_char JS.dquote (JS.escape_char c) <> JS.dquote.
Proof.
  pose proof escape_first_checked as Hall.
  rewrite forallb_forall in Hall. specialize (Hall c (In_all_ascii c)).
  apply negb_true_iff, Ascii.eqb_neq in Hall. exact Hall.
Qed.

Lemma append_overlap : forall a b X X',
  a +:+ X = b +:+ X' -> String.prefix a b = true \/ String.prefix b a = true.
Proof.
  induction a as [|x a IH]; intros b X X' H.
  - left. destruct b; reflexivity.
  - destruct b as [|y b]; [right; reflexivity|].
    change (String x (a +:+ X) = String y (b +:+ X')) in H.
    injection H as -> H. simpl.
    destruct (ascii_dec y y) as [_|Hne]; [|congruence].
    apply (IH b X X' H).
Qed.

Lemma append_cancel : forall a X X', a +:+ X = a +:+ X' -> X = X'.
Proof.
  induction a as [|x a IH]; intros X X' H; [exact H|].
  change (String x (a +:+ X) = String x (a +:+ X')) in H.
  injection H as H. apply IH, H.
Qed.

(** The escape of a character can be told from what follows it. *)
Lemma escape_char_inj c c' X X' :
  JS.escape_char c +:+ X = JS.escape_char c' +:+ X' -> c = c' /\ X = X'.
Proof.
  intros H. assert (c = c') as ->.
  { apply escapes_overlap_eq. unfold escapes_overlap.
    destruct (append_overlap _ _ _ _ H) as [E|E]; rewrite E; auto using orb_true_r. }
  split; [reflexivity | apply (append_cancel _ _ _ H)].
Qed.

Lemma escape_cons c r X :
  JS.escape (String c r) +:+ X = JS.escape_char c +:+ (JS.escape r +:+ X).
Proof. cbn [JS.escape]. apply append_assoc. Qed.

Lemma escape_char_not_quote c r X :
  String JS.dquote X <> JS.escape_char c +:+ r.
Proof.
  intros H. pose proof (escape_first c) as Hf.
  destruct (JS.escape_char c) as [|a e] eqn:E.
  - apply Hf. reflexivity.
  - change (String JS.dquote X = String a (e +:+ r)) in H. injection H as <- _.
    apply Hf. reflexivity.
Qed.

(** A quoted string ends at its closing quote. *)
Lemma escape_inj : forall s s' X X',
  JS.escape s +:+ String JS.dquote X = JS.escape s' +:+ String JS.dquote X' ->
  s = s' /\ X = X'.
Proof.
  induction s as [|c r IH]; intros [|c' r'] X X' H.
  - injection H as H. auto.
  - rewrite escape_cons in H. destruct (escape_char_not_quote _ _ _ H).
  - rewrite escape_cons in H. symmetry in H. destruct (escape_char_not_quote _ _ _ H).
  - rewrite !escape_cons in H. apply escape_char_inj in H as [-> H].
    apply IH in H as [-> ->]. auto.
Qed.

Lemma quote_append s X :
  JS.quote s +:+ X = String JS.dquote (JS.escape s +:+ String JS.dquote X).
Proof.
  unfold JS.quote, JS.str.
  change (String JS.dquote ((JS.escape s +:+ String JS.dquote EmptyString) +:+ X)
          = String JS.dquote (JS.escape s +:+ String JS.dquote X)).
  rewrite append_assoc. reflexivity.
Qed.

Lemma quote_inj s s' X X' :
  JS.quote s +:+ X = JS.quote s' +:+ X' -> s = s' /\ X = X'.
Proof.
  rewrite !quote_append. intros H. injection H as H. apply escape_inj, H.
Qed.

(** *** Arrays *)

Section Arrays.
Variable Q : JS.json -> bool.
Hypothesis item_inj : forall a a' X X',
  Q a = true -> Q a' = true ->
  JS.JSON_stringify a +:+ X = JS.JSON_stringify a' +:+ X' -> a = a' /\ X = X'.
Hypothesis item_first : forall a X,
  Q a = true ->
  exists c r, JS.JSON_stringify a +:+ X = String c r /\ c <> "]"%char /\ c <> ","%char.

Lemma items_inj : forall l l' X X',
  forallb Q l = true -> forallb Q l' = true ->
  l <> [] -> l' <> [] ->
  items l X = items l' X' -> l = l' /\ X = X'.
Proof.
  induction l as [|a l IH]; intros l' X X' Hl Hl' Hn Hn' H; [congruence|].
  destruct l' as [|a' l']; [congruence|].
  simpl in Hl, Hl'. apply andb_true_iff in Hl as [Ha Hl], Hl' as [Ha' Hl'].
  assert (E : JS.JSON_stringify a +:+ (match l with [] => String "]" X
                                        | _ => String "," (items l X) end)
              = JS.JSON_stringify a' +:+ (match l' with [] => String "]" X'
                                          | _ => String "," (items l' X') end)).
  { destruct l, l'; exact H. }
  apply (item_inj _ _ _ _ Ha Ha') in E as [-> E].
  destruct l as [|b l], l' as [|b' l']; try discriminate E.
  - injection E as ->. auto.
  - injection E as E.
    destruct (IH (b' :: l') X X' Hl Hl' ltac:(discriminate) ltac:(discriminate) E)
      as [-> ->].
    auto.
Qed.

Lemma array_items l X :
  JS.JSON_stringify (JS.JArr l) +:+ X = String "[" (items l X).
Proof.
  cbn [JS.JSON_stringify].
  change (String "[" ((JS.join "," (map JS.JSON_stringify l) +:+ "]") +:+ X)
          = String "[" (items l X)).
  f_equal. rewrite append_assoc.
  induction l as [|a l IH]; [reflexivity|].
  destruct l as [|b l]; [reflexivity|].
  change (JS.join "," (map JS.JSON_stringify (a :: b :: l)))
    with (JS.JSON_stringify a +:+ "," +:+ JS.join "," (map JS.JSON_stringify (b :: l))).
  rewrite !append_assoc. rewrite IH. reflexivity.
Qed.

Lemma array_inj l l' X X' :
  forallb Q l = true -> forallb Q l' = true ->
  JS.JSON_stringify (JS.JArr l) +:+ X = JS.JSON_stringify (JS.JArr l') +:+ X' ->
  l = l' /\ X = X'.
Proof.
  intros Hl Hl'. rewrite !array_items. intros H. injection H as H.
  destruct l as [|a l], l' as [|a' l'].
  - injection H as ->. auto.
  - exfalso. simpl in Hl'. apply andb_true_iff in Hl' as [Ha' _].
    destruct (item_first a' (match l' with [] => String "]" X'
                             | _ => String "," (items l' X') end) Ha')
      as (c & r & E & Hc & _).
    assert (E' : items (a' :: l') X' = String c r) by (destruct l'; exact E).
    rewrite E' in H. simpl in H. congruence.
  - exfalso. simpl in Hl. apply andb_true_iff in Hl as [Ha _].
    destruct (item_first a (match l with [] => String "]" X
                            | _ => String "," (items l X) end) Ha)
      as (c & r & E & Hc & _).
    assert (E' : items (a :: l) X = String c r) by (destruct l; exact E).
    rewrite E' in H. simpl in H. congruence.
  - apply items_inj; auto; discriminate.
Qed.

End Arrays.

Lemma string_inj a a' X X' :
  is_string a = true -> is_string a' = true ->
  JS.JSON_stringify a +:+ X = JS.JSON_stringify a' +:+ X' -> a = a' /\ X = X'.
Proof.
  destruct a; try discriminate. destruct a'; try discriminate. intros _ _ H.
  apply quote_inj in H as [-> ->]. auto.
Qed.

Lemma string_first a X :
  is_string a = true ->
  exists c r, JS.JSON_stringify a +:+ X = String c r /\ c <> "]"%char /\ c <> ","%char.
Proof.
  destruct a; try discriminate. intros _. cbn [JS.JSON_stringify].
  rewrite quote_append. eexists _, _. split; [reflexivity|]. split; discriminate.
Qed.

Lemma part_inj a a' X X' :
  is_key_part a = true -> is_key_part a' = true ->
  JS.JSON_stringify a +:+ X = JS.JSON_stringify a' +:+ X' -> a = a' /\ X = X'.
Proof.
  unfold is_key_part. intros Ha Ha' H.
  destruct a as [| | |s|l|], a' as [| | |s'|l'|]; try discriminate.
  - apply (string_inj (JS.JStr s) (JS.JStr s') X X' eq_refl eq_refl H).
  - simpl in Ha, Ha'.
    apply (array_inj is_string string_inj string_first) in H as [-> ->]; auto.
Qed.

Lemma part_first a X :
  is_key_part a = true ->
  exists c r, JS.JSON_stringify a +:+ X = String c r /\ c <> "]"%char /\ c <> ","%char.
Proof.
  unfold is_key_part. intros Ha. destruct a as [| | |s|l|]; try discriminate.
  - apply string_first. reflexivity.
  - rewrite array_items. eexists _, _. split; [reflexivity|]. split; discriminate.
Qed.

End Keys.

(** The comparison of line 396 has no false hit: two keys of the form
    the rules build (an array of strings and of arrays of strings) have
    the same [JSON.stringify] text only if they are the same key.  So a
    task with such a key stored is skipped by a new key of that form
    exactly when the two are equal. *)
Theorem keys_compare_equal_only_when_identical (key stored : JS.json) (task : Maek.Task) :
  key_shaped key = true -> key_shaped stored = true ->
  (JS.JSON_stringify key = JS.JSON_stringify stored -> key = stored)
  /\ (Maek.cachedKey task = Some stored ->
      (Sched.same_key (Some key) task = true <-> key = stored)).
Proof.
  intros Hk Hs.
  assert (Hinj : JS.JSON_stringify key = JS.JSON_stringify stored -> key = stored).
  { destruct key as [| | | |l|]; try discriminate Hk.
    destruct stored as [| | | |l'|]; try discriminate Hs.
    intros H. simpl in Hk, Hs.
    assert (E : JS.JSON_stringify (JS.JArr l) +:+ EmptyString
                = JS.JSON_stringify (JS.JArr l') +:+ EmptyString)
      by (rewrite !append_empty_r; exact H).
    apply (array_inj is_key_part part_inj part_first _ _ _ _ Hk Hs) in E as [-> _].
    reflexivity. }
  split; [exact Hinj|].
  intros Hc. unfold Sched.same_key. rewrite Hc. split.
  - intros H. apply String.eqb_eq in H. apply Hinj, H.
  - intros ->. apply String.eqb_refl.
Qed.

(** Two keys that differ in one hash. *)
Lemma keys_compare_equal_only_when_identical_witness :
  let old := JS.JArr [JS.JArr [JS.JStr "cc"; JS.JStr "-o"; JS.JStr "out"]; JS.JStr "out:x"] in
  let new := JS.JArr [JS.JArr [JS.JStr "cc"; JS.JStr "-o"; JS.JStr "out"]; JS.JStr "out:y"] in
  let task := Maek.mkTask (Maek.run_RULE ["out"] [] [["cc"; "-o"; "out"]]) None
                "RULE out" None (Some old) None false in
  Sched.same_key (Some new) task = false /\ Sched.same_key (Some old) task = true.
Proof.
  intros old new task.
  destruct (keys_compare_equal_only_when_identical new old task eq_refl eq_refl) as [_ H1].
  destruct (keys_compare_equal_only_when_identical old old task eq_refl eq_refl) as [_ H2].
  split.
  - pose proof (proj1 (H1 eq_refl)) as Hn.
    destruct (Sched.same_key (Some new) task); [|reflexivity].
    specialize (Hn eq_refl). unfold new, old in Hn. discriminate Hn.
  - apply (H2 eq_refl). reflexivity.
Defined.
